(** * Claude-Cline Bridge: the framing codec and the two polling clients

    A shallow embedding of
    - the Content-Length framing of [minimal-mcp-server.js]
      ([sendMessage] and the [process.stdin.on('data')] loop),
    - the client of the Claude side, [ClaudeMCPClient]
      ([claude-mcp-client.js]), and
    - the client of the Cline side, [ClaudeBridgeTool]
      ([cline-mcp-client.js]),
    each client together with the relay ([claude-cline-bridge.js]) as it
    sees it: a mailbox that [GET /<party>/messages] returns and empties,
    and routes that answer or fail; then
    - the relay itself, with its two queues, and
    - the request handler of [minimal-mcp-server.js] behind the framing.
    The properties of the bridge protocol follow the definitions.

    Conventions of the embedding.
    - A JavaScript string is the list of its UTF-16 code units, a Node
      [Buffer] the list of its bytes; both are lists of [N].
    - A callback of the event loop (a timer body, an API call) runs to
      completion: the suspension points inside one [async] body are not
      interleaved with other callbacks.
    - A closure stored in a table or a timer is represented by the data it
      captures (the call it belongs to). *)

From Stdlib Require Import NArith ZArith Decimal DecimalNat Ascii Lia.
From stdpp Require Import base option list strings pretty gmap.

Open Scope list_scope.

(** ** Framing codec (minimal-mcp-server.js) *)

Module Framing.

Open Scope N_scope.

(** UTF-16 code units of a JavaScript string, bytes of a Buffer. *)
Definition jsstring := list N.
Definition bytes := list N.

(** The code units of an ASCII literal of the source. *)
Definition lit (s : string) : jsstring :=
  N_of_ascii <$> String.list_ascii_of_string s.

Definition replacement : N := 0xFFFD.

Definition in_range (lo hi u : N) : bool := (lo <=? u) && (u <=? hi).
Definition is_high (u : N) : bool := in_range 0xD800 0xDBFF u.
Definition is_low (u : N) : bool := in_range 0xDC00 0xDFFF u.
Definition is_cont (b : N) : bool := in_range 0x80 0xBF b.

(** UTF-8 bytes of one code point. *)
Definition utf8_of_cp (c : N) : bytes :=
  if c <? 0x80 then [c]
  else if c <? 0x800 then
    [N.lor 0xC0 (N.shiftr c 6); N.lor 0x80 (N.land c 0x3F)]
  else if c <? 0x10000 then
    [N.lor 0xE0 (N.shiftr c 12);
     N.lor 0x80 (N.land (N.shiftr c 6) 0x3F);
     N.lor 0x80 (N.land c 0x3F)]
  else
    [N.lor 0xF0 (N.shiftr c 18);
     N.lor 0x80 (N.land (N.shiftr c 12) 0x3F);
     N.lor 0x80 (N.land (N.shiftr c 6) 0x3F);
     N.lor 0x80 (N.land c 0x3F)].

(** What Node writes for a string ([process.stdout.write(str)], encoding
    'utf8'): surrogate pairs are combined, a lone surrogate becomes
    U+FFFD. *)
Fixpoint utf8_encode (s : jsstring) : bytes :=
  match s with
  | [] => []
  | u :: s' =>
      if is_high u then
        match s' with
        | v :: s'' =>
            if is_low v then
              utf8_of_cp (0x10000 + (u - 0xD800) * 0x400 + (v - 0xDC00))
                ++ utf8_encode s''
            else utf8_of_cp replacement ++ utf8_encode s'
        | [] => utf8_of_cp replacement
        end
      else if is_low u then utf8_of_cp replacement ++ utf8_encode s'
      else utf8_of_cp u ++ utf8_encode s'
  end.

(** [Buffer.byteLength(content, 'utf8')]. *)
Definition byteLength (s : jsstring) : nat := length (utf8_encode s).

(** UTF-16 code units of one code point. *)
Definition utf16_of_cp (c : N) : jsstring :=
  if c <? 0x10000 then [c]
  else [0xD800 + N.shiftr (c - 0x10000) 10;
        0xDC00 + N.land (c - 0x10000) 0x3FF].

(** UTF-8 decoding with U+FFFD for every ill-formed maximal subpart, the
    decoding of [Buffer.prototype.toString()]. *)
Fixpoint utf8_decode (bs : bytes) : list N :=
  match bs with
  | [] => []
  | b0 :: r0 =>
      if b0 <? 0x80 then b0 :: utf8_decode r0
      else if in_range 0xC2 0xDF b0 then
        match r0 with
        | [] => [replacement]
        | b1 :: r1 =>
            if is_cont b1
            then (N.land b0 0x1F * 0x40 + N.land b1 0x3F) :: utf8_decode r1
            else replacement :: utf8_decode r0
        end
      else if in_range 0xE0 0xEF b0 then
        match r0 with
        | [] => [replacement]
        | b1 :: r1 =>
            if in_range (if b0 =? 0xE0 then 0xA0 else 0x80)
                        (if b0 =? 0xED then 0x9F else 0xBF) b1
            then
              match r1 with
              | [] => [replacement]
              | b2 :: r2 =>
                  if is_cont b2
                  then ((N.land b0 0x0F * 0x40 + N.land b1 0x3F) * 0x40
                        + N.land b2 0x3F) :: utf8_decode r2
                  else replacement :: utf8_decode r1
              end
            else replacement :: utf8_decode r0
        end
      else if in_range 0xF0 0xF4 b0 then
        match r0 with
        | [] => [replacement]
        | b1 :: r1 =>
            if in_range (if b0 =? 0xF0 then 0x90 else 0x80)
                        (if b0 =? 0xF4 then 0x8F else 0xBF) b1
            then
              match r1 with
              | [] => [replacement]
              | b2 :: r2 =>
                  if is_cont b2 then
                    match r2 with
                    | [] => [replacement]
                    | b3 :: r3 =>
                        if is_cont b3
                        then (((N.land b0 0x07 * 0x40 + N.land b1 0x3F) * 0x40
                               + N.land b2 0x3F) * 0x40 + N.land b3 0x3F)
                               :: utf8_decode r3
                        else replacement :: utf8_decode r2
                    end
                  else replacement :: utf8_decode r1
              end
            else replacement :: utf8_decode r0
        end
      else replacement :: utf8_decode r0
  end.

(** [chunk.toString()] of a Buffer chunk. *)
Definition toString (chunk : bytes) : jsstring :=
  utf8_decode chunk ≫= utf16_of_cp.

(** Decimal digits, as the template literal prints a length and as
    [parseInt(_, 10)] reads them back. *)
Fixpoint uint_units (d : Decimal.uint) : jsstring :=
  match d with
  | Nil => []
  | D0 d => 48 :: uint_units d
  | D1 d => 49 :: uint_units d
  | D2 d => 50 :: uint_units d
  | D3 d => 51 :: uint_units d
  | D4 d => 52 :: uint_units d
  | D5 d => 53 :: uint_units d
  | D6 d => 54 :: uint_units d
  | D7 d => 55 :: uint_units d
  | D8 d => 56 :: uint_units d
  | D9 d => 57 :: uint_units d
  end.

Definition decimal (n : nat) : jsstring := uint_units (Nat.to_uint n).

Definition is_digit (u : N) : bool := in_range 48 57 u.

(** [parseInt(digits, 10)] on a run of decimal digits.  The result is kept
    exact; JavaScript rounds above 2^53, which no frame length reaches. *)
Definition parseInt (ds : jsstring) : nat :=
  foldl (fun acc u => (10 * acc + N.to_nat (u - 48))%nat) 0%nat ds.

Definition header_name : jsstring := lit "Content-Length: ".
Definition crlf2 : jsstring := [13; 10; 13; 10].

(** [sendMessage]: the text handed to [process.stdout.write] for the
    serialized message [content] (the result of [JSON.stringify]). *)
Definition frame (content : jsstring) : jsstring :=
  header_name ++ decimal (byteLength content) ++ crlf2 ++ content.

(** The bytes that reach the peer's stdin. *)
Definition sendMessage (content : jsstring) : bytes :=
  utf8_encode (frame content).

(** The regular expression [/Content-Length: (\d+)\r\n\r\n/]. *)
Fixpoint strip_prefix (p s : jsstring) : option jsstring :=
  match p, s with
  | [], _ => Some s
  | a :: p', b :: s' => if a =? b then strip_prefix p' s' else None
  | _ :: _, [] => None
  end.

Fixpoint span_digits (s : jsstring) : jsstring * jsstring :=
  match s with
  | u :: s' =>
      if is_digit u
      then let '(ds, r) := span_digits s' in (u :: ds, r)
      else ([], s)
  | [] => ([], [])
  end.

(** A match that starts at the first code unit of [s]; the result is the
    capture group.  [\d+] is greedy, and the unit after the digits must be
    a carriage return, so no shorter run of digits can match. *)
Definition match_here (s : jsstring) : option jsstring :=
  match strip_prefix header_name s with
  | None => None
  | Some r =>
      let '(ds, r') := span_digits r in
      match ds with
      | [] => None
      | _ :: _ =>
          match strip_prefix crlf2 r' with
          | Some _ => Some ds
          | None => None
          end
      end
  end.

(** [buffer.match(re)]: the leftmost match; [Some ds] is [match[1]], and
    [match[0].length] is then [header_length ds]. *)
Fixpoint regex_match (s : jsstring) : option jsstring :=
  match match_here s with
  | Some ds => Some ds
  | None =>
      match s with
      | [] => None
      | _ :: s' => regex_match s'
      end
  end.

Definition header_length (ds : jsstring) : nat :=
  (length header_name + length ds + length crlf2)%nat.

(** The module-level variables [buffer] and [contentLength]. *)
Record decoder := Decoder {
  buffer : jsstring;
  contentLength : option nat
}.

Definition initial : decoder := Decoder [] None.

(** The header step of one iteration: [None] is the [break] on a missing
    header.  [substring(match[0].length)] cuts at the front of the buffer,
    wherever the match was found. *)
Definition read_header (buf : jsstring) (cl : option nat)
  : option (jsstring * nat) :=
  match cl with
  | Some n => Some (buf, n)
  | None =>
      match regex_match buf with
      | None => None
      | Some ds => Some (drop (header_length ds) buf, parseInt ds)
      end
  end.

(** The [while (buffer.length > 0)] loop.  The result is the state left
    behind and the messages cut out, in order; [None] only when the fuel
    runs out.  What the loop then does with a message ([JSON.parse] and
    the answer it writes) sits in a [try]/[catch] of its own and touches
    neither [buffer] nor [contentLength]. *)
Fixpoint loop (fuel : nat) (buf : jsstring) (cl : option nat)
  : option (decoder * list jsstring) :=
  match fuel with
  | O => None
  | S fuel' =>
      if (length buf =? 0)%nat then Some (Decoder buf cl, [])
      else
        match read_header buf cl with
        | None => Some (Decoder buf None, [])
        | Some (buf1, n) =>
            if (length buf1 <? n)%nat then Some (Decoder buf1 (Some n), [])
            else
              match loop fuel' (drop n buf1) None with
              | Some (st, out) => Some (st, take n buf1 :: out)
              | None => None
              end
        end
  end.

(** Fuel that always suffices: every iteration after the first removes a
    header from the buffer. *)
Definition run (buf : jsstring) (cl : option nat)
  : option (decoder * list jsstring) :=
  loop (length buf + 2) buf cl.

(** The ['data'] listener. *)
Definition on_data (chunk : bytes) (st : decoder)
  : option (decoder * list jsstring) :=
  run (buffer st ++ toString chunk) (contentLength st).

(** A sequence of ['data'] events. *)
Fixpoint feed (chunks : list bytes) (st : decoder)
  : option (decoder * list jsstring) :=
  match chunks with
  | [] => Some (st, [])
  | c :: cs =>
      match on_data c st with
      | None => None
      | Some (st', out1) =>
          match feed cs st' with
          | None => None
          | Some (st'', out2) => Some (st'', out1 ++ out2)
          end
      end
  end.

Definition ascii (s : list N) : Prop := Forall (fun u => u < 0x80) s.

(** The serialized JSON string ["é"], quotes included. *)
Definition e_acute : jsstring := [34; 233; 34].

(** What the loop does with the next chunk [c] after it stopped in [r]. *)
Definition resume (c : jsstring) (r : option (decoder * list jsstring))
  : option (decoder * list jsstring) :=
  match r with
  | Some (st, out) =>
      match run (buffer st ++ c) (contentLength st) with
      | Some (st', out') => Some (st', out ++ out')
      | None => None
      end
  | None => None
  end.

(** A stream cut into chunks of one byte. *)
Definition bytewise (bs : bytes) : list bytes := (fun b => [b]) <$> bs.

End Framing.

(** ** Runtime pieces shared by the two clients *)

Module Js.

(** The [params] object of a generic call. *)
Record params := Params {
  p_path : option string;
  p_content : option string;
  p_command : option string
}.

(** A message as a client reads it from the array the relay returns; a
    field that is absent ([undefined] in the source) is [None]. *)
Record envelope := Envelope {
  e_type : string;
  e_path : option string;
  e_content : option string;
  e_error : option string;
  e_success : option bool;
  e_command : option string;
  e_output : option string;
  e_from : option string;
  e_messages : option (list (option string * option string));
  e_method : option string;
  e_params : option params;
  e_id : option nat
}.

(** A message that has only its discriminant. *)
Definition bare (type : string) : envelope :=
  Envelope type None None None None None None None None None None None.

(** JavaScript truthiness of an optional string and of an optional
    boolean. *)
Definition truthy (o : option string) : bool :=
  match o with
  | Some s => negb (String.eqb s "")
  | None => false
  end.

Definition truthy_bool (o : option bool) : bool := default false o.

(** A template literal prints an absent value as [undefined]. *)
Definition show (o : option string) : string := default "undefined" o.

(** How one request ends for the [try] block that issues it.  [Throws]:
    the block reaches its [catch] with an error of this message, because
    [fetch] rejects (the relay is unreachable) or because the body is not
    the record the caller reads ([response.json()] or a field access
    throws).  [Status]: a response arrives with its [ok] flag and status
    text, and where the caller reads the body it is the body the relay
    sends on that route; the callers look at [ok] on the liveness route and
    on the POSTs they check, and nowhere else. *)
Inductive reply :=
| Throws (msg : string)
| Status (ok : bool) (statusText : string).

(** An armed [setTimeout] ([period = None]) or [setInterval]. *)
Record timer (A : Type) := Timer {
  handle : nat;
  due : N;
  period : option N;
  act : A
}.
Arguments Timer {A} _ _ _ _.
Arguments handle {A} _.
Arguments due {A} _.
Arguments period {A} _.
Arguments act {A} _.

(** [clearTimeout] / [clearInterval]. *)
Definition clear {A} (h : nat) (ts : list (timer A)) : list (timer A) :=
  filter (fun t => handle t ≠ h) ts.

(** The timer the event loop runs next: the earliest one, the one armed
    first among equals. *)
Fixpoint earliest {A} (ts : list (timer A)) : option (timer A) :=
  match ts with
  | [] => None
  | t :: ts' =>
      match earliest ts' with
      | Some t' => if (due t' <? due t)%N then Some t' else Some t
      | None => Some t
      end
  end.

(** After a timer has run: a timeout is gone, an interval is armed again
    (unless its body cleared it, in which case it is no longer listed). *)
Definition rearm {A} (t : timer A) (ts : list (timer A)) : list (timer A) :=
  match period t with
  | None => clear (handle t) ts
  | Some p =>
      (fun t' => if decide (handle t' = handle t)
                 then Timer (handle t') (due t' + p)%N (period t') (act t')
                 else t') <$> ts
  end.

(** A promise created with [new Promise]. *)
Inductive settled (V : Type) :=
| Pending
| Resolved (v : V)
| Rejected (msg : string).
Arguments Pending {V}.
Arguments Resolved {V} _.
Arguments Rejected {V} _.

(** [resolve] and [reject] act once: a settled promise keeps its state. *)
Definition settle {V} (c : nat) (s : settled V) (calls : list (settled V))
  : list (settled V) :=
  match calls !! c with
  | Some Pending => <[c := s]> calls
  | _ => calls
  end.

(** What the promise of an [async] method is when the method returns. *)
Inductive returned (V : Type) :=
| Threw (msg : string)
| Returned (v : V)
| Awaiting (c : nat).
Arguments Threw {V} _.
Arguments Returned {V} _.
Arguments Awaiting {V} _.

Definition nl : string := String (ascii_of_nat 10) EmptyString.
Definition dq : string := String (ascii_of_nat 34) EmptyString.

(** The text both clients log when the handshake throws. *)
Definition errorMsg (url : string) : string :=
  nl +:+ "ERROR: Cannot connect to Claude-Cline bridge server at " +:+ url
  +:+ nl +:+ nl +:+ "Please ensure the server is running by:"
  +:+ nl +:+ "1. Open a terminal"
  +:+ nl +:+ "2. Navigate to: r:/devR/mcp/Claude-Cline-Bridge"
  +:+ nl +:+ "3. Run: npm start"
  +:+ nl +:+ nl +:+ "Or manually start with: node simplified-bridge.js"
  +:+ nl +:+ "            ".

Definition not_connected : string := "Not connected to bridge server".

End Js.

(** ** The client of the Claude side (claude-mcp-client.js) *)

Module Claude.
Import Js.

(** The callbacks the client hands to [setInterval] and [setTimeout], each
    with the variables its closure captures. *)
Inductive action :=
| PollTick
| Reconnect
| FileTimeout (path : string) (c : nat)
| CommandTimeout (command : string) (c : nat)
| UpdateTimeout (c : nat)
| UpdateCheck (path : string) (c : nat) (timeoutId : nat).

(** What a call resolves with: the file content of [getFile], the record
    [{success: true, message}] of [updateFile], the record
    [{output, success: true}] of [executeCommand], the parsed body of the
    relay's answer for [sendMessage] and [sendFile]. *)
Inductive value :=
| VContent (content : option string)
| VUpdate (message : string)
| VCommand (output : option string)
| VBody.

(** The completion handler [getFile] and [executeCommand] store under the
    correlation key: a closure over [resolve]/[reject] of call [h_call]
    and over its [timeoutId]. *)
Record handler := Handler { h_call : nat; h_timeout : nat }.

Inductive endpoint := GetStatus | GetPing | GetMessages | PostInvoke
                    | PostMessage | PostFile.

(** The body of a POST. *)
Inductive request :=
| Invoke (method : string) (ps : params) (id : N)
| Message (content : string) (type : string)
| File (name content : string).

(** An observer registered with [onMessage] is a function of the host.  It
    is given by its identity, a number, and by how a call of it ends:
    [ob_throws a b] is the message of the error it throws when it is called
    with [a] and [b], if it throws.  Each of its invocations is recorded
    with the two arguments it received. *)
Record observer := Observer {
  ob_id : nat;
  ob_throws : option string → option string → option string
}.

(** An observer that returns from every call. *)
Definition quiet (h : nat) : observer := Observer h (fun _ _ => None).

Definition invocation : Type := nat * option string * option string.

(** The fields of the object, then the process around it (clock, timers,
    promises, console, observer invocations, rejections nobody handles),
    then the relay as this party sees it: how each route answers, the
    uptime it reports, [messages.claude], and the POSTs issued. *)
Record world := World {
  serverUrl : string;
  connected : bool;
  messageHandlers : list observer;
  fileContentHandlers : gmap string handler;
  commandResultHandlers : gmap string handler;
  pollInterval : option nat;
  now : N;
  timers : list (timer action);
  next_handle : nat;
  calls : list (settled value);
  console : list string;
  invoked : list invocation;
  unhandled : list string;
  routes : endpoint → reply;
  uptime : string;
  mailbox : list envelope;
  sent : list (endpoint * request)
}.

Definition set_connected (b : bool) (w : world) : world :=
  World (serverUrl w) b (messageHandlers w) (fileContentHandlers w)
    (commandResultHandlers w) (pollInterval w) (now w) (timers w)
    (next_handle w) (calls w) (console w) (invoked w) (unhandled w)
    (routes w) (uptime w) (mailbox w) (sent w).

Definition set_messageHandlers (hs : list observer) (w : world) : world :=
  World (serverUrl w) (connected w) hs (fileContentHandlers w)
    (commandResultHandlers w) (pollInterval w) (now w) (timers w)
    (next_handle w) (calls w) (console w) (invoked w) (unhandled w)
    (routes w) (uptime w) (mailbox w) (sent w).

Definition set_fileContentHandlers (m : gmap string handler) (w : world)
  : world :=
  World (serverUrl w) (connected w) (messageHandlers w) m
    (commandResultHandlers w) (pollInterval w) (now w) (timers w)
    (next_handle w) (calls w) (console w) (invoked w) (unhandled w)
    (routes w) (uptime w) (mailbox w) (sent w).

Definition set_commandResultHandlers (m : gmap string handler) (w : world)
  : world :=
  World (serverUrl w) (connected w) (messageHandlers w)
    (fileContentHandlers w) m (pollInterval w) (now w) (timers w)
    (next_handle w) (calls w) (console w) (invoked w) (unhandled w)
    (routes w) (uptime w) (mailbox w) (sent w).

Definition set_pollInterval (p : option nat) (w : world) : world :=
  World (serverUrl w) (connected w) (messageHandlers w)
    (fileContentHandlers w) (commandResultHandlers w) p (now w) (timers w)
    (next_handle w) (calls w) (console w) (invoked w) (unhandled w)
    (routes w) (uptime w) (mailbox w) (sent w).

Definition set_now (t : N) (w : world) : world :=
  World (serverUrl w) (connected w) (messageHandlers w)
    (fileContentHandlers w) (commandResultHandlers w) (pollInterval w) t
    (timers w) (next_handle w) (calls w) (console w) (invoked w)
    (unhandled w) (routes w) (uptime w) (mailbox w) (sent w).

Definition set_timers (ts : list (timer action)) (w : world) : world :=
  World (serverUrl w) (connected w) (messageHandlers w)
    (fileContentHandlers w) (commandResultHandlers w) (pollInterval w)
    (now w) ts (next_handle w) (calls w) (console w) (invoked w)
    (unhandled w) (routes w) (uptime w) (mailbox w) (sent w).

Definition set_next_handle (h : nat) (w : world) : world :=
  World (serverUrl w) (connected w) (messageHandlers w)
    (fileContentHandlers w) (commandResultHandlers w) (pollInterval w)
    (now w) (timers w) h (calls w) (console w) (invoked w)
    (unhandled w) (routes w) (uptime w) (mailbox w) (sent w).

Definition set_calls (cs : list (settled value)) (w : world) : world :=
  World (serverUrl w) (connected w) (messageHandlers w)
    (fileContentHandlers w) (commandResultHandlers w) (pollInterval w)
    (now w) (timers w) (next_handle w) cs (console w) (invoked w)
    (unhandled w) (routes w) (uptime w) (mailbox w) (sent w).

Definition set_console (l : list string) (w : world) : world :=
  World (serverUrl w) (connected w) (messageHandlers w)
    (fileContentHandlers w) (commandResultHandlers w) (pollInterval w)
    (now w) (timers w) (next_handle w) (calls w) l (invoked w)
    (unhandled w) (routes w) (uptime w) (mailbox w) (sent w).

Definition set_invoked (l : list invocation) (w : world) : world :=
  World (serverUrl w) (connected w) (messageHandlers w)
    (fileContentHandlers w) (commandResultHandlers w) (pollInterval w)
    (now w) (timers w) (next_handle w) (calls w) (console w) l
    (unhandled w) (routes w) (uptime w) (mailbox w) (sent w).

Definition set_unhandled (l : list string) (w : world) : world :=
  World (serverUrl w) (connected w) (messageHandlers w)
    (fileContentHandlers w) (commandResultHandlers w) (pollInterval w)
    (now w) (timers w) (next_handle w) (calls w) (console w) (invoked w)
    l (routes w) (uptime w) (mailbox w) (sent w).

Definition set_routes (r : endpoint → reply) (w : world) : world :=
  World (serverUrl w) (connected w) (messageHandlers w)
    (fileContentHandlers w) (commandResultHandlers w) (pollInterval w)
    (now w) (timers w) (next_handle w) (calls w) (console w) (invoked w)
    (unhandled w) r (uptime w) (mailbox w) (sent w).

Definition set_mailbox (q : list envelope) (w : world) : world :=
  World (serverUrl w) (connected w) (messageHandlers w)
    (fileContentHandlers w) (commandResultHandlers w) (pollInterval w)
    (now w) (timers w) (next_handle w) (calls w) (console w) (invoked w)
    (unhandled w) (routes w) (uptime w) q (sent w).

Definition set_sent (l : list (endpoint * request)) (w : world) : world :=
  World (serverUrl w) (connected w) (messageHandlers w)
    (fileContentHandlers w) (commandResultHandlers w) (pollInterval w)
    (now w) (timers w) (next_handle w) (calls w) (console w) (invoked w)
    (unhandled w) (routes w) (uptime w) (mailbox w) l.

(** [console.log] and [console.error]: the file redirects the former to
    the latter, so there is one stream. *)
Definition log (s : string) (w : world) : world :=
  set_console (console w ++ [s]) w.

(** [setTimeout(f, delay)] and [setInterval(f, delay)]; the handle is the
    first component. *)
Definition arm (delay : N) (p : option N) (a : action) (w : world)
  : nat * world :=
  let h := next_handle w in
  (h, set_next_handle (S h)
        (set_timers (timers w ++ [Timer h (now w + delay)%N p a]) w)).

Definition setTimeout (a : action) (delay : N) (w : world) : nat * world :=
  arm delay None a w.

Definition setInterval (a : action) (delay : N) (w : world) : nat * world :=
  arm delay (Some delay) a w.

Definition clearTimer (h : nat) (w : world) : world :=
  set_timers (clear h (timers w)) w.

(** [new Promise(...)]: the number of the promise created. *)
Definition newPromise (w : world) : nat * world :=
  (length (calls w), set_calls (calls w ++ [Pending]) w).

Definition resolve (c : nat) (v : value) (w : world) : world :=
  set_calls (settle c (Resolved v) (calls w)) w.

Definition reject (c : nat) (msg : string) (w : world) : world :=
  set_calls (settle c (Rejected msg) (calls w)) w.

(** A POST leaves the process whatever the answer will be. *)
Definition post (e : endpoint) (r : request) (w : world) : world :=
  set_sent (sent w ++ [(e, r)]) w.

(** [GET /claude/messages]: the relay answers with the whole queue and
    empties it. *)
Definition drain (w : world) : list envelope * world :=
  (mailbox w, set_mailbox [] w).

(** [GET /ping?client=claude]: [hasUpdates] is [count > 0]. *)
Definition hasUpdates (w : world) : bool := negb (length (mailbox w) =? 0).

Definition pollIntervalTime : N := 2000.

(** [startPolling]: only arms the interval; its body is [poll_tick]. *)
Definition startPolling (w : world) : world :=
  let w := log ("Starting polling for messages at " +:+ serverUrl w) w in
  let w := match pollInterval w with
           | Some h => clearTimer h w
           | None => w
           end in
  let '(h, w) := setInterval PollTick pollIntervalTime w in
  set_pollInterval (Some h) w.

(** [connectToServer]: the second component is the rejection of the
    promise it returns, if it rejects. *)
Definition connectToServer (w : world) : world * option string :=
  let w := log ("Connecting to bridge server at " +:+ serverUrl w +:+ "...") w in
  match routes w GetStatus with
  | Status true _ =>
      let w := log ("Connected to server with uptime " +:+ uptime w
                    +:+ " seconds") w in
      let w := startPolling w in
      (set_connected true w, None)
  | Status false _ => (w, None)
  | Throws msg =>
      let w := log (errorMsg (serverUrl w)) w in
      (w, Some ("Bridge server not available: " +:+ msg))
  end.

(** Both call sites, the constructor and the reconnect timer, drop the
    promise of [connectToServer]: a rejection has no handler. *)
Definition connect_unobserved (w : world) : world :=
  let '(w, r) := connectToServer w in
  match r with
  | Some msg => set_unhandled (unhandled w ++ [msg]) w
  | None => w
  end.

(** The object as the constructor body leaves it before the probe is
    answered, in a process whose relay answers by [r]. *)
Definition fresh (url : string) (r : endpoint → reply) (up : string)
    (q : list envelope) : world :=
  World url false [] ∅ ∅ None 0 [] 0 [] [] [] [] r up q [].

(** [new ClaudeMCPClient(url)], the probe included. *)
Definition constructor (url : string) (r : endpoint → reply) (up : string)
    (q : list envelope) : world :=
  connect_unobserved (fresh url r up q).

(** One body of a [switch] or loop either completes or throws. *)
Inductive completion :=
| Normal (w : world)
| Abrupt (msg : string) (w : world).

(** [handlers.forEach(handler => handler(a, b))]: the observers are called
    in turn; an error that one of them throws ends the loop and leaves
    it. *)
Fixpoint forEach (hs : list observer) (a b : option string) (w : world)
  : completion :=
  match hs with
  | [] => Normal w
  | h :: hs' =>
      let w := set_invoked (invoked w ++ [(ob_id h, a, b)]) w in
      match ob_throws h a b with
      | Some msg => Abrupt msg w
      | None => forEach hs' a b w
      end
  end.

(** [this.messageHandlers.forEach(handler => handler(a, b))]. *)
Definition notify (a b : option string) (w : world) : completion :=
  forEach (messageHandlers w) a b w.

(** [message.messages.forEach(msg => ...)] of the [messages] case. *)
Fixpoint notifyEach (batch : list (option string * option string))
    (w : world) : completion :=
  match batch with
  | [] => Normal w
  | msg :: batch' =>
      match notify (fst msg) (snd msg) w with
      | Normal w' => notifyEach batch' w'
      | Abrupt e w' => Abrupt e w'
      end
  end.

(** The handler stored by [getFile], applied to [(content, error)]. *)
Definition fileHandler (h : handler) (content error : option string)
    (w : world) : world :=
  let w := clearTimer (h_timeout h) w in
  if truthy error then reject (h_call h) (show error) w
  else resolve (h_call h) (VContent content) w.

(** The handler stored by [executeCommand], applied to
    [(output, error, success)]; [success || true] is [true]. *)
Definition cmdHandler (h : handler) (output error : option string)
    (w : world) : world :=
  let w := clearTimer (h_timeout h) w in
  if truthy error then reject (h_call h) (show error) w
  else resolve (h_call h) (VCommand output) w.

Definition lookup_key (k : option string) (m : gmap string handler)
  : option handler :=
  match k with
  | Some p => m !! p
  | None => None
  end.

Definition delete_key (k : option string) (m : gmap string handler)
  : gmap string handler :=
  match k with
  | Some p => delete p m
  | None => m
  end.

(** [handleMessage]: the [switch] on [message.type]. *)
Definition handleMessage (m : envelope) (w : world) : completion :=
  if String.eqb (e_type m) "fileContent" then
    match lookup_key (e_path m) (fileContentHandlers w) with
    | Some h =>
        let w := fileHandler h (e_content m) (e_error m) w in
        Normal (set_fileContentHandlers
                  (delete_key (e_path m) (fileContentHandlers w)) w)
    | None => Normal w
    end
  else if String.eqb (e_type m) "updateCodeResult" then
    let w := log ("File update "
                  +:+ (if truthy_bool (e_success m) then "succeeded"
                       else "failed")
                  +:+ ": " +:+ show (e_path m)) w in
    Normal (if truthy (e_error m)
            then log ("Update error: " +:+ show (e_error m)) w
            else w)
  else if String.eqb (e_type m) "fileChanged" then
    let w := log ("File changed externally: " +:+ show (e_path m)) w in
    notify (Some ("File changed: " +:+ show (e_path m))) (Some "system") w
  else if String.eqb (e_type m) "commandResult" then
    match lookup_key (e_command m) (commandResultHandlers w) with
    | Some h =>
        let w := cmdHandler h (e_output m) (e_error m) w in
        Normal (set_commandResultHandlers
                  (delete_key (e_command m) (commandResultHandlers w)) w)
    | None => Normal w
    end
  else if String.eqb (e_type m) "message" then
    notify (e_content m) (e_from m) w
  else if String.eqb (e_type m) "messages" then
    match e_messages m with
    | Some batch => notifyEach batch w
    | None =>
        Abrupt "Cannot read properties of undefined (reading 'forEach')" w
    end
  else Normal w.

(** The state a body leaves behind, however it ends. *)
Definition after (k : completion) : world :=
  match k with
  | Normal w => w
  | Abrupt _ w => w
  end.

(** [messages.forEach(message => this.handleMessage(message))]. *)
Fixpoint handleAll (ms : list envelope) (w : world) : completion :=
  match ms with
  | [] => Normal w
  | m :: ms' =>
      match handleMessage m w with
      | Normal w' => handleAll ms' w'
      | Abrupt msg w' => Abrupt msg w'
      end
  end.

Definition reconnectDelay : N := 5000.

(** The [catch] of the poll tick. *)
Definition poll_failed (msg : string) (w : world) : world :=
  let w := log ("Error polling for messages: " +:+ msg) w in
  if connected w then
    let w := set_connected false w in
    let w := log "Lost connection to server. Will retry..." w in
    snd (setTimeout Reconnect reconnectDelay w)
  else w.

(** The body of the interval armed by [startPolling]. *)
Definition poll_tick (w : world) : world :=
  match routes w GetPing with
  | Throws msg => poll_failed msg w
  | Status _ _ =>
      if hasUpdates w then
        match routes w GetMessages with
        | Throws msg => poll_failed msg w
        | Status _ _ =>
            let '(messages, w) := drain w in
            if negb (length messages =? 0) then
              let w := log ("Received " +:+ pretty (length messages)
                            +:+ " messages from Cline") w in
              match handleAll messages w with
              | Normal w => w
              | Abrupt msg w => poll_failed msg w
              end
            else w
        end
      else w
  end.

(** [cleanup]. *)
Definition cleanup (w : world) : world :=
  let w := set_connected false w in
  let w := match pollInterval w with
           | Some h => set_pollInterval None (clearTimer h w)
           | None => w
           end in
  log "Client disconnected from bridge server" w.

Definition fileTimeoutTime : N := 30000.
Definition commandTimeoutTime : N := 60000.
Definition checkIntervalTime : N := 1000.

(** The part the three correlated calls share: the guard, the POST to
    [/mcp/invoke], the [catch] that logs and throws again.  [register]
    is the body of the [new Promise] executor. *)
Definition invoke (method : string) (ps : params) (what failed : string)
    (register : nat → world → world) (w : world) : world * returned value :=
  if negb (connected w) then (w, Threw not_connected)
  else
    let w := post PostInvoke (Invoke method ps (now w)) w in
    match routes w PostInvoke with
    | Throws msg =>
        (log (what +:+ " Error: " +:+ msg) w, Threw msg)
    | Status false statusText =>
        let msg := failed +:+ statusText in
        (log (what +:+ " Error: " +:+ msg) w, Threw msg)
    | Status true _ =>
        let '(c, w) := newPromise w in
        (register c w, Awaiting c)
    end.

(** [getFile(path)]. *)
Definition getFile (path : string) (w : world) : world * returned value :=
  invoke "getFile" (Params (Some path) None None)
    ("Error getting file " +:+ path +:+ ":") "Failed to request file: "
    (fun c w =>
       let '(timeoutId, w) := setTimeout (FileTimeout path c) fileTimeoutTime w in
       set_fileContentHandlers
         (<[path := Handler c timeoutId]> (fileContentHandlers w)) w)
    w.

(** [updateFile(path, content)]. *)
Definition updateFile (path content : string) (w : world)
  : world * returned value :=
  invoke "updateFile" (Params (Some path) (Some content) None)
    ("Error updating file " +:+ path +:+ ":") "Failed to update file: "
    (fun c w =>
       let '(timeoutId, w) := setTimeout (UpdateTimeout c) fileTimeoutTime w in
       snd (setInterval (UpdateCheck path c timeoutId) checkIntervalTime w))
    w.

(** [executeCommand(command)]. *)
Definition executeCommand (command : string) (w : world)
  : world * returned value :=
  invoke "executeCommand" (Params None None (Some command))
    ("Error executing command " +:+ dq +:+ command +:+ dq +:+ ":")
    "Failed to execute command: "
    (fun c w =>
       let '(timeoutId, w) :=
         setTimeout (CommandTimeout command c) commandTimeoutTime w in
       set_commandResultHandlers
         (<[command := Handler c timeoutId]> (commandResultHandlers w)) w)
    w.

(** The part [sendMessage] and [sendFile] share. *)
Definition send (e : endpoint) (r : request) (what failed : string)
    (w : world) : world * returned value :=
  if negb (connected w) then (w, Threw not_connected)
  else
    let w := post e r w in
    match routes w e with
    | Throws msg => (log (what +:+ " Error: " +:+ msg) w, Threw msg)
    | Status false statusText =>
        let msg := failed +:+ statusText in
        (log (what +:+ " Error: " +:+ msg) w, Threw msg)
    | Status true _ => (w, Returned VBody)
    end.

(** [sendMessage(content)]. *)
Definition sendMessage (content : string) (w : world)
  : world * returned value :=
  send PostMessage (Message content "text") "Error sending message:"
    "Failed to send message: " w.

(** [sendFile(name, content)]. *)
Definition sendFile (name content : string) (w : world)
  : world * returned value :=
  send PostFile (File name content) "Error sending file:"
    "Failed to send file: " w.

(** [onMessage(handler)] and the function it returns, which removes every
    entry that is this very function. *)
Definition onMessage (h : observer) (w : world) : world :=
  set_messageHandlers (messageHandlers w ++ [h]) w.

Definition unsubscribe (h : nat) (w : world) : world :=
  set_messageHandlers (filter (fun h' => ob_id h' ≠ h) (messageHandlers w)) w.

(** The timeout armed by [getFile]. *)
Definition fileTimeout (path : string) (c : nat) (w : world) : world :=
  let w := set_fileContentHandlers (delete path (fileContentHandlers w)) w in
  reject c "Timeout waiting for file content" w.

(** The timeout armed by [executeCommand]. *)
Definition commandTimeout (command : string) (c : nat) (w : world) : world :=
  let w := set_commandResultHandlers
             (delete command (commandResultHandlers w)) w in
  reject c "Timeout waiting for command result" w.

(** The timeout armed by [updateFile]; it leaves the check interval
    armed. *)
Definition updateTimeout (c : nat) (w : world) : world :=
  reject c "Timeout waiting for file update confirmation" w.

(** The test of the [for ... of] loop in the check interval. *)
Definition is_update_result (path : string) (m : envelope) : bool :=
  String.eqb (e_type m) "updateCodeResult"
  && bool_decide (e_path m = Some path).

(** The body of the interval armed by [updateFile]; [self] is its own
    handle, [checkInterval] in the source.  The loop stops at the first
    message that passes the test; every other message of the array is
    only read. *)
Definition update_check (self : nat) (path : string) (c timeoutId : nat)
    (w : world) : world :=
  match routes w GetPing with
  | Throws msg => log ("Error checking update result: " +:+ msg) w
  | Status _ _ =>
      if hasUpdates w then
        match routes w GetMessages with
        | Throws msg => log ("Error checking update result: " +:+ msg) w
        | Status _ _ =>
            let '(messages, w) := drain w in
            match List.find (is_update_result path) messages with
            | Some m =>
                let w := clearTimer self w in
                let w := clearTimer timeoutId w in
                if negb (truthy_bool (e_success m)) then
                  reject c (if truthy (e_error m) then show (e_error m)
                            else "Failed to update file") w
                else
                  resolve c (VUpdate ("File " +:+ path
                                      +:+ " updated successfully")) w
            | None => w
            end
        end
      else w
  end.

(** The body of a timer. *)
Definition body (t : timer action) (w : world) : world :=
  match act t with
  | PollTick => poll_tick w
  | Reconnect => connect_unobserved w
  | FileTimeout path c => fileTimeout path c w
  | CommandTimeout command c => commandTimeout command c w
  | UpdateTimeout c => updateTimeout c w
  | UpdateCheck path c timeoutId => update_check (handle t) path c timeoutId w
  end.

(** The event loop runs timer [t]: the clock reaches its due time, the
    body runs, the timer is dropped or armed again. *)
Definition fire (t : timer action) (w : world) : world :=
  let w := set_now (N.max (now w) (due t)) w in
  let w := body t w in
  set_timers (rearm t (timers w)) w.

(** What can happen to the client: a pending timer fires; the peer's
    message reaches the mailbox; the relay starts answering differently;
    the host calls a method. *)
Inductive event :=
| EvTimer (h : nat)
| EvEnqueue (m : envelope)
| EvRoutes (r : endpoint → reply)
| EvGetFile (path : string)
| EvUpdateFile (path content : string)
| EvExecuteCommand (command : string)
| EvSendMessage (content : string)
| EvSendFile (name content : string)
| EvOnMessage (h : observer)
| EvUnsubscribe (h : nat)
| EvCleanup.

Definition exec (ev : event) (w : world) : world :=
  match ev with
  | EvTimer h =>
      match List.find (fun t => bool_decide (handle t = h)) (timers w) with
      | Some t => fire t w
      | None => w
      end
  | EvEnqueue m => set_mailbox (mailbox w ++ [m]) w
  | EvRoutes r => set_routes r w
  | EvGetFile path => fst (getFile path w)
  | EvUpdateFile path content => fst (updateFile path content w)
  | EvExecuteCommand command => fst (executeCommand command w)
  | EvSendMessage content => fst (sendMessage content w)
  | EvSendFile name content => fst (sendFile name content w)
  | EvOnMessage h => onMessage h w
  | EvUnsubscribe h => unsubscribe h w
  | EvCleanup => cleanup w
  end.

Definition execs (evs : list event) (w : world) : world :=
  foldl (fun w ev => exec ev w) w evs.

(** The event loop left alone until the clock shows [t]: the timers due
    by then run in order of their due times.  [None] only when the fuel
    runs out. *)
Fixpoint run_until (fuel : nat) (t : N) (w : world) : option world :=
  match fuel with
  | O => None
  | S fuel' =>
      match earliest (timers w) with
      | Some tm =>
          if (due tm <=? t)%N then run_until fuel' t (fire tm w)
          else Some (set_now (N.max (now w) t) w)
      | None => Some (set_now (N.max (now w) t) w)
      end
  end.

(** A relay whose routes all answer. *)
Definition all_ok : endpoint → reply := fun _ => Status true "OK".

(** The routes of [claude-cline-bridge.js]: it has no [/mcp/invoke] and no
    [/claude/file]. *)
Definition bridge_routes : endpoint → reply :=
  fun e => match e with
           | PostInvoke | PostFile => Status false "Not Found"
           | _ => Status true "OK"
           end.

(** A relay that cannot be reached. *)
Definition unreachable : endpoint → reply :=
  fun _ => Throws "request to http://localhost:2612 failed, reason: connect ECONNREFUSED".

(** A relay whose liveness route answers with an error status. *)
Definition status_500 : endpoint → reply :=
  fun e => match e with
           | GetStatus => Status false "Internal Server Error"
           | _ => Status true "OK"
           end.

(** The reply the Cline side posts after a successful write. *)
Definition update_ok (path : string) : envelope :=
  Envelope "updateCodeResult" (Some path) None None (Some true) None None
    None None None None None.

(** The call whose promise the closure of a timer can settle. *)
Definition refers (a : action) (c : nat) : Prop :=
  match a with
  | FileTimeout _ c' => c' = c
  | CommandTimeout _ c' => c' = c
  | UpdateTimeout c' => c' = c
  | UpdateCheck _ c' _ => c' = c
  | PollTick | Reconnect => False
  end.

(** Every closure names a promise that exists, every armed timer a handle
    already given out. *)
Definition closed (w : world) : Prop :=
  (∀ k h, fileContentHandlers w !! k = Some h → h_call h < length (calls w))
  ∧ (∀ k h, commandResultHandlers w !! k = Some h →
            h_call h < length (calls w))
  ∧ (∀ tm, tm ∈ timers w →
           handle tm < next_handle w
           ∧ ∀ c, refers (act tm) c → c < length (calls w)).

(** Call [c] is pending, no stored handler can settle it, and the only
    timers that can are those with handle [t]. *)
Definition orphan (c t : nat) (w : world) : Prop :=
  calls w !! c = Some Pending
  ∧ (∀ k h, fileContentHandlers w !! k = Some h → h_call h ≠ c)
  ∧ (∀ k h, commandResultHandlers w !! k = Some h → h_call h ≠ c)
  ∧ (∀ tm, tm ∈ timers w → refers (act tm) c → handle tm = t).

(** Call [c] exists, a stored handler can settle it only under the key
    [fk] of the file table or [ck] of the command table, and the only
    timers that can are those with handle [t]. *)
Definition held (c t : nat) (fk ck : option string) (w : world) : Prop :=
  c < length (calls w)
  ∧ (∀ k h, fileContentHandlers w !! k = Some h → h_call h = c → fk = Some k)
  ∧ (∀ k h, commandResultHandlers w !! k = Some h → h_call h = c →
            ck = Some k)
  ∧ (∀ tm, tm ∈ timers w → refers (act tm) c → handle tm = t).

Definition localhost : string := "http://localhost:2612".

(** A client that connected at time 0 to a relay whose routes all answer. *)
Definition connected_client : world := constructor localhost all_ok "1.00" [].

(** The client calls [updateFile("a.txt", "hello")] 500 ms after it
    connected; the peer's [updateCodeResult] for [a.txt] with
    [success: true] reaches the mailbox at time [arrival]; the event loop
    then runs until 31 s. *)
Definition race (arrival : N) : option world :=
  w1 ← run_until 100 500 connected_client;
  w2 ← run_until 100 arrival (fst (updateFile "a.txt" "hello" w1));
  run_until 200 31000 (exec (EvEnqueue (update_ok "a.txt")) w2).

(** A [fileChanged] notification, a chat message as [sendMessage] posts
    it, and a file reply. *)
Definition changed_a : envelope :=
  Envelope "fileChanged" (Some "a.txt") (Some "hello") None None None None
    None None None None None.

Definition text_hi : envelope :=
  Envelope "text" None (Some "hi") None None None None None None None None
    None.

Definition content_b : envelope :=
  Envelope "fileContent" (Some "b.txt") (Some "data") None None None None
    None None None None None.

(** A connected client with observer 7, with [getFile("b.txt")] and
    [updateFile("a.txt", "hello")] in flight, and with the reply for
    [b.txt] and a notification waiting in its mailbox. *)
Definition busy : world :=
  execs [EvOnMessage (quiet 7); EvGetFile "b.txt";
         EvUpdateFile "a.txt" "hello";
         EvEnqueue content_b; EvEnqueue changed_a] connected_client.

(** The chat message [hi] under the label the dispatchers know. *)
Definition message_hi : envelope :=
  Envelope "message" None (Some "hi") None None None None (Some "cline")
    None None None None.

(** A client with observer 7 connects at time 0, the envelope [m] reaches
    its mailbox at 500 ms, and the event loop runs until 2.5 s, the poll
    tick of 2 s included. *)
Definition delivered (m : envelope) : option world :=
  w1 ← run_until 100 500 (onMessage (quiet 7) connected_client);
  run_until 100 2500 (exec (EvEnqueue m) w1).

End Claude.

(** ** The client of the Cline side (cline-mcp-client.js) *)

Module Cline.
Import Js.

Definition BRIDGE_SERVER_URL : string := "http://localhost:2612".
Definition POLL_INTERVAL : N := 2000.

Inductive action := PollTick | Reconnect.

(** How a call of a collaborator of [this.context] ends: with its result,
    or with an [Error] carrying a message. *)
Inductive outcome (A : Type) :=
| Done (a : A)
| Failed (msg : string).
Arguments Done {A} _.
Arguments Failed {A} _.

(** The collaborators the host passes to the constructor.  The file system
    and the processes they act on are outside the model: each is given by
    how it ends on each argument. *)
Record context := Context {
  readFile : option string → outcome string;
  writeFile : option string → option string → outcome ();
  executeCommand : option string → outcome string
}.

Inductive endpoint := GetStatus | GetPing | GetMessages | PostMessage
                    | PostFile | PostResponse.

(** The [result] or [error] member of a body posted to [/mcp/response]. *)
Inductive rpc :=
| RpcResult (content output : option string) (success : option bool)
| RpcError (code : Z) (message : string).

(** The body of a POST. *)
Inductive request :=
| Message (m : envelope)
| File (name content : string)
| Response (id : option nat) (r : rpc).

Inductive value := VBody | VUndefined.

Record world := World {
  ctx : context;
  connected : bool;
  pollInterval : option nat;
  now : N;
  timers : list (timer action);
  next_handle : nat;
  logged : list string;
  unhandled : list string;
  routes : endpoint → reply;
  uptime : string;
  mailbox : list envelope;
  sent : list (endpoint * request)
}.

Definition set_connected (b : bool) (w : world) : world :=
  World (ctx w) b (pollInterval w) (now w) (timers w) (next_handle w)
    (logged w) (unhandled w) (routes w) (uptime w) (mailbox w) (sent w).

Definition set_pollInterval (p : option nat) (w : world) : world :=
  World (ctx w) (connected w) p (now w) (timers w) (next_handle w)
    (logged w) (unhandled w) (routes w) (uptime w) (mailbox w) (sent w).

Definition set_now (t : N) (w : world) : world :=
  World (ctx w) (connected w) (pollInterval w) t (timers w) (next_handle w)
    (logged w) (unhandled w) (routes w) (uptime w) (mailbox w) (sent w).

Definition set_timers (ts : list (timer action)) (w : world) : world :=
  World (ctx w) (connected w) (pollInterval w) (now w) ts (next_handle w)
    (logged w) (unhandled w) (routes w) (uptime w) (mailbox w) (sent w).

Definition set_next_handle (h : nat) (w : world) : world :=
  World (ctx w) (connected w) (pollInterval w) (now w) (timers w) h
    (logged w) (unhandled w) (routes w) (uptime w) (mailbox w) (sent w).

Definition set_logged (l : list string) (w : world) : world :=
  World (ctx w) (connected w) (pollInterval w) (now w) (timers w)
    (next_handle w) l (unhandled w) (routes w) (uptime w) (mailbox w)
    (sent w).

Definition set_unhandled (l : list string) (w : world) : world :=
  World (ctx w) (connected w) (pollInterval w) (now w) (timers w)
    (next_handle w) (logged w) l (routes w) (uptime w) (mailbox w) (sent w).

Definition set_routes (r : endpoint → reply) (w : world) : world :=
  World (ctx w) (connected w) (pollInterval w) (now w) (timers w)
    (next_handle w) (logged w) (unhandled w) r (uptime w) (mailbox w)
    (sent w).

Definition set_mailbox (q : list envelope) (w : world) : world :=
  World (ctx w) (connected w) (pollInterval w) (now w) (timers w)
    (next_handle w) (logged w) (unhandled w) (routes w) (uptime w) q
    (sent w).

Definition set_sent (l : list (endpoint * request)) (w : world) : world :=
  World (ctx w) (connected w) (pollInterval w) (now w) (timers w)
    (next_handle w) (logged w) (unhandled w) (routes w) (uptime w)
    (mailbox w) l.

(** [this.context.log]. *)
Definition log (s : string) (w : world) : world :=
  set_logged (logged w ++ [s]) w.

Definition arm (delay : N) (p : option N) (a : action) (w : world)
  : nat * world :=
  let h := next_handle w in
  (h, set_next_handle (S h)
        (set_timers (timers w ++ [Timer h (now w + delay)%N p a]) w)).

Definition setTimeout (a : action) (delay : N) (w : world) : nat * world :=
  arm delay None a w.

Definition setInterval (a : action) (delay : N) (w : world) : nat * world :=
  arm delay (Some delay) a w.

Definition clearTimer (h : nat) (w : world) : world :=
  set_timers (clear h (timers w)) w.

Inductive completion :=
| Normal (w : world)
| Abrupt (msg : string) (w : world).

(** [await fetch(url, {method: 'POST', ...})] where the response is not
    looked at: it throws only when the fetch itself does. *)
Definition post (e : endpoint) (r : request) (w : world) : completion :=
  let w := set_sent (sent w ++ [(e, r)]) w in
  match routes w e with
  | Throws msg => Abrupt msg w
  | Status _ _ => Normal w
  end.

Definition drain (w : world) : list envelope * world :=
  (mailbox w, set_mailbox [] w).

Definition hasUpdates (w : world) : bool := negb (length (mailbox w) =? 0).

(** [startPolling]. *)
Definition startPolling (w : world) : world :=
  let w := log ("Starting polling for messages at " +:+ BRIDGE_SERVER_URL) w in
  let w := match pollInterval w with
           | Some h => clearTimer h w
           | None => w
           end in
  let '(h, w) := setInterval PollTick POLL_INTERVAL w in
  set_pollInterval (Some h) w.

(** [connectToServer]; the second component is the rejection of its
    promise, if it rejects. *)
Definition connectToServer (w : world) : world * option string :=
  let w := log ("Connecting to bridge server at " +:+ BRIDGE_SERVER_URL
                +:+ "...") w in
  match routes w GetStatus with
  | Status true _ =>
      let w := log ("Connected to server with uptime " +:+ uptime w
                    +:+ " seconds") w in
      let w := startPolling w in
      (set_connected true w, None)
  | Status false _ => (w, None)
  | Throws msg =>
      let w := log (errorMsg BRIDGE_SERVER_URL) w in
      (w, Some ("Bridge server not available: " +:+ msg))
  end.

(** The constructor and the reconnect timer drop the promise. *)
Definition connect_unobserved (w : world) : world :=
  let '(w, r) := connectToServer w in
  match r with
  | Some msg => set_unhandled (unhandled w ++ [msg]) w
  | None => w
  end.

Definition fresh (c : context) (r : endpoint → reply) (up : string)
    (q : list envelope) : world :=
  World c false None 0 [] 0 [] [] r up q [].

(** [new ClaudeBridgeTool(context)], the probe included. *)
Definition constructor (c : context) (r : endpoint → reply) (up : string)
    (q : list envelope) : world :=
  connect_unobserved (fresh c r up q).

(** The reply bodies of the three request handlers. *)
Definition fileContent (path content error : option string) : envelope :=
  Envelope "fileContent" path content error None None None None None None
    None None.

Definition updateCodeResult (path : option string) (success : bool)
    (error : option string) : envelope :=
  Envelope "updateCodeResult" path None error (Some success) None None None
    None None None None.

Definition commandResult (command output : option string) (success : bool)
    (error : option string) : envelope :=
  Envelope "commandResult" None None error (Some success) command output
    None None None None None.

(** [try { ... } catch (error) { ... }]. *)
Definition try_catch (body : completion) (handler : string → world → completion)
  : completion :=
  match body with
  | Normal w => Normal w
  | Abrupt msg w => handler msg w
  end.

(** [handleFileRequest]. *)
Definition handleFileRequest (m : envelope) (w : world) : completion :=
  try_catch
    (match readFile (ctx w) (e_path m) with
     | Done content =>
         post PostMessage
           (Message (fileContent (e_path m) (Some content) None)) w
     | Failed msg => Abrupt msg w
     end)
    (fun msg w =>
       post PostMessage (Message (fileContent (e_path m) None (Some msg))) w).

(** [handleUpdateCode]. *)
Definition handleUpdateCode (m : envelope) (w : world) : completion :=
  try_catch
    (match writeFile (ctx w) (e_path m) (e_content m) with
     | Done _ =>
         post PostMessage (Message (updateCodeResult (e_path m) true None)) w
     | Failed msg => Abrupt msg w
     end)
    (fun msg w =>
       post PostMessage
         (Message (updateCodeResult (e_path m) false (Some msg))) w).

(** [handleExecuteCommand]. *)
Definition handleExecuteCommand (m : envelope) (w : world) : completion :=
  try_catch
    (match executeCommand (ctx w) (e_command m) with
     | Done output =>
         post PostMessage
           (Message (commandResult (e_command m) (Some output) true None)) w
     | Failed msg => Abrupt msg w
     end)
    (fun msg w =>
       post PostMessage
         (Message (commandResult (e_command m) None false (Some msg))) w).

(** The [switch] of [handleMcpInvoke]: the [result], or the message of
    what was thrown. *)
Definition mcp_result (m : envelope) (w : world) : outcome rpc :=
  if String.eqb (show (e_method m)) "getFile" then
    match e_params m with
    | None => Failed "Cannot read properties of undefined (reading 'path')"
    | Some ps =>
        match readFile (ctx w) (p_path ps) with
        | Done content => Done (RpcResult (Some content) None None)
        | Failed msg => Failed msg
        end
    end
  else if String.eqb (show (e_method m)) "updateFile" then
    match e_params m with
    | None => Failed "Cannot read properties of undefined (reading 'path')"
    | Some ps =>
        match writeFile (ctx w) (p_path ps) (p_content ps) with
        | Done _ => Done (RpcResult None None (Some true))
        | Failed msg => Failed msg
        end
    end
  else if String.eqb (show (e_method m)) "executeCommand" then
    match e_params m with
    | None => Failed "Cannot read properties of undefined (reading 'command')"
    | Some ps =>
        match executeCommand (ctx w) (p_command ps) with
        | Done output => Done (RpcResult None (Some output) (Some true))
        | Failed msg => Failed msg
        end
    end
  else Failed ("Unknown MCP method: " +:+ show (e_method m)).

(** [handleMcpInvoke]. *)
Definition handleMcpInvoke (m : envelope) (w : world) : completion :=
  try_catch
    (match mcp_result m w with
     | Done result => post PostResponse (Response (e_id m) result) w
     | Failed msg => Abrupt msg w
     end)
    (fun msg w =>
       post PostResponse (Response (e_id m) (RpcError (-32000) msg)) w).

(** [handleMessage]: its own [try]/[catch] ends every path normally. *)
Definition handleMessage (m : envelope) (w : world) : world :=
  let w := log ("Processing message of type: " +:+ e_type m) w in
  match
    (if String.eqb (e_type m) "fileRequest" then handleFileRequest m w
     else if String.eqb (e_type m) "updateCode" then handleUpdateCode m w
     else if String.eqb (e_type m) "executeCommand"
          then handleExecuteCommand m w
     else if String.eqb (e_type m) "message"
          then Normal (log ("Claude: " +:+ show (e_content m)) w)
     else if String.eqb (e_type m) "mcp_invoke" then handleMcpInvoke m w
     else Normal w)
  with
  | Normal w => w
  | Abrupt msg w => log ("Error handling message: " +:+ msg) w
  end.

Definition reconnectDelay : N := 5000.

(** The [catch] of the poll tick. *)
Definition poll_failed (msg : string) (w : world) : world :=
  let w := log ("Error polling for messages: " +:+ msg) w in
  if connected w then
    let w := set_connected false w in
    let w := log "Lost connection to server. Will retry..." w in
    snd (setTimeout Reconnect reconnectDelay w)
  else w.

(** The body of the interval armed by [startPolling]. *)
Definition poll_tick (w : world) : world :=
  match routes w GetPing with
  | Throws msg => poll_failed msg w
  | Status _ _ =>
      if hasUpdates w then
        match routes w GetMessages with
        | Throws msg => poll_failed msg w
        | Status _ _ =>
            let '(messages, w) := drain w in
            if negb (length messages =? 0) then
              let w := log ("Received " +:+ pretty (length messages)
                            +:+ " messages from Claude") w in
              foldl (fun w m => handleMessage m w) w messages
            else w
        end
      else w
  end.

(** The part [sendMessage] and [sendFile] share. *)
Definition send (e : endpoint) (r : request) (what failed : string)
    (w : world) : world * returned value :=
  if negb (connected w) then (w, Threw not_connected)
  else
    let w := set_sent (sent w ++ [(e, r)]) w in
    match routes w e with
    | Throws msg => (log (what +:+ msg) w, Threw msg)
    | Status false statusText =>
        let msg := failed +:+ statusText in
        (log (what +:+ msg) w, Threw msg)
    | Status true _ => (w, Returned VBody)
    end.

(** [sendMessage(content)]. *)
Definition sendMessage (content : string) (w : world)
  : world * returned value :=
  send PostMessage
    (Message (Envelope "text" None (Some content) None None None None None
                None None None None))
    "Error sending message: " "Failed to send message: " w.

(** [sendFile(name, content)]. *)
Definition sendFile (name content : string) (w : world)
  : world * returned value :=
  send PostFile (File name content) "Error sending file: "
    "Failed to send file: " w.

(** [notifyFileChanged(path, content)]. *)
Definition notifyFileChanged (path content : string) (w : world)
  : world * returned value :=
  if negb (connected w) then (w, Returned VUndefined)
  else
    match post PostMessage
            (Message (Envelope "fileChanged" (Some path) (Some content) None
                        None None None None None None None None)) w with
    | Normal w => (w, Returned VUndefined)
    | Abrupt msg w =>
        (log ("Error notifying file change: " +:+ msg) w, Returned VUndefined)
    end.

(** [cleanup]. *)
Definition cleanup (w : world) : world :=
  let w := match pollInterval w with
           | Some h => set_pollInterval None (clearTimer h w)
           | None => w
           end in
  let w := set_connected false w in
  log "Client disconnected from bridge server" w.

Definition body (t : timer action) (w : world) : world :=
  match act t with
  | PollTick => poll_tick w
  | Reconnect => connect_unobserved w
  end.

Definition fire (t : timer action) (w : world) : world :=
  let w := set_now (N.max (now w) (due t)) w in
  let w := body t w in
  set_timers (rearm t (timers w)) w.

(** What can happen to the client: a pending timer fires; a message of
    the peer reaches the mailbox; the relay starts answering differently;
    the host calls a method. *)
Inductive event :=
| EvTimer (h : nat)
| EvEnqueue (m : envelope)
| EvRoutes (r : endpoint → reply)
| EvSendMessage (content : string)
| EvSendFile (name content : string)
| EvNotifyFileChanged (path content : string)
| EvCleanup.

Definition exec (ev : event) (w : world) : world :=
  match ev with
  | EvTimer h =>
      match List.find (fun t => bool_decide (handle t = h)) (timers w) with
      | Some t => fire t w
      | None => w
      end
  | EvEnqueue m => set_mailbox (mailbox w ++ [m]) w
  | EvRoutes r => set_routes r w
  | EvSendMessage content => fst (sendMessage content w)
  | EvSendFile name content => fst (sendFile name content w)
  | EvNotifyFileChanged path content => fst (notifyFileChanged path content w)
  | EvCleanup => cleanup w
  end.

Definition execs (evs : list event) (w : world) : world :=
  foldl (fun w ev => exec ev w) w evs.

Definition all_ok : endpoint → reply := fun _ => Status true "OK".

(** A relay that cannot be reached. *)
Definition unreachable : endpoint → reply :=
  fun _ => Throws "request to http://localhost:2612 failed, reason: connect ECONNREFUSED".

(** A relay whose liveness route answers with an error status. *)
Definition status_500 : endpoint → reply :=
  fun e => match e with
           | GetStatus => Status false "Internal Server Error"
           | _ => Status true "OK"
           end.

(** Collaborators that fail on every argument. *)
Definition failing : context :=
  Context (fun _ => Failed "ENOENT: no such file or directory")
          (fun _ _ => Failed "EACCES: permission denied")
          (fun _ => Failed "Command failed").


(** A probe succeeds when the liveness route answers with [ok]. *)
Definition probe_ok (w : world) : bool :=
  match routes w GetStatus with
  | Status true _ => true
  | _ => false
  end.

(** The event loop left alone until the clock shows [t]; [None] only when
    the fuel runs out. *)
Fixpoint run_until (fuel : nat) (t : N) (w : world) : option world :=
  match fuel with
  | O => None
  | S fuel' =>
      match earliest (timers w) with
      | Some tm =>
          if (due tm <=? t)%N then run_until fuel' t (fire tm w)
          else Some (set_now (N.max (now w) t) w)
      | None => Some (set_now (N.max (now w) t) w)
      end
  end.

(** A client that connected at time 0. *)
Definition connected_client : world := constructor failing all_ok "1.00" [].


(** Requests of the peer. *)
Definition fileRequest (path : string) : envelope :=
  Envelope "fileRequest" (Some path) None None None None None None None None
    None None.

Definition updateCode (path content : string) : envelope :=
  Envelope "updateCode" (Some path) (Some content) None None None None None
    None None None None.

Definition runCommand (command : string) : envelope :=
  Envelope "executeCommand" None None None None (Some command) None None
    None None None None.

End Cline.

(** ** The relay (claude-cline-bridge.js) *)

Module Relay.
Import Js.

(** A queued message: the two members a POST keeps of its body, and the
    instant of its arrival (the source stores the ISO rendering of that
    instant; instants are milliseconds). *)
Record message := Msg {
  content : option string;
  type : string;
  timestamp : Z
}.

(** The process: [START_TIME], the two queues of [messages], and the
    console, each line with the instant the [log] helper prints in front
    of it. *)
Record state := State {
  START_TIME : Z;
  claude : list message;
  cline : list message;
  console : list (Z * string)
}.

Definition set_claude (q : list message) (s : state) : state :=
  State (START_TIME s) q (cline s) (console s).

Definition set_cline (q : list message) (s : state) : state :=
  State (START_TIME s) (claude s) q (console s).

(** [log(message)]. *)
Definition log (now : Z) (text : string) (s : state) : state :=
  State (START_TIME s) (claude s) (cline s) (console s ++ [(now, text)]).

(** The routes.  A body is the object a client posts; [req.query.client]
    is absent or a string.  Any other path is answered by the framework. *)
Inductive request :=
| PostClaudeMessage (body : envelope)
| PostClineMessage (body : envelope)
| GetClaudeMessages
| GetClineMessages
| GetPing (client : option string)
| GetStatus
| Other.

(** The answers: [{success: true}]; the array of a queue; the body of
    [/ping]; its 400 [{success: false, message: 'Invalid client'}]; the
    body of [/status], the uptime in milliseconds (the source divides by
    1000); the 404 of the framework. *)
Inductive response :=
| Success
| Messages (pending : list message)
| Pong (messageCount : nat) (hasUpdates : bool)
| InvalidClient
| StatusReport (uptime : Z) (startTime : Z) (claude cline : nat)
| NotFound.

(** The object the two POST routes build: [content], [type || 'text'],
    the timestamp. *)
Definition stored (now : Z) (body : envelope) : message :=
  Msg (e_content body)
      (if truthy (Some (e_type body)) then e_type body else "text")
      now.

(** One request handled at instant [now]. *)
Definition handle (now : Z) (req : request) (s : state) : state * response :=
  match req with
  | PostClaudeMessage body =>
      let message := stored now body in
      let s := log now ("Claude -> Cline: " +:+ type message +:+ " message") s in
      (set_cline (cline s ++ [message]) s, Success)
  | PostClineMessage body =>
      let message := stored now body in
      let s := log now ("Cline -> Claude: " +:+ type message +:+ " message") s in
      (set_claude (claude s ++ [message]) s, Success)
  | GetClaudeMessages =>
      let pending := claude s in
      let s := set_claude [] s in
      (log now ("Claude retrieved " +:+ pretty (length pending)
                +:+ " messages") s,
       Messages pending)
  | GetClineMessages =>
      let pending := cline s in
      let s := set_cline [] s in
      (log now ("Cline retrieved " +:+ pretty (length pending)
                +:+ " messages") s,
       Messages pending)
  | GetPing client =>
      if negb (truthy client) then (s, InvalidClient)
      else if String.eqb (show client) "claude" then
        (s, Pong (length (claude s)) (negb (length (claude s) =? 0)))
      else if String.eqb (show client) "cline" then
        (s, Pong (length (cline s)) (negb (length (cline s) =? 0)))
      else (s, InvalidClient)
  | GetStatus =>
      (s, StatusReport (now - START_TIME s) (START_TIME s)
            (length (claude s)) (length (cline s)))
  | Other => (s, NotFound)
  end.

(** The process started at instant [t0], after [app.listen] has called
    back at instant [t]. *)
Definition start (t0 t : Z) (pid : string) : state :=
  log t ("Server PID: " +:+ pid)
    (log t "Simplified Claude-Cline Bridge started on port 2612"
       (State t0 [] [] [])).






(** A queued message as a client reads it from the array: the members the
    relay did not keep are absent. *)
Definition read (m : message) : envelope :=
  Envelope (type m) None (content m) None None None None None None None None
    None.

End Relay.

(** ** The request handler of minimal-mcp-server.js *)

Module Server.
Import Js.

(** A value [JSON.parse] returns.  The numbers of the language are left
    open.  An object lists each of its keys once. *)
#[warnings="-register-all"]
Inductive json (number : Type) : Type :=
| JNull
| JBool (b : bool)
| JNumber (n : number)
| JString (s : Framing.jsstring)
| JArray (items : list (json number))
| JObject (members : list (Framing.jsstring * json number)).
Arguments JNull {number}.
Arguments JBool {number} _.
Arguments JNumber {number} _.
Arguments JString {number} _.
Arguments JArray {number} _.
Arguments JObject {number} _.

(** How one iteration of the handler ends. *)
Inductive completion (S : Type) :=
| Normal (st : S)
| Abrupt (msg : Framing.jsstring) (st : S).
Arguments Normal {S} _.
Arguments Abrupt {S} _ _.

Section Runtime.

(** The runtime: the number of an integer literal, how a template literal
    prints a number, [JSON.parse] (the message of the error it throws, or
    the value) and [JSON.stringify]. *)
Context {number : Type}.
Variable int : Z → number.
Variable show_number : number → Framing.jsstring.
Variable parse : Framing.jsstring → Framing.jsstring + json number.
Variable stringify : json number → Framing.jsstring.

(** [v.k] for a value that is neither [undefined] nor [null] and a name
    [k] the handler reads ([method], [id], [params], [name], [arguments],
    [content]): an object has the member or not, anything else has no
    such property. *)
Definition member (k : string) (v : json number) : option (json number) :=
  match v with
  | JObject members =>
      snd <$> List.find (fun kv => bool_decide (kv.1 = Framing.lit k)) members
  | _ => None
  end.

(** [o.k] where [o] may be [undefined] or [null]: reading a property of
    either throws a [TypeError]. *)
Definition read (k : string) (o : option (json number))
  : Framing.jsstring + option (json number) :=
  match o with
  | None =>
      inl (Framing.lit ("Cannot read properties of undefined (reading '"
                        +:+ k +:+ "')"))
  | Some JNull =>
      inl (Framing.lit ("Cannot read properties of null (reading '"
                        +:+ k +:+ "')"))
  | Some v => inr (member k v)
  end.

(** [o.k] once [o] is known to have properties. *)
Definition field (k : string) (o : option (json number)) : option (json number) :=
  match read k o with
  | inl _ => None
  | inr v => v
  end.

(** [o === 'text']. *)
Definition equals (text : string) (o : option (json number)) : bool :=
  match o with
  | Some (JString s) => bool_decide (s = Framing.lit text)
  | _ => false
  end.

(** [array.join(',')]. *)
Fixpoint join (parts : list Framing.jsstring) : Framing.jsstring :=
  match parts with
  | [] => []
  | [p] => p
  | p :: parts' => p ++ 44%N :: join parts'
  end.

(** How a template literal prints a value. *)
Fixpoint to_string (v : json number) : Framing.jsstring :=
  match v with
  | JNull => Framing.lit "null"
  | JBool true => Framing.lit "true"
  | JBool false => Framing.lit "false"
  | JNumber n => show_number n
  | JString s => s
  | JArray items =>
      join (List.map (fun item => match item with
                                  | JNull => []
                                  | _ => to_string item
                                  end) items)
  | JObject _ => Framing.lit "[object Object]"
  end.

Definition template (o : option (json number)) : Framing.jsstring :=
  match o with
  | Some v => to_string v
  | None => Framing.lit "undefined"
  end.

(** An object literal of the source whose members are all defined. *)
Definition record (members : list (string * json number)) : json number :=
  JObject ((fun kv => (Framing.lit kv.1, kv.2)) <$> members).

Definition str (s : string) : json number := JString (Framing.lit s).

(** An object literal with the member [id: request.id]: serialized, a
    member that is [undefined] is left out. *)
Definition response (id : option (json number)) (k : string) (v : json number) : json number :=
  JObject ([(Framing.lit "jsonrpc", str "2.0")]
           ++ match id with
              | Some i => [(Framing.lit "id", i)]
              | None => []
              end
           ++ [(Framing.lit k, v)]).

(** The module-level variables of the decoder, the two output streams
    ([process.stdout.write] and [log]), the clock and the timers. *)
Record state := State {
  dec : Framing.decoder;
  stdout : list Framing.bytes;
  stderr : list Framing.jsstring;
  now : N;
  timers : list (timer (json number));
  next_handle : nat
}.

Definition set_dec (d : Framing.decoder) (st : state) : state :=
  State d (stdout st) (stderr st) (now st) (timers st) (next_handle st).

Definition set_now (t : N) (st : state) : state :=
  State (dec st) (stdout st) (stderr st) t (timers st) (next_handle st).

Definition set_timers (ts : list (timer (json number))) (st : state) : state :=
  State (dec st) (stdout st) (stderr st) (now st) ts (next_handle st).

(** [log(text)]. *)
Definition log (text : Framing.jsstring) (st : state) : state :=
  State (dec st) (stdout st) (stderr st ++ [text]) (now st) (timers st)
    (next_handle st).

Definition write (chunk : Framing.bytes) (st : state) : state :=
  State (dec st) (stdout st ++ [chunk]) (stderr st) (now st) (timers st)
    (next_handle st).

(** [sendMessage(message)]. *)
Definition sendMessage (message : json number) (st : state) : state :=
  let content := stringify message in
  let st := write (Framing.sendMessage content) st in
  log (Framing.lit "Sent: " ++ content) st.

(** [setTimeout(() => sendMessage(message), delay)]. *)
Definition setTimeout (message : json number) (delay : N) (st : state) : state :=
  State (dec st) (stdout st) (stderr st) (now st)
    (timers st ++ [Timer (next_handle st) (now st + delay)%N None message])
    (S (next_handle st)).

(** The tool list of the notification sent after [initialize]. *)
Definition tools_announced : json number :=
  JArray
    [record [("name", str "send_message");
             ("description", str "Send a message to Cline");
             ("inputSchema",
              record [("type", str "object");
                      ("properties",
                       record [("content",
                                record [("type", str "string");
                                        ("description",
                                         str "Message content")])]);
                      ("required", JArray [str "content"])])];
     record [("name", str "read_messages");
             ("description", str "Read messages from Cline");
             ("inputSchema",
              record [("type", str "object");
                      ("properties", record [])])]].

(** The tool list of the answer to [list_tools]. *)
Definition tools_listed : json number :=
  JArray
    [record [("name", str "send_message");
             ("description", str "Send a message to Cline");
             ("inputSchema",
              record [("type", str "object");
                      ("properties",
                       record [("content",
                                record [("type", str "string");
                                        ("description",
                                         str "Message content")])]);
                      ("required", JArray [str "content"])])];
     record [("name", str "read_messages");
             ("description", str "Read messages from Cline");
             ("inputSchema",
              record [("type", str "object");
                      ("properties", record [])])]].

Definition tools_notification : json number :=
  record [("jsonrpc", str "2.0");
          ("method", str "notifications/tools");
          ("params", record [("tools", tools_announced)])].

Definition text_result (text : string) : json number :=
  record [("content",
           JArray [record [("type", str "text"); ("text", str text)]])].

(** The body of the [try] once the request is parsed and logged. *)
Definition handle_request (request : json number) (st : state)
  : completion state :=
  match read "method" (Some request) with
  | inl e => Abrupt e st
  | inr method =>
      if equals "initialize" method then
        let st :=
          sendMessage
            (response (member "id" request) "result"
               (record [("serverInfo",
                         record [("name", str "minimal-mcp");
                                 ("version", str "1.0.0")]);
                        ("capabilities", record [])])) st in
        Normal (setTimeout tools_notification 100 st)
      else if equals "list_tools" method then
        Normal (sendMessage
                  (response (member "id" request) "result"
                     (record [("tools", tools_listed)])) st)
      else if equals "call_tool" method then
        match read "name" (member "params" request) with
        | inl e => Abrupt e st
        | inr toolName =>
            let args := field "arguments" (member "params" request) in
            if equals "send_message" toolName then
              match read "content" args with
              | inl e => Abrupt e st
              | inr content =>
                  let st := log (Framing.lit "Would send message: "
                                 ++ template content) st in
                  Normal (sendMessage
                            (response (member "id" request) "result"
                               (text_result "Message sent successfully")) st)
              end
            else if equals "read_messages" toolName then
              Normal (sendMessage
                        (response (member "id" request) "result"
                           (text_result "No messages available")) st)
            else Normal st
        end
      else
        Normal (sendMessage
                  (response (member "id" request) "error"
                     (record [("code", JNumber (int (-32601)));
                              ("message",
                               JString (Framing.lit "Method not supported: "
                                        ++ template method))])) st)
  end.

(** The [catch] of the handler. *)
Definition caught (k : completion state) : state :=
  match k with
  | Normal st => st
  | Abrupt e st => log (Framing.lit "Error: " ++ e) st
  end.

(** What the loop does with one message it has cut out: the [try] and its
    [catch]. *)
Definition on_message (message : Framing.jsstring) (st : state) : state :=
  match parse message with
  | inl e => log (Framing.lit "Error: " ++ e) st
  | inr request =>
      let st := log (Framing.lit "Received: " ++ stringify request) st in
      caught (handle_request request st)
  end.

(** The ['data'] listener.  The loop handles each message as soon as it
    has cut it out; handling a message touches neither [buffer] nor
    [contentLength] and cutting touches nothing else, so the messages of
    one chunk are handled here after the last is cut.  [None] only when
    the fuel of the loop runs out. *)
Definition on_data (chunk : Framing.bytes) (st : state) : option state :=
  match Framing.on_data chunk (dec st) with
  | Some (d, messages) =>
      Some (foldl (fun st m => on_message m st) (set_dec d st) messages)
  | None => None
  end.

(** A sequence of ['data'] events. *)
Fixpoint feed (chunks : list Framing.bytes) (st : state) : option state :=
  match chunks with
  | [] => Some st
  | c :: cs =>
      match on_data c st with
      | Some st' => feed cs st'
      | None => None
      end
  end.

(** The event loop runs the timeout [t]. *)
Definition fire (t : timer (json number)) (st : state) : state :=
  let st := set_now (N.max (now st) (due t)) st in
  let st := sendMessage (act t) st in
  set_timers (clear (handle t) (timers st)) st.

(** The process when the script has run: the two lines it logs. *)
Definition initial : state :=
  State Framing.initial []
    [Framing.lit "Starting minimal MCP server..."; Framing.lit "MCP server ready"]
    0 [] 0.


End Runtime.

Arguments state : clear implicits.

End Server.

(** ** The two clients on the relay *)

Module Wire.
Import Js.

(** The request of the relay a POST of the Claude-side client is: the
    relay has the route [/claude/message] and neither [/mcp/invoke] nor
    [/claude/file]. *)
Definition of_claude (p : Claude.endpoint * Claude.request) : Relay.request :=
  match p with
  | (Claude.PostMessage, Claude.Message content type) =>
      Relay.PostClaudeMessage
        (Envelope type None (Some content) None None None None None None
           None None None)
  | _ => Relay.Other
  end.

(** The same for the Cline-side client: [/cline/message] is a route,
    [/cline/file] and [/mcp/response] are not. *)
Definition of_cline (p : Cline.endpoint * Cline.request) : Relay.request :=
  match p with
  | (Cline.PostMessage, Cline.Message m) => Relay.PostClineMessage m
  | _ => Relay.Other
  end.

End Wire.

(** * Properties *)

(** ** The framing codec *)

Section FramingFacts.
Import Framing.
Local Open Scope N_scope.

Implicit Types (s b c buf ds : jsstring) (cl : option nat).

Lemma parseInt_acc d acc :
  foldl (fun acc u => (10 * acc + N.to_nat (u - 48))%nat) acc (uint_units d)
  = Nat.of_uint_acc d acc.
Proof.
  revert acc. induction d; intros acc; simpl; [done|..];
    rewrite IHd, Nat.tail_mul_spec; f_equal; lia.
Qed.

Lemma parseInt_decimal n : parseInt (decimal n) = n.
Proof.
  unfold parseInt, decimal. rewrite parseInt_acc.
  apply (DecimalNat.Unsigned.of_to n).
Qed.

Lemma uint_units_digits d : Forall (fun u => is_digit u = true) (uint_units d).
Proof. induction d; simpl; constructor; done. Qed.

Lemma uint_units_nil d : uint_units d = [] → d = Nil.
Proof. destruct d; simpl; congruence. Qed.

Lemma decimal_nonempty n : decimal n ≠ [].
Proof.
  unfold decimal. intros H%uint_units_nil.
  pose proof (DecimalNat.Unsigned.of_to n) as E. rewrite H in E.
  simpl in E. subst n. discriminate H.
Qed.

Lemma strip_prefix_app p s : strip_prefix p (p ++ s) = Some s.
Proof. induction p as [|a p IH]; simpl; [done|]. by rewrite N.eqb_refl. Qed.

Lemma strip_prefix_Some p s r : strip_prefix p s = Some r → s = p ++ r.
Proof.
  revert s. induction p as [|a p IH]; intros [|x s]; simpl; try congruence.
  destruct (N.eqb_spec a x); [|done]. intros H%IH. by subst.
Qed.

Lemma span_digits_spec s ds r :
  span_digits s = (ds, r) →
  s = ds ++ r ∧ Forall (fun u => is_digit u = true) ds.
Proof.
  revert ds r. induction s as [|u s IH]; intros ds r; simpl.
  - intros [= <- <-]. by split.
  - destruct (is_digit u) eqn:Hu.
    + destruct (span_digits s) as [ds' r'] eqn:E. intros [= <- <-].
      destruct (IH _ _ eq_refl) as [-> ?]. split; [done|]. by constructor.
    + intros [= <- <-]. by split.
Qed.

Lemma span_digits_stop ds u r :
  Forall (fun u => is_digit u = true) ds → is_digit u = false →
  span_digits (ds ++ u :: r) = (ds, u :: r).
Proof.
  intros Hds Hu. induction Hds as [|d ds Hd _ IH]; simpl.
  - by rewrite Hu.
  - by rewrite Hd, IH.
Qed.

Lemma match_here_intro ds rest :
  ds ≠ [] → Forall (fun u => is_digit u = true) ds →
  match_here (header_name ++ ds ++ crlf2 ++ rest) = Some ds.
Proof.
  intros Hne Hds. unfold match_here. rewrite strip_prefix_app.
  unfold crlf2 at 1. simpl app at 2.
  rewrite (span_digits_stop ds 13 _ Hds eq_refl).
  destruct ds; [done|]. done.
Qed.

Lemma match_here_inv s ds :
  match_here s = Some ds →
  ds ≠ [] ∧ Forall (fun u => is_digit u = true) ds
  ∧ ∃ rest, s = header_name ++ ds ++ crlf2 ++ rest.
Proof.
  unfold match_here.
  destruct (strip_prefix header_name s) as [r|] eqn:E1; [|done].
  destruct (span_digits r) as [ds' r'] eqn:E2.
  destruct ds' as [|d ds']; [done|].
  destruct (strip_prefix crlf2 r') as [rest|] eqn:E3; [|done].
  intros [= <-].
  apply strip_prefix_Some in E1, E3. apply span_digits_spec in E2 as [-> Hd].
  subst. split; [done|]. split; [done|]. by exists rest.
Qed.

Lemma match_here_length s ds :
  match_here s = Some ds → (header_length ds ≤ length s)%nat.
Proof.
  intros (_ & _ & rest & ->)%match_here_inv. unfold header_length.
  rewrite !length_app. lia.
Qed.

Lemma match_here_app s c ds :
  match_here s = Some ds → match_here (s ++ c) = Some ds.
Proof.
  intros (Hne & Hds & rest & ->)%match_here_inv.
  rewrite <- !app_assoc. by apply match_here_intro.
Qed.

Lemma match_here_head s ds : match_here s = Some ds → head s = Some 67.
Proof. by intros (_ & _ & rest & ->)%match_here_inv. Qed.

Lemma regex_match_capital s ds : regex_match s = Some ds → 67 ∈ s.
Proof.
  induction s as [|x s IH]; simpl.
  - done.
  - destruct (match_here (x :: s)) eqn:E.
    + apply match_here_head in E. simpl in E. injection E as ->. left.
    + intros H. right. by apply IH.
Qed.

Lemma header_tail_no_capital ds :
  Forall (fun u => is_digit u = true) ds →
  67 ∉ tail (header_name ++ ds ++ crlf2).
Proof.
  intros Hds H. change (67 ∈ tail header_name ++ ds ++ crlf2) in H.
  rewrite !elem_of_app in H. destruct H as [H|[H|H]].
  - apply list_elem_of_In in H. vm_compute in H. intuition discriminate.
  - rewrite Forall_forall in Hds. by apply Hds in H.
  - apply list_elem_of_In in H. vm_compute in H. intuition discriminate.
Qed.

(** A match found at the front of a longer buffer either was complete in
    the shorter one, or the shorter one has no capital C after its first
    unit. *)
Lemma match_here_split b c ds :
  match_here (b ++ c) = Some ds →
  match_here b = Some ds ∨ 67 ∉ tail b.
Proof.
  intros H. pose proof H as (Hne & Hds & rest & E)%match_here_inv.
  rewrite (app_assoc ds), (app_assoc header_name) in E.
  apply app_eq_app in E as [k [[-> ->]|[E ->]]].
  - left. rewrite <- !app_assoc. by apply match_here_intro.
  - right. intros Hin. apply (header_tail_no_capital ds Hds).
    rewrite E.
    destruct b as [|x b]; [by apply elem_of_nil in Hin|].
    simpl tail in *. apply elem_of_app. by left.
Qed.

(** The leftmost match does not move when more data arrives. *)
Lemma regex_match_app b c ds :
  regex_match b = Some ds → regex_match (b ++ c) = Some ds.
Proof.
  induction b as [|x b IH]; simpl.
  - done.
  - destruct (match_here (x :: b)) as [ds'|] eqn:E.
    + intros [= ->]. change (x :: b ++ c) with ((x :: b) ++ c).
      by rewrite (match_here_app _ c _ E).
    + intros Hb. destruct (match_here (x :: b ++ c)) as [ds'|] eqn:E'.
      * change (x :: b ++ c) with ((x :: b) ++ c) in E'.
        apply match_here_split in E' as [E'|Hno]; [congruence|].
        apply regex_match_capital in Hb. done.
      * by apply IH.
Qed.

Lemma regex_match_length s ds :
  regex_match s = Some ds → (header_length ds ≤ length s)%nat.
Proof.
  induction s as [|x s IH]; simpl.
  - done.
  - destruct (match_here (x :: s)) eqn:E.
    + intros [= <-]. by apply match_here_length in E.
    + intros H%IH. lia.
Qed.

Lemma regex_match_front ds rest :
  ds ≠ [] → Forall (fun u => is_digit u = true) ds →
  regex_match (header_name ++ ds ++ crlf2 ++ rest) = Some ds.
Proof.
  intros Hne Hds.
  pose proof (match_here_intro ds rest Hne Hds) as E.
  destruct (header_name ++ ds ++ crlf2 ++ rest) as [|x l]; [done|].
  simpl. by rewrite E.
Qed.

Lemma header_length_pos ds : (0 < header_length ds)%nat.
Proof. unfold header_length. change (length header_name) with 16%nat. lia. Qed.

Lemma read_header_None_shrinks buf buf1 n :
  read_header buf None = Some (buf1, n) → (length buf1 < length buf)%nat.
Proof.
  unfold read_header. destruct (regex_match buf) as [ds|] eqn:E; [|done].
  intros [= <- <-]. apply regex_match_length in E.
  pose proof (header_length_pos ds). rewrite length_drop. lia.
Qed.

Lemma read_header_le buf cl buf1 n :
  read_header buf cl = Some (buf1, n) → (length buf1 ≤ length buf)%nat.
Proof.
  destruct cl as [m|].
  - by intros [= <- <-].
  - intros H%read_header_None_shrinks. lia.
Qed.

Lemma loop_S f buf cl :
  loop (S f) buf cl =
  if (length buf =? 0)%nat then Some (Decoder buf cl, [])
  else match read_header buf cl with
       | None => Some (Decoder buf None, [])
       | Some (buf1, n) =>
           if (length buf1 <? n)%nat then Some (Decoder buf1 (Some n), [])
           else match loop f (drop n buf1) None with
                | Some (st, out) => Some (st, take n buf1 :: out)
                | None => None
                end
       end.
Proof. reflexivity. Qed.

Lemma loop_fuel_None f f' buf :
  (length buf < f)%nat → (length buf < f')%nat →
  loop f buf None = loop f' buf None.
Proof.
  revert f' buf. induction f as [|f IH]; intros [|f'] buf Hf Hf'; try lia.
  rewrite !loop_S. destruct (length buf =? 0)%nat; [done|].
  destruct (read_header buf None) as [[buf1 n]|] eqn:E; [|done].
  destruct (length buf1 <? n)%nat; [done|].
  apply read_header_None_shrinks in E.
  rewrite (IH f'); [done|rewrite length_drop; lia..].
Qed.

Lemma loop_total_None f buf :
  (length buf < f)%nat → is_Some (loop f buf None).
Proof.
  revert buf. induction f as [|f IH]; intros buf Hf; [lia|].
  rewrite loop_S. destruct (length buf =? 0)%nat; [done|].
  destruct (read_header buf None) as [[buf1 n]|] eqn:E; [|done].
  destruct (length buf1 <? n)%nat; [done|].
  apply read_header_None_shrinks in E.
  destruct (IH (drop n buf1)) as [[st out] ->]; [rewrite length_drop; lia|].
  done.
Qed.

(** The loop needs no more fuel than [run] gives it. *)
Lemma run_unfold buf cl :
  run buf cl =
  if (length buf =? 0)%nat then Some (Decoder buf cl, [])
  else match read_header buf cl with
       | None => Some (Decoder buf None, [])
       | Some (buf1, n) =>
           if (length buf1 <? n)%nat then Some (Decoder buf1 (Some n), [])
           else match run (drop n buf1) None with
                | Some (st, out) => Some (st, take n buf1 :: out)
                | None => None
                end
       end.
Proof.
  unfold run. replace (length buf + 2)%nat with (S (length buf + 1)) by lia.
  rewrite loop_S. destruct (length buf =? 0)%nat; [done|].
  destruct (read_header buf cl) as [[buf1 n]|] eqn:E; [|done].
  destruct (length buf1 <? n)%nat; [done|].
  apply read_header_le in E.
  rewrite (loop_fuel_None _ (length (drop n buf1) + 2));
    [done|rewrite ?length_drop; lia..].
Qed.

Lemma run_total buf cl : is_Some (run buf cl).
Proof.
  rewrite run_unfold. destruct (length buf =? 0)%nat; [done|].
  destruct (read_header buf cl) as [[buf1 n]|] eqn:E; [|done].
  destruct (length buf1 <? n)%nat; [done|].
  destruct (loop_total_None (length (drop n buf1) + 2) (drop n buf1))
    as [[st out] E']; [lia|].
  unfold run. by rewrite E'.
Qed.

(** The listener always returns: the decoder is total. *)
Lemma feed_total chunks st : is_Some (feed chunks st).
Proof.
  revert st. induction chunks as [|c chunks IH]; intros st; [done|].
  simpl. unfold on_data.
  destruct (run_total (buffer st ++ toString c) (contentLength st))
    as [[st' out1] ->].
  by destruct (IH st') as [[st'' out2] ->].
Qed.

Lemma read_header_app buf cl c buf1 n :
  read_header buf cl = Some (buf1, n) →
  read_header (buf ++ c) cl = Some (buf1 ++ c, n).
Proof.
  destruct cl as [m|]; simpl.
  - by intros [= <- <-].
  - destruct (regex_match buf) as [ds|] eqn:E; [|done]. intros [= <- <-].
    rewrite (regex_match_app _ c _ E).
    by rewrite drop_app_le by by apply regex_match_length.
Qed.

Lemma resume_id c buf cl :
  resume c (Some (Decoder buf cl, [])) = run (buf ++ c) cl.
Proof. simpl. by destruct (run (buf ++ c) cl) as [[??]|]. Qed.

Lemma run_app_step c buf cl :
  (∀ b', (length b' < length buf)%nat →
         run (b' ++ c) None = resume c (run b' None)) →
  (cl = None ∨ ∀ b', (length b' ≤ length buf)%nat →
         run (b' ++ c) None = resume c (run b' None)) →
  run (buf ++ c) cl = resume c (run buf cl).
Proof.
  intros IH IH'. rewrite (run_unfold buf cl).
  destruct (length buf =? 0)%nat eqn:E0.
  { by rewrite resume_id. }
  destruct (read_header buf cl) as [[buf1 n]|] eqn:E.
  2:{ rewrite resume_id. destruct cl; [done|done]. }
  destruct (length buf1 <? n)%nat eqn:E1.
  - rewrite resume_id, (run_unfold (buf ++ c)), (run_unfold (buf1 ++ c)).
    rewrite (read_header_app _ _ c _ _ E). simpl read_header.
    apply Nat.eqb_neq in E0. apply Nat.ltb_lt in E1.
    destruct (length (buf ++ c) =? 0)%nat eqn:E2.
    { apply Nat.eqb_eq in E2. rewrite length_app in E2. lia. }
    destruct (length (buf1 ++ c) =? 0)%nat eqn:E3; [|done].
    apply Nat.eqb_eq in E3.
    destruct (length (buf1 ++ c) <? n)%nat eqn:E4; [done|].
    apply Nat.ltb_ge in E4. lia.
  - rewrite (run_unfold (buf ++ c)), (read_header_app _ _ c _ _ E).
    apply Nat.eqb_neq in E0. apply Nat.ltb_ge in E1.
    destruct (length (buf ++ c) =? 0)%nat eqn:E2.
    { apply Nat.eqb_eq in E2. rewrite length_app in E2. lia. }
    destruct (length (buf1 ++ c) <? n)%nat eqn:E4.
    { apply Nat.ltb_lt in E4. rewrite length_app in E4. lia. }
    rewrite take_app_le, drop_app_le by done.
    assert (run (drop n buf1 ++ c) None = resume c (run (drop n buf1) None))
      as ->.
    { destruct IH' as [->|IH'].
      - apply IH. apply read_header_None_shrinks in E.
        rewrite length_drop. lia.
      - apply IH'. apply read_header_le in E. rewrite length_drop. lia. }
    destruct (run (drop n buf1) None) as [[st out]|]; [|done]. simpl.
    by destruct (run (buffer st ++ c) (contentLength st)) as [[??]|].
Qed.

Lemma run_app_None c buf : run (buf ++ c) None = resume c (run buf None).
Proof.
  remember (length buf) as k eqn:Hk. revert buf Hk.
  induction k as [k IH] using lt_wf_ind. intros buf ->.
  apply run_app_step; [|by left]. intros b' Hb'. by apply (IH (length b')).
Qed.

(** Chunk boundaries do not matter to the loop. *)
Lemma run_app c buf cl : run (buf ++ c) cl = resume c (run buf cl).
Proof.
  apply run_app_step; [|right]; intros b' _; apply run_app_None.
Qed.

Lemma run_stable buf cl st out :
  run buf cl = Some (st, out) →
  run (buffer st) (contentLength st) = Some (st, []).
Proof.
  intros E. pose proof (run_app [] buf cl) as H.
  rewrite app_nil_r, E in H. simpl in H. rewrite app_nil_r in H.
  destruct (run (buffer st) (contentLength st)) as [[st' out']|]; [|done].
  injection H as -> Hout. f_equal. f_equal.
  apply (f_equal length) in Hout. rewrite length_app in Hout.
  destruct out'; [done|simpl in Hout; lia].
Qed.

Lemma feed_run cs st :
  Forall (fun c => toString c = c) cs →
  run (buffer st) (contentLength st) = Some (st, []) →
  feed cs st = run (buffer st ++ concat cs) (contentLength st).
Proof.
  intros Hcs. revert st. induction Hcs as [|c cs Hc _ IH]; intros st Hst.
  - simpl. by rewrite app_nil_r, Hst.
  - simpl. unfold on_data.
    rewrite Hc, app_assoc, (run_app (concat cs) (buffer st ++ c)).
    destruct (run (buffer st ++ c) (contentLength st)) as [[st' o1]|] eqn:E;
      [|done].
    simpl. rewrite (IH st') by by eapply run_stable. done.
Qed.

Lemma utf8_encode_ascii s : ascii s → utf8_encode s = s.
Proof.
  induction 1 as [|u s Hu _ IH]; simpl; [done|].
  unfold is_high, is_low, in_range, utf8_of_cp.
  destruct (N.leb_spec 0xD800 u); [lia|]. destruct (N.leb_spec 0xDC00 u); [lia|].
  destruct (N.ltb_spec u 0x80); [|lia]. simpl. by rewrite IH.
Qed.

Lemma utf8_decode_ascii bs : ascii bs → utf8_decode bs = bs.
Proof.
  induction 1 as [|u s Hu _ IH]; simpl; [done|].
  destruct (N.ltb_spec u 0x80); [|lia]. by rewrite IH.
Qed.

Lemma toString_ascii bs : ascii bs → toString bs = bs.
Proof.
  intros H. unfold toString. rewrite (utf8_decode_ascii _ H).
  induction H as [|u s Hu _ IH]; [done|].
  cbn [mbind list_bind]. rewrite IH. unfold utf16_of_cp.
  destruct (N.ltb_spec u 0x10000); [done|lia].
Qed.

Lemma digit_ascii ds : Forall (fun u => is_digit u = true) ds → ascii ds.
Proof.
  intros H. eapply Forall_impl; [exact H|]. intros u. unfold is_digit, in_range.
  intros [_ H'%N.leb_le]%andb_prop. lia.
Qed.

Lemma frame_ascii p : ascii p → ascii (frame p).
Proof.
  intros Hp. unfold frame, ascii. rewrite !Forall_app. repeat split.
  - vm_compute. repeat constructor.
  - apply digit_ascii, uint_units_digits.
  - repeat constructor.
  - done.
Qed.

Lemma frame_ascii_eq p :
  ascii p → frame p = header_name ++ decimal (length p) ++ crlf2 ++ p.
Proof. intros Hp. unfold frame, byteLength. by rewrite utf8_encode_ascii. Qed.

Lemma stream_ascii ps :
  Forall ascii ps →
  concat (sendMessage <$> ps) = concat (frame <$> ps)
  ∧ ascii (concat (frame <$> ps)).
Proof.
  induction 1 as [|p ps Hp _ [IH1 IH2]].
  - split; [done|constructor].
  - cbn [fmap list_fmap concat]. unfold sendMessage at 1.
    rewrite (utf8_encode_ascii _ (frame_ascii p Hp)), IH1. split; [done|].
    apply Forall_app. split; [by apply frame_ascii|done].
Qed.

(** One pass over a buffer that holds whole frames cuts out every payload,
    in order, and leaves the decoder as it started. *)
Lemma run_frames ps :
  Forall ascii ps → run (concat (frame <$> ps)) None = Some (initial, ps).
Proof.
  induction 1 as [|p ps Hp _ IH]; [done|].
  cbn [fmap list_fmap concat]. rewrite run_unfold.
  rewrite (frame_ascii_eq p Hp), <- !app_assoc.
  set (rest := concat (frame <$> ps)) in *.
  destruct (length _ =? 0)%nat eqn:E0.
  { apply Nat.eqb_eq in E0. rewrite length_app in E0.
    change (length header_name) with 16%nat in E0. lia. }
  unfold read_header.
  rewrite regex_match_front
    by (apply decimal_nonempty || apply uint_units_digits).
  rewrite parseInt_decimal.
  assert (drop (header_length (decimal (length p)))
            (header_name ++ decimal (length p) ++ crlf2 ++ p ++ rest)
          = p ++ rest) as ->.
  { rewrite !app_assoc, <- (app_assoc _ p rest).
    apply drop_app_length'. unfold header_length. by rewrite !length_app. }
  destruct (length (p ++ rest) <? length p)%nat eqn:E1.
  { apply Nat.ltb_lt in E1. rewrite length_app in E1. lia. }
  by rewrite drop_app_length, take_app_length, IH.
Qed.

(** For payloads of ASCII characters the codec round-trips: whatever the
    chunks the written bytes arrive in, the decoder yields exactly the
    payloads, in order, and ends in its initial state. *)
Theorem framing_roundtrip_ascii (ps : list jsstring) (chunks : list bytes) :
  Forall ascii ps →
  concat chunks = concat (sendMessage <$> ps) →
  feed chunks initial = Some (initial, ps).
Proof.
  intros Hps Hcs. destruct (stream_ascii ps Hps) as [E Hascii].
  rewrite E in Hcs. rewrite feed_run; [|..|done].
  - simpl. rewrite Hcs. by apply run_frames.
  - rewrite <- Hcs in Hascii. unfold ascii in Hascii.
    rewrite Forall_concat in Hascii.
    eapply Forall_impl; [exact Hascii|]. intros c Hc. by apply toString_ascii.
Qed.

(** C1.  The codec does not round-trip a payload that holds a character
    outside ASCII.  For the serialized string ["é"] the encoder announces
    4, the length in bytes, and the decoder waits for 4 code units of a
    text that has 3: fed the whole frame in one chunk it yields nothing;
    fed a second frame behind it, it cuts the first payload one unit into
    the next header; fed byte by byte, it decodes each half of the
    two-byte character on its own and yields two replacement characters
    in its place. *)
Theorem non_ascii_frame_is_not_decoded :
  feed [sendMessage e_acute] initial
  = Some (Decoder e_acute (Some 4%nat), [])
  ∧ (snd <$> feed [sendMessage e_acute ++ sendMessage (lit "{}")] initial)
    = Some [e_acute ++ [67]]
  ∧ (snd <$> feed (bytewise (sendMessage e_acute)) initial)
    = Some [[34; replacement; replacement; 34]].
Proof. repeat split; vm_compute; reflexivity. Qed.

End FramingFacts.

(** ** The client of the Cline side *)

(** Projections of updated states, computed without touching the
    strings. *)
Ltac cline_simpl :=
  cbn [Cline.ctx Cline.connected Cline.pollInterval Cline.now Cline.timers
       Cline.next_handle Cline.logged Cline.unhandled Cline.routes
       Cline.uptime Cline.mailbox Cline.sent Cline.set_connected
       Cline.set_pollInterval Cline.set_now Cline.set_timers
       Cline.set_next_handle Cline.set_logged Cline.set_unhandled
       Cline.set_routes Cline.set_mailbox Cline.set_sent Cline.log
       Cline.clearTimer Cline.arm Cline.setTimeout Cline.setInterval
       Cline.post Cline.drain fst snd] in *.

Section ClineFacts.
Import Js Cline.

Implicit Types (w : world) (m : envelope).

Lemma startPolling_connected w : connected (startPolling w) = connected w.
Proof. unfold startPolling. cline_simpl. by destruct (pollInterval w). Qed.

(** What a probe leaves behind, by the answer of the liveness route. *)
Lemma connectToServer_outcome w :
  match routes w GetStatus with
  | Status true _ =>
      connected (connect_unobserved w) = true
      ∧ unhandled (connect_unobserved w) = unhandled w
  | Status false _ =>
      connect_unobserved w
      = log ("Connecting to bridge server at " +:+ BRIDGE_SERVER_URL +:+ "...") w
  | Throws msg =>
      connected (connect_unobserved w) = connected w
      ∧ timers (connect_unobserved w) = timers w
      ∧ logged (connect_unobserved w)
        = logged w ++ ["Connecting to bridge server at " +:+ BRIDGE_SERVER_URL
                         +:+ "...";
                       errorMsg BRIDGE_SERVER_URL]
      ∧ unhandled (connect_unobserved w)
        = unhandled w ++ ["Bridge server not available: " +:+ msg]
  end.
Proof.
  unfold connect_unobserved, connectToServer. cline_simpl.
  destruct (routes w GetStatus) as [msg|[] st]; cline_simpl.
  - by rewrite <- app_assoc.
  - split; [done|]. unfold startPolling. cline_simpl. by destruct (pollInterval w).
  - done.
Qed.


Lemma poll_failed_disconnected msg w :
  connected w = false →
  connected (poll_failed msg w) = false ∧ timers (poll_failed msg w) = timers w.
Proof. intros H. unfold poll_failed. cline_simpl. by rewrite H. Qed.


Lemma handleMessage_connected m w :
  connected (handleMessage m w) = connected w.
Proof.
  unfold handleMessage, handleFileRequest, handleUpdateCode,
    handleExecuteCommand, handleMcpInvoke, try_catch, post.
  repeat (case_match; simplify_eq/=; try done).
Qed.

Lemma handleMessage_timers m w : timers (handleMessage m w) = timers w.
Proof.
  unfold handleMessage, handleFileRequest, handleUpdateCode,
    handleExecuteCommand, handleMcpInvoke, try_catch, post.
  repeat (case_match; simplify_eq/=; try done).
Qed.

Lemma handleAll_quiet ms w :
  connected (foldl (fun w m => handleMessage m w) w ms) = connected w
  ∧ timers (foldl (fun w m => handleMessage m w) w ms) = timers w.
Proof.
  revert w. induction ms as [|m ms IH]; intros w; [done|]. simpl.
  destruct (IH (handleMessage m w)) as [-> ->].
  by rewrite handleMessage_connected, handleMessage_timers.
Qed.

(** A poll tick never connects, and while the client is disconnected it
    arms nothing. *)
Lemma poll_tick_disconnected w :
  connected w = false →
  connected (poll_tick w) = false ∧ timers (poll_tick w) = timers w.
Proof.
  intros H. unfold poll_tick.
  destruct (routes w GetPing); [by apply poll_failed_disconnected|].
  destruct (hasUpdates w); [|done].
  destruct (routes w GetMessages); [by apply poll_failed_disconnected|].
  cline_simpl. destruct (negb _); [|done].
  match goal with |- context [foldl _ ?w0 ?ms] =>
    destruct (handleAll_quiet ms w0) as [-> ->] end.
  done.
Qed.

Lemma rearm_inv {A} (t : timer A) (ts : list (timer A)) (tm : timer A) :
  tm ∈ rearm t ts →
  ∃ tm0, tm0 ∈ ts ∧ act tm = act tm0 ∧ handle tm = handle tm0.
Proof.
  unfold rearm. destruct (period t) as [p|].
  - intros (tm0 & -> & Hin)%list_elem_of_fmap. exists tm0. split; [done|].
    by case_decide.
  - unfold clear. intros [_ Hin]%list_elem_of_filter. by exists tm.
Qed.

Lemma find_handle (ts : list (timer action)) h tm :
  List.find (fun t => bool_decide (handle t = h)) ts = Some tm →
  tm ∈ ts ∧ handle tm = h.
Proof.
  intros [Hin Hh%bool_decide_eq_true]%find_some. split; [|done].
  by apply list_elem_of_In.
Qed.

(** Only the probe of a reconnect timer, answered with [ok], connects. *)
Lemma connects_only_by_probe ev w :
  connected w = false → connected (exec ev w) = true →
  probe_ok w = true
  ∧ ∃ h tm, ev = EvTimer h
            ∧ List.find (fun t => bool_decide (handle t = h)) (timers w)
              = Some tm
            ∧ act tm = Reconnect.
Proof.
  intros Hw. destruct ev as [h|m|r|content|name content|path content|]; simpl.
  - destruct (List.find _ (timers w)) as [tm|] eqn:E; [|congruence].
    unfold fire, body. cline_simpl. destruct (act tm) eqn:Ea.
    + destruct (poll_tick_disconnected (set_now (N.max (now w) (due tm)) w))
        as [-> _]; [done|]. done.
    + pose proof (connectToServer_outcome
                    (set_now (N.max (now w) (due tm)) w)) as H.
      unfold probe_ok. cline_simpl.
      destruct (routes w GetStatus) as [msg|[] st].
      * destruct H as (-> & _). cline_simpl. congruence.
      * intros _. split; [done|]. by exists h, tm.
      * rewrite H. cline_simpl. congruence.
  - congruence.
  - congruence.
  - unfold sendMessage, send. rewrite Hw. simpl. congruence.
  - unfold sendFile, send. rewrite Hw. simpl. congruence.
  - unfold notifyFileChanged. rewrite Hw. simpl. congruence.
  - unfold cleanup. destruct (pollInterval w); cline_simpl; done.
Qed.

(** Once disconnected with no probe pending, the client stays
    disconnected whatever happens. *)
Lemma disconnected_for_good evs w :
  connected w = false →
  (∀ tm, tm ∈ timers w → act tm ≠ Reconnect) →
  connected (execs evs w) = false
  ∧ ∀ tm, tm ∈ timers (execs evs w) → act tm ≠ Reconnect.
Proof.
  revert w. induction evs as [|ev evs IH]; intros w Hc Ht; [done|].
  unfold execs. simpl. apply IH.
  - destruct (connected (exec ev w)) eqn:E; [|done].
    destruct (connects_only_by_probe ev w Hc E)
      as (_ & h & tm & -> & [Hin _]%find_handle & Ha).
    by apply Ht in Hin.
  - destruct ev as [h|m|r|content|name content|path content|]; simpl;
      try done.
    + destruct (List.find _ (timers w)) as [tm|] eqn:E; [|done].
      apply find_handle in E as [Hin _]. pose proof (Ht _ Hin) as Ha.
      unfold fire, body. cline_simpl. intros tm' (tm0 & Hin0 & -> & _)%rearm_inv.
      destruct (act tm); [|done].
      destruct (poll_tick_disconnected (set_now (N.max (now w) (due tm)) w))
        as [_ E']; [done|]. rewrite E' in Hin0. by apply Ht.
    + unfold sendMessage, send. by rewrite Hc.
    + unfold sendFile, send. by rewrite Hc.
    + unfold notifyFileChanged. by rewrite Hc.
    + unfold cleanup. destruct (pollInterval w); cline_simpl; [|done].
      unfold clear. intros tm [_ Hin]%list_elem_of_filter. by apply Ht.
Qed.




(** C7 (amended).  When the collaborator of an inbound request fails
    with an error message, the handler posts exactly one reply to the
    relay's [/cline/message]: for [updateCode] an [updateCodeResult] and
    for [executeCommand] a [commandResult], both with [success: false] and
    [error] set to the message; for [fileRequest] a [fileContent] with
    [error] set to the message and neither [content] nor [success].  The
    failure ends in the handler: when the relay takes the reply,
    [handleMessage] logs only the line that announces the message. *)
Theorem collaborator_failure_reply (m : envelope) (w : world) (msg : string) :
  (e_type m = "fileRequest" → readFile (ctx w) (e_path m) = Failed msg →
   ∃ r, sent (handleMessage m w) = sent w ++ [(PostMessage, Message r)]
        ∧ e_type r = "fileContent" ∧ e_path r = e_path m
        ∧ e_error r = Some msg ∧ e_content r = None ∧ e_success r = None)
  ∧ (e_type m = "updateCode" →
     writeFile (ctx w) (e_path m) (e_content m) = Failed msg →
     ∃ r, sent (handleMessage m w) = sent w ++ [(PostMessage, Message r)]
          ∧ e_type r = "updateCodeResult" ∧ e_path r = e_path m
          ∧ e_error r = Some msg ∧ e_success r = Some false)
  ∧ (e_type m = "executeCommand" →
     executeCommand (ctx w) (e_command m) = Failed msg →
     ∃ r, sent (handleMessage m w) = sent w ++ [(PostMessage, Message r)]
          ∧ e_type r = "commandResult" ∧ e_command r = e_command m
          ∧ e_error r = Some msg ∧ e_success r = Some false)
  ∧ ((∀ msg', routes w PostMessage ≠ Throws msg') →
     e_type m = "fileRequest" ∨ e_type m = "updateCode"
     ∨ e_type m = "executeCommand" →
     logged (handleMessage m w)
     = logged w ++ ["Processing message of type: " +:+ e_type m]).
Proof.
  split; [|split; [|split]].
  - intros Ht Hf. unfold handleMessage. rewrite Ht.
    cbn [String.eqb Ascii.eqb Bool.eqb].
    unfold handleFileRequest. cline_simpl. rewrite Hf. unfold try_catch. cline_simpl.
    unfold post. cline_simpl.
    eexists. split; [by destruct (routes w PostMessage)|done].
  - intros Ht Hf. unfold handleMessage. rewrite Ht.
    cbn [String.eqb Ascii.eqb Bool.eqb].
    unfold handleUpdateCode. cline_simpl. rewrite Hf. unfold try_catch. cline_simpl.
    unfold post. cline_simpl.
    eexists. split; [by destruct (routes w PostMessage)|done].
  - intros Ht Hf. unfold handleMessage. rewrite Ht.
    cbn [String.eqb Ascii.eqb Bool.eqb].
    unfold handleExecuteCommand. cline_simpl. rewrite Hf. unfold try_catch. cline_simpl.
    unfold post. cline_simpl.
    eexists. split; [by destruct (routes w PostMessage)|done].
  - intros Hr Ht. unfold handleMessage, handleFileRequest, handleUpdateCode,
      handleExecuteCommand, try_catch. cline_simpl.
    unfold post. cline_simpl.
    destruct (routes w PostMessage) as [msg'|ok st] eqn:Er;
      [by destruct (Hr msg')|].
    destruct Ht as [Ht|[Ht|Ht]]; rewrite Ht;
      cbn [String.eqb Ascii.eqb Bool.eqb].
    + destruct (readFile _ _); cline_simpl; rewrite ?Er; done.
    + destruct (writeFile _ _ _); cline_simpl; rewrite ?Er; done.
    + destruct (executeCommand _ _); cline_simpl; rewrite ?Er; done.
Qed.

Lemma collaborator_failure_reply_witness :
  ∃ r, sent (handleMessage (updateCode "missing/x.txt" "y") connected_client)
       = [(PostMessage, Message r)]
       ∧ e_error r = Some "EACCES: permission denied"
       ∧ e_success r = Some false.
Proof.
  destruct (collaborator_failure_reply (updateCode "missing/x.txt" "y")
              connected_client "EACCES: permission denied")
    as (_ & H & _).
  destruct (H eq_refl eq_refl) as (r & Hs & _ & _ & He & Hx).
  exists r. split; [exact Hs|]. split; [exact He|exact Hx].
Defined.

(** The claim as stated fails for [fileRequest]: the reply to a failed
    read carries the error and no [success] field. *)
Lemma fileRequest_failure_reply_has_no_success :
  ∃ r, sent (handleMessage (fileRequest "missing/x.txt") connected_client)
       = [(PostMessage, Message r)]
       ∧ e_error r = Some "ENOENT: no such file or directory"
       ∧ e_success r ≠ Some false.
Proof. eexists. split; [vm_compute; reflexivity|]. by split. Qed.


End ClineFacts.

(** ** The client of the Claude side *)

Ltac claude_simpl :=
  cbn [Claude.serverUrl Claude.connected Claude.messageHandlers
       Claude.fileContentHandlers Claude.commandResultHandlers
       Claude.pollInterval Claude.now Claude.timers Claude.next_handle
       Claude.calls Claude.console Claude.invoked Claude.unhandled
       Claude.routes Claude.uptime Claude.mailbox Claude.sent
       Claude.set_connected Claude.set_messageHandlers
       Claude.set_fileContentHandlers Claude.set_commandResultHandlers
       Claude.set_pollInterval Claude.set_now Claude.set_timers
       Claude.set_next_handle Claude.set_calls Claude.set_console
       Claude.set_invoked Claude.set_unhandled Claude.set_routes
       Claude.set_mailbox Claude.set_sent Claude.log Claude.clearTimer
       Claude.arm Claude.setTimeout Claude.setInterval Claude.newPromise
       Claude.resolve Claude.reject Claude.post Claude.drain Claude.notify
       fst snd] in *.

Section ClaudeFacts.
Import Js Claude.

Implicit Types (w : world) (m : envelope).

(** C6.  A [fileContent] or [commandResult] reply dispatched while the
    table has no entry under its key leaves the whole state as it was:
    nothing is logged, no promise is settled, no entry and no timer is
    removed.  That is in particular the case once the timeout of the key
    has fired, since the timeout removes the entry. *)
Theorem reply_without_entry_is_dropped (m : envelope) (w : world) :
  (e_type m = "fileContent" →
   lookup_key (e_path m) (fileContentHandlers w) = None →
   handleMessage m w = Normal w)
  ∧ (e_type m = "commandResult" →
     lookup_key (e_command m) (commandResultHandlers w) = None →
     handleMessage m w = Normal w)
  ∧ (∀ path c, e_type m = "fileContent" → e_path m = Some path →
       handleMessage m (fileTimeout path c w) = Normal (fileTimeout path c w))
  ∧ (∀ command c, e_type m = "commandResult" → e_command m = Some command →
       handleMessage m (commandTimeout command c w)
       = Normal (commandTimeout command c w)).
Proof.
  assert (∀ w, e_type m = "fileContent" →
               lookup_key (e_path m) (fileContentHandlers w) = None →
               handleMessage m w = Normal w) as Hf.
  { intros w' Ht Hl. unfold handleMessage. rewrite Ht, Hl. done. }
  assert (∀ w, e_type m = "commandResult" →
               lookup_key (e_command m) (commandResultHandlers w) = None →
               handleMessage m w = Normal w) as Hc.
  { intros w' Ht Hl. unfold handleMessage. rewrite Ht, Hl. done. }
  split; [apply Hf|]. split; [apply Hc|]. split.
  - intros path c Ht Hp. apply Hf; [done|]. rewrite Hp.
    unfold fileTimeout. claude_simpl. apply lookup_delete_eq.
  - intros command c Ht Hp. apply Hc; [done|]. rewrite Hp.
    unfold commandTimeout. claude_simpl. apply lookup_delete_eq.
Qed.

Lemma reply_without_entry_is_dropped_witness :
  handleMessage content_b connected_client = Normal connected_client
  ∧ handleMessage content_b (fileTimeout "b.txt" 0 busy)
    = Normal (fileTimeout "b.txt" 0 busy).
Proof.
  destruct (reply_without_entry_is_dropped content_b connected_client)
    as (H1 & _).
  destruct (reply_without_entry_is_dropped content_b busy)
    as (_ & _ & H3 & _).
  split; [exact (H1 eq_refl eq_refl)|exact (H3 "b.txt" 0 eq_refl eq_refl)].
Defined.

Lemma settle_other {V} (c c' : nat) (s : settled V) cs :
  c' ≠ c → settle c s cs !! c' = cs !! c'.
Proof.
  intros Hne. unfold settle. destruct (cs !! c) as [[]|]; try done.
  by apply list_lookup_insert_ne.
Qed.

Lemma clear_subset {A} h (ts : list (timer A)) tm :
  tm ∈ ts → handle tm ≠ h → tm ∈ clear h ts.
Proof. intros Hin Hh. unfold clear. by apply list_elem_of_filter. Qed.

(** What [updateFile] arms when the relay accepts the request: its
    timeout, 30 s ahead, and behind it an interval of 1 s of its own, next
    to the interval of the poll loop. *)
Lemma updateFile_effect path content w st :
  connected w = true → routes w PostInvoke = Status true st →
  snd (updateFile path content w) = Awaiting (length (calls w))
  ∧ calls (fst (updateFile path content w)) = calls w ++ [Pending]
  ∧ pollInterval (fst (updateFile path content w)) = pollInterval w
  ∧ timers (fst (updateFile path content w))
    = (timers w
       ++ [Timer (next_handle w) (now w + 30000) None
             (UpdateTimeout (length (calls w)))])
      ++ [Timer (S (next_handle w)) (now w + 1000) (Some 1000%N)
            (UpdateCheck path (length (calls w)) (next_handle w))].
Proof.
  intros Hc Hr. unfold updateFile, invoke. rewrite Hc. claude_simpl.
  rewrite Hr. claude_simpl. done.
Qed.

(** One run of the check: what it leaves as it was. *)
Lemma update_check_effect self path c timeoutId w :
  let w' := update_check self path c timeoutId w in
  fileContentHandlers w' = fileContentHandlers w
  ∧ commandResultHandlers w' = commandResultHandlers w
  ∧ messageHandlers w' = messageHandlers w
  ∧ invoked w' = invoked w
  ∧ sent w' = sent w
  ∧ (∀ c', c' ≠ c → calls w' !! c' = calls w !! c')
  ∧ (∀ tm, tm ∈ timers w → handle tm ≠ self → handle tm ≠ timeoutId →
           tm ∈ timers w')
  ∧ ((∀ msg, routes w GetPing ≠ Throws msg) →
     (∀ msg, routes w GetMessages ≠ Throws msg) →
     mailbox w' = [])
  ∧ (List.find (is_update_result path) (mailbox w) = None →
     calls w' = calls w ∧ timers w' = timers w).
Proof.
  unfold update_check.
  destruct (routes w GetPing) as [msg|ok st] eqn:Ep.
  { claude_simpl. repeat split; try done. intros H. by destruct (H msg). }
  destruct (hasUpdates w) eqn:Eu.
  2:{ repeat split; try done. intros _ _. unfold hasUpdates in Eu.
      destruct (mailbox w); [done|discriminate Eu]. }
  destruct (routes w GetMessages) as [msg|ok' st'] eqn:Em.
  { claude_simpl. repeat split; try done. intros _ H. by destruct (H msg). }
  claude_simpl. destruct (List.find _ (mailbox w)) as [m|]; [|by repeat split].
  destruct (negb (truthy_bool (e_success m))); claude_simpl;
    (repeat split; try done;
     [intros c' Hc'; by apply settle_other
     |intros tm Hin H1 H2; by apply clear_subset; [apply clear_subset|]]).
Qed.

Lemma found_handle {A} (ts : list (timer A)) h tm :
  List.find (fun t => bool_decide (handle t = h)) ts = Some tm →
  tm ∈ ts ∧ handle tm = h.
Proof.
  induction ts as [|t ts IH]; [done|]. simpl. case_bool_decide as Hh.
  - intros [= ->]. split; [left|done].
  - intros [Hin ?]%IH. split; [by right|done].
Qed.

(** The event loop running an armed check: the body of the timer is the
    check, with the handle of the timer as its own. *)
Lemma exec_update_check h tm path c timeoutId w :
  List.find (fun t => bool_decide (handle t = h)) (timers w) = Some tm →
  act tm = UpdateCheck path c timeoutId →
  let w0 := set_now (N.max (now w) (due tm)) w in
  let w1 := update_check h path c timeoutId w0 in
  exec (EvTimer h) w = set_timers (rearm tm (timers w1)) w1.
Proof.
  intros Hf Ha. cbn [exec]. rewrite Hf. unfold fire, body. rewrite Ha.
  by destruct (found_handle _ _ _ Hf) as [_ ->].
Qed.

(** A timer found under a handle is found again when the list grows
    behind it or when it is the first with that handle in what is
    added. *)
Lemma find_armed (ts : list (timer action)) h tm :
  (∀ t, t ∈ ts → handle t ≠ h) → handle tm = h →
  List.find (fun t => bool_decide (handle t = h)) (ts ++ [tm]) = Some tm.
Proof.
  intros Hts Htm. induction ts as [|t ts IH]; simpl.
  - by rewrite bool_decide_eq_true_2.
  - rewrite bool_decide_eq_false_2 by (apply Hts; left).
    apply IH. intros t' Ht'. apply Hts. by right.
Qed.

Lemma execs_enqueue q w :
  execs (EvEnqueue <$> q) w = set_mailbox (mailbox w ++ q) w.
Proof.
  revert w. induction q as [|m q IH]; intros w.
  { simpl. rewrite app_nil_r. by destruct w. }
  cbn [fmap list_fmap execs foldl]. fold (execs (EvEnqueue <$> q)).
  change (foldl (fun w ev => exec ev w) (exec (EvEnqueue m) w)
            (EvEnqueue <$> q))
    with (execs (EvEnqueue <$> q) (exec (EvEnqueue m) w)).
  rewrite IH. cbn [exec]. claude_simpl. by rewrite <- app_assoc.
Qed.

(** C10.  [updateFile] arms a check interval of 1 s of its own, besides
    the interval of the poll loop.  One run of that check empties the
    mailbox whenever the relay answers, and apart from settling its own
    call and clearing its own two timers it leaves everything as it was:
    the handler tables, the observers and the record of their
    invocations, every other promise and every other timer.  Whatever it
    read besides the first [updateCodeResult] for its path has reached no
    handler and no observer, and is gone from the mailbox.

    This is what the event loop does when it runs the armed interval,
    whatever the state of the poll loop: the timer found under a handle
    whose closure is the check of [path] runs that check, and as long as
    the mailbox holds no result for [path] the call is left as it is and
    the interval stays armed.  The interval armed by [updateFile] is found
    under the second handle the call takes, so whatever reaches the
    mailbox while the call is pending is drained by it, one second after
    the call at the latest, and dispatched to nobody. *)
Theorem update_check_discards_the_rest (self : nat) (path content : string)
    (c timeoutId : nat) (w : world) :
  (∀ st, connected w = true → routes w PostInvoke = Status true st →
         timers (fst (updateFile path content w))
         = (timers w
            ++ [Timer (next_handle w) (now w + 30000) None
                  (UpdateTimeout (length (calls w)))])
           ++ [Timer (S (next_handle w)) (now w + 1000) (Some 1000%N)
                 (UpdateCheck path (length (calls w)) (next_handle w))])
  ∧ (let w' := update_check self path c timeoutId w in
     fileContentHandlers w' = fileContentHandlers w
     ∧ commandResultHandlers w' = commandResultHandlers w
     ∧ messageHandlers w' = messageHandlers w
     ∧ invoked w' = invoked w
     ∧ sent w' = sent w
     ∧ (∀ c', c' ≠ c → calls w' !! c' = calls w !! c')
     ∧ (∀ tm, tm ∈ timers w → handle tm ≠ self → handle tm ≠ timeoutId →
              tm ∈ timers w')
     ∧ ((∀ msg, routes w GetPing ≠ Throws msg) →
        (∀ msg, routes w GetMessages ≠ Throws msg) →
        mailbox w' = []))
  ∧ (∀ h tm,
       List.find (fun t => bool_decide (handle t = h)) (timers w) = Some tm →
       act tm = UpdateCheck path c timeoutId →
       let w' := exec (EvTimer h) w in
       fileContentHandlers w' = fileContentHandlers w
       ∧ commandResultHandlers w' = commandResultHandlers w
       ∧ messageHandlers w' = messageHandlers w
       ∧ invoked w' = invoked w
       ∧ sent w' = sent w
       ∧ (∀ c', c' ≠ c → calls w' !! c' = calls w !! c')
       ∧ ((∀ msg, routes w GetPing ≠ Throws msg) →
          (∀ msg, routes w GetMessages ≠ Throws msg) →
          mailbox w' = [])
       ∧ (List.find (is_update_result path) (mailbox w) = None →
          is_Some (period tm) →
          calls w' = calls w
          ∧ ∃ tm', tm' ∈ timers w' ∧ handle tm' = h
                   ∧ act tm' = UpdateCheck path c timeoutId))
  ∧ (∀ st q,
       connected w = true → routes w PostInvoke = Status true st →
       (∀ tm, tm ∈ timers w → handle tm < next_handle w) →
       let w1 := execs (EvEnqueue <$> q) (fst (updateFile path content w)) in
       let w2 := exec (EvTimer (S (next_handle w))) w1 in
       List.find (fun t => bool_decide (handle t = S (next_handle w)))
         (timers w1)
       = Some (Timer (S (next_handle w)) (now w + 1000) (Some 1000%N)
                 (UpdateCheck path (length (calls w)) (next_handle w)))
       ∧ mailbox w1 = mailbox w ++ q
       ∧ fileContentHandlers w2 = fileContentHandlers w
       ∧ commandResultHandlers w2 = commandResultHandlers w
       ∧ messageHandlers w2 = messageHandlers w
       ∧ invoked w2 = invoked w
       ∧ ((∀ msg, routes w GetPing ≠ Throws msg) →
          (∀ msg, routes w GetMessages ≠ Throws msg) →
          mailbox w2 = [])
       ∧ (List.find (is_update_result path) (mailbox w ++ q) = None →
          calls w2 = calls w ++ [Pending])).
Proof.
  split; [intros st Hc Hr; by apply (updateFile_effect path content w st)|].
  split.
  { destruct (update_check_effect self path c timeoutId w)
      as (H1 & H2 & H3 & H4 & H5 & H6 & H7 & H8 & _). by repeat split. }
  assert (∀ v h tm,
    List.find (fun t => bool_decide (handle t = h)) (timers v) = Some tm →
    ∀ c0 t0, act tm = UpdateCheck path c0 t0 →
    let v' := exec (EvTimer h) v in
    fileContentHandlers v' = fileContentHandlers v
    ∧ commandResultHandlers v' = commandResultHandlers v
    ∧ messageHandlers v' = messageHandlers v
    ∧ invoked v' = invoked v
    ∧ sent v' = sent v
    ∧ (∀ c', c' ≠ c0 → calls v' !! c' = calls v !! c')
    ∧ ((∀ msg, routes v GetPing ≠ Throws msg) →
       (∀ msg, routes v GetMessages ≠ Throws msg) →
       mailbox v' = [])
    ∧ (List.find (is_update_result path) (mailbox v) = None →
       is_Some (period tm) →
       calls v' = calls v
       ∧ ∃ tm', tm' ∈ timers v' ∧ handle tm' = h
                ∧ act tm' = UpdateCheck path c0 t0)) as Hrun.
  { intros v h tm Hf c0 t0 Ha v'. unfold v'.
    rewrite (exec_update_check h tm path c0 t0 v Hf Ha).
    destruct (update_check_effect h path c0 t0
                (set_now (N.max (now v) (due tm)) v))
      as (H1 & H2 & H3 & H4 & H5 & H6 & _ & H8 & H9).
    claude_simpl. do 7 (split; [done|]).
    intros Hnone [p Hp]. destruct (H9 Hnone) as [Hcalls Htimers].
    split; [done|]. rewrite Htimers.
    destruct (found_handle _ _ _ Hf) as [Hin Hh].
    exists (Timer (handle tm) (due tm + p) (period tm) (act tm)).
    cbn [handle act]. split; [|by split].
    unfold rearm. rewrite Hp. apply list_elem_of_fmap. exists tm.
    rewrite decide_True by done. by rewrite Hp. }
  split; [intros h tm Hf Ha; by apply (Hrun w h tm Hf c timeoutId Ha)|].
  intros st q Hc Hr Hfresh w1 w2.
  destruct (updateFile_effect path content w st Hc Hr)
    as (_ & Hcalls & _ & Htimers).
  assert (∀ v, mailbox (fst (updateFile path content v)) = mailbox v
              ∧ fileContentHandlers (fst (updateFile path content v))
                = fileContentHandlers v
              ∧ commandResultHandlers (fst (updateFile path content v))
                = commandResultHandlers v
              ∧ messageHandlers (fst (updateFile path content v))
                = messageHandlers v
              ∧ invoked (fst (updateFile path content v)) = invoked v
              ∧ routes (fst (updateFile path content v)) = routes v) as Hsame.
  { intros v. unfold updateFile, invoke.
    destruct (connected v); [|done]. claude_simpl.
    by destruct (routes v PostInvoke) as [|[]]. }
  destruct (Hsame w) as (Hm & Hfh & Hch & Hmh & Hinv & Hroutes).
  assert (List.find (fun t => bool_decide (handle t = S (next_handle w)))
            (timers w1)
          = Some (Timer (S (next_handle w)) (now w + 1000) (Some 1000%N)
                    (UpdateCheck path (length (calls w)) (next_handle w))))
    as Hfind.
  { unfold w1. rewrite execs_enqueue. claude_simpl. rewrite Htimers.
    apply find_armed; [|done]. intros t Ht.
    apply elem_of_app in Ht as [Ht|Ht%list_elem_of_singleton].
    - apply Hfresh in Ht. lia.
    - subst t. cbn [handle]. lia. }
  assert (mailbox w1 = mailbox w ++ q) as Hmail.
  { unfold w1. rewrite execs_enqueue. claude_simpl. by rewrite Hm. }
  split; [done|]. split; [done|].
  destruct (Hrun w1 _ _ Hfind _ _ eq_refl)
    as (H1 & H2 & H3 & H4 & _ & _ & H7 & H8).
  fold w2 in H1, H2, H3, H4, H7, H8.
  assert (fileContentHandlers w1 = fileContentHandlers w
          ∧ commandResultHandlers w1 = commandResultHandlers w
          ∧ messageHandlers w1 = messageHandlers w
          ∧ invoked w1 = invoked w ∧ routes w1 = routes w
          ∧ calls w1 = calls w ++ [Pending]) as (E1 & E2 & E3 & E4 & E5 & E6).
  { unfold w1. rewrite execs_enqueue. by claude_simpl. }
  rewrite H1, H2, H3, H4, E1, E2, E3, E4. do 4 (split; [done|]).
  split.
  - intros Hp Hg. apply H7; by rewrite E5.
  - intros Hnone. rewrite Hmail in H8.
    destruct (H8 Hnone ltac:(by eexists)) as [-> _]. done.
Qed.

Lemma update_check_discards_the_rest_witness :
  let w' := update_check 3 "a.txt" 1 2 busy in
  let w1 := execs (EvEnqueue <$> [content_b; changed_a])
              (fst (updateFile "a.txt" "hello" connected_client)) in
  mailbox busy = [content_b; changed_a]
  ∧ mailbox w' = []
  ∧ calls w' !! 0 = Some Pending
  ∧ fileContentHandlers w' !! "b.txt" = Some (Handler 0 1)
  ∧ invoked w' = []
  ∧ (act <$> timers (fst (updateFile "a.txt" "hello" connected_client)))
    = [PollTick; UpdateTimeout 0; UpdateCheck "a.txt" 0 1]
  ∧ mailbox w1 = [content_b; changed_a]
  ∧ mailbox (exec (EvTimer 2) w1) = []
  ∧ invoked (exec (EvTimer 2) w1) = []
  ∧ calls (exec (EvTimer 2) w1) = [Pending].
Proof.
  intros w' w1.
  destruct (update_check_discards_the_rest 3 "a.txt" "hello" 1 2 busy)
    as (_ & (Hf & _ & _ & Hi & _ & Hc & _ & Hm) & _).
  destruct (update_check_discards_the_rest 3 "a.txt" "hello" 1 2
              connected_client) as (Ht & _ & _ & Hd).
  destruct (Hd "OK" [content_b; changed_a] eq_refl eq_refl) as
    (_ & Hq & _ & _ & _ & Hinv & Hempty & Hpending).
  { intros tm Htm. apply list_elem_of_singleton in Htm. subst tm.
    cbn [handle]. vm_compute. lia. }
  split; [reflexivity|].
  split; [apply Hm; discriminate|].
  split; [exact (Hc 0 ltac:(discriminate))|].
  split; [exact (eq_trans (f_equal (fun t => t !! "b.txt") Hf) eq_refl)|].
  split; [exact Hi|].
  split; [exact (eq_trans (f_equal (fmap act) (Ht "OK" eq_refl eq_refl))
                   eq_refl)|].
  split; [exact Hq|].
  split; [apply Hempty; discriminate|].
  split; [exact Hinv|].
  apply Hpending. reflexivity.
Defined.

(** C2.  A matching [updateCodeResult] with [success: true] that reaches
    the caller's mailbox well before the deadline does not make
    [updateFile] resolve when the poll loop is the one that drains it.
    The client connects at time 0 and calls [updateFile("a.txt", "hello")]
    at 500 ms.  A result that arrives at 1800 ms is drained by the poll
    tick of 2000 ms, whose [handleMessage] only logs it: the check ticks
    find the mailbox empty and the call is rejected by its timeout at
    30.5 s.  The same result arriving at 1200 ms is drained by the check
    tick of 1500 ms and resolves the call.  Against the routes of the
    relay of the repository, which has no [/mcp/invoke], the call is
    rejected at once. *)
Theorem updateFile_reply_taken_by_poll_loop :
  (w ← race 1800; Some (calls w, mailbox w, last (console w)))
  = Some ([Rejected "Timeout waiting for file update confirmation"], [],
          Some "File update succeeded: a.txt")
  ∧ (w ← race 1200; Some (calls w))
    = Some [Resolved (VUpdate "File a.txt updated successfully")]
  ∧ snd (updateFile "a.txt" "hello" (set_routes bridge_routes connected_client))
    = Threw "Failed to update file: Not Found".
Proof. repeat split; vm_compute; reflexivity. Qed.

(** The check interval resolves the call when it is the one that reads a
    successful result for its path. *)
Lemma update_check_resolves self path c timeoutId w m :
  (∀ msg, routes w GetPing ≠ Throws msg) →
  (∀ msg, routes w GetMessages ≠ Throws msg) →
  List.find (is_update_result path) (mailbox w) = Some m →
  e_success m = Some true →
  calls w !! c = Some Pending →
  calls (update_check self path c timeoutId w) !! c
  = Some (Resolved (VUpdate ("File " +:+ path +:+ " updated successfully"))).
Proof.
  intros Hp Hm Hfind Hs Hc. unfold update_check.
  destruct (routes w GetPing) as [msg|ok st]; [by destruct (Hp msg)|].
  assert (hasUpdates w = true) as ->.
  { unfold hasUpdates. by destruct (mailbox w). }
  destruct (routes w GetMessages) as [msg|ok' st']; [by destruct (Hm msg)|].
  claude_simpl. rewrite Hfind, Hs.
  change (negb (truthy_bool (Some true))) with false. claude_simpl.
  unfold settle. rewrite Hc.
  apply list_lookup_insert_eq. by eapply lookup_lt_Some.
Qed.


End ClaudeFacts.

(** *** Observers touch nothing but the record of their calls *)

Section Observers.
Import Js Claude.

Implicit Types (w : world).

Lemma forEach_invoked hs a b w :
  ∃ l, after (forEach hs a b w) = set_invoked (invoked w ++ l) w.
Proof.
  revert w. induction hs as [|h hs IH]; intros w.
  { exists []. rewrite app_nil_r. by destruct w. }
  cbn [forEach]. destruct (ob_throws h a b) as [msg|].
  - by exists [(ob_id h, a, b)].
  - destruct (IH (set_invoked (invoked w ++ [(ob_id h, a, b)]) w)) as [l ->].
    exists ((ob_id h, a, b) :: l). claude_simpl.
    by rewrite <- app_assoc.
Qed.

Lemma notify_invoked a b w :
  ∃ l, after (notify a b w) = set_invoked (invoked w ++ l) w.
Proof. apply forEach_invoked. Qed.

Lemma notifyEach_invoked batch w :
  ∃ l, after (notifyEach batch w) = set_invoked (invoked w ++ l) w.
Proof.
  revert w. induction batch as [|msg batch IH]; intros w.
  { exists []. rewrite app_nil_r. by destruct w. }
  cbn [notifyEach].
  destruct (notify_invoked (fst msg) (snd msg) w) as [l E].
  destruct (notify (fst msg) (snd msg) w) as [w'|e w']; cbn [after] in E;
    subst w'.
  - destruct (IH (set_invoked (invoked w ++ l) w)) as [l' ->].
    exists (l ++ l'). claude_simpl. by rewrite <- app_assoc.
  - by exists l.
Qed.

End Observers.

(** *** A call whose handler was replaced *)

Section Orphans.
Import Js Claude.

Implicit Types (w : world) (m : envelope).

Variables (c t : nat).

Create HintDb orph discriminated.

Lemma orphan_fields w w' :
  calls w' = calls w → fileContentHandlers w' = fileContentHandlers w →
  commandResultHandlers w' = commandResultHandlers w → timers w' = timers w →
  orphan c t w → orphan c t w'.
Proof. unfold orphan. by intros -> -> -> ->. Qed.

Lemma orphan_set_connected b w : orphan c t w → orphan c t (set_connected b w).
Proof. by apply orphan_fields. Qed.
Lemma orphan_set_messageHandlers l w :
  orphan c t w → orphan c t (set_messageHandlers l w).
Proof. by apply orphan_fields. Qed.
Lemma orphan_set_pollInterval p w :
  orphan c t w → orphan c t (set_pollInterval p w).
Proof. by apply orphan_fields. Qed.
Lemma orphan_set_now n w : orphan c t w → orphan c t (set_now n w).
Proof. by apply orphan_fields. Qed.
Lemma orphan_set_next_handle h w :
  orphan c t w → orphan c t (set_next_handle h w).
Proof. by apply orphan_fields. Qed.
Lemma orphan_set_console l w : orphan c t w → orphan c t (set_console l w).
Proof. by apply orphan_fields. Qed.
Lemma orphan_log s w : orphan c t w → orphan c t (log s w).
Proof. by apply orphan_fields. Qed.
Lemma orphan_set_invoked l w : orphan c t w → orphan c t (set_invoked l w).
Proof. by apply orphan_fields. Qed.
Lemma orphan_notify a b w :
  orphan c t w → orphan c t (after (notify a b w)).
Proof.
  destruct (notify_invoked a b w) as [l ->]. by apply orphan_fields.
Qed.
Lemma orphan_set_unhandled l w :
  orphan c t w → orphan c t (set_unhandled l w).
Proof. by apply orphan_fields. Qed.
Lemma orphan_set_routes r w : orphan c t w → orphan c t (set_routes r w).
Proof. by apply orphan_fields. Qed.
Lemma orphan_set_mailbox q w : orphan c t w → orphan c t (set_mailbox q w).
Proof. by apply orphan_fields. Qed.
Lemma orphan_set_sent l w : orphan c t w → orphan c t (set_sent l w).
Proof. by apply orphan_fields. Qed.
Lemma orphan_post e r w : orphan c t w → orphan c t (post e r w).
Proof. by apply orphan_fields. Qed.

Lemma orphan_fresh w : orphan c t w → length (calls w) ≠ c.
Proof. intros (H%lookup_lt_Some & _). lia. Qed.

Lemma orphan_handler w k h :
  orphan c t w → fileContentHandlers w !! k = Some h → h_call h ≠ c.
Proof. intros (_ & H & _). apply H. Qed.

Lemma orphan_cmd_handler w k h :
  orphan c t w → commandResultHandlers w !! k = Some h → h_call h ≠ c.
Proof. intros (_ & _ & H & _). apply H. Qed.

Lemma orphan_clearTimer h w : orphan c t w → orphan c t (clearTimer h w).
Proof.
  intros (H1 & H2 & H3 & H4). repeat split; try done.
  intros tm [_ Hin]%list_elem_of_filter. by apply H4.
Qed.

Lemma orphan_rearm tm w :
  orphan c t w → orphan c t (set_timers (rearm tm (timers w)) w).
Proof.
  intros (H1 & H2 & H3 & H4). repeat split; try done.
  intros tm'. unfold set_timers, timers at 1, rearm.
  destruct (period tm) as [p|].
  - intros (tm0 & -> & Hin)%list_elem_of_fmap.
    case_decide; cbn [act handle]; by apply H4.
  - intros [_ Hin]%list_elem_of_filter. by apply H4.
Qed.

Lemma orphan_armed h d p a w :
  orphan c t w → ¬ refers a c →
  orphan c t (set_timers (timers w ++ [Timer h d p a]) w).
Proof.
  intros (H1 & H2 & H3 & H4) Ha. repeat split; try done.
  intros tm. unfold set_timers, timers at 1.
  intros [Hin| ->%list_elem_of_singleton]%elem_of_app; [by apply H4|done].
Qed.

Lemma orphan_newPromise w :
  orphan c t w → orphan c t (set_calls (calls w ++ [Pending]) w).
Proof.
  intros (H1 & H2 & H3 & H4). repeat split; try done.
  unfold set_calls, calls at 1. rewrite lookup_app_l; [done|].
  by eapply lookup_lt_Some.
Qed.

Lemma orphan_settle c' s w :
  orphan c t w → c' ≠ c →
  orphan c t (set_calls (settle c' s (calls w)) w).
Proof.
  intros (H1 & H2 & H3 & H4) Hc. repeat split; try done.
  unfold set_calls, calls at 1. unfold settle.
  destruct (calls w !! c') as [[]|]; try done.
  by rewrite list_lookup_insert_ne.
Qed.

Lemma orphan_resolve c' v w :
  orphan c t w → c' ≠ c → orphan c t (resolve c' v w).
Proof. apply orphan_settle. Qed.

Lemma orphan_reject c' msg w :
  orphan c t w → c' ≠ c → orphan c t (reject c' msg w).
Proof. apply orphan_settle. Qed.

Lemma orphan_delete_file k w :
  orphan c t w →
  orphan c t (set_fileContentHandlers (delete k (fileContentHandlers w)) w).
Proof.
  intros (H1 & H2 & H3 & H4). repeat split; try done.
  intros k' h. unfold set_fileContentHandlers, fileContentHandlers at 1.
  intros [_ H]%lookup_delete_Some. by eapply H2.
Qed.

Lemma orphan_delete_key_file k w :
  orphan c t w →
  orphan c t (set_fileContentHandlers
                (delete_key k (fileContentHandlers w)) w).
Proof.
  destruct k; [apply orphan_delete_file|]. by apply orphan_fields.
Qed.

Lemma orphan_delete_command k w :
  orphan c t w →
  orphan c t (set_commandResultHandlers
                (delete k (commandResultHandlers w)) w).
Proof.
  intros (H1 & H2 & H3 & H4). repeat split; try done.
  intros k' h. unfold set_commandResultHandlers, commandResultHandlers at 1.
  intros [_ H]%lookup_delete_Some. by eapply H3.
Qed.

Lemma orphan_delete_key_command k w :
  orphan c t w →
  orphan c t (set_commandResultHandlers
                (delete_key k (commandResultHandlers w)) w).
Proof.
  destruct k; [apply orphan_delete_command|]. by apply orphan_fields.
Qed.

Lemma orphan_insert_file k c' tid w :
  orphan c t w → c' ≠ c →
  orphan c t (set_fileContentHandlers
                (<[k := Handler c' tid]> (fileContentHandlers w)) w).
Proof.
  intros (H1 & H2 & H3 & H4) Hc. repeat split; try done.
  intros k' h. unfold set_fileContentHandlers, fileContentHandlers at 1.
  intros [[_ <-]|[_ H]]%lookup_insert_Some; [done|]. by eapply H2.
Qed.

Lemma orphan_insert_command k c' tid w :
  orphan c t w → c' ≠ c →
  orphan c t (set_commandResultHandlers
                (<[k := Handler c' tid]> (commandResultHandlers w)) w).
Proof.
  intros (H1 & H2 & H3 & H4) Hc. repeat split; try done.
  intros k' h. unfold set_commandResultHandlers, commandResultHandlers at 1.
  intros [[_ <-]|[_ H]]%lookup_insert_Some; [done|]. by eapply H3.
Qed.

Hint Resolve orphan_set_connected orphan_set_messageHandlers
  orphan_set_pollInterval orphan_set_now orphan_set_next_handle
  orphan_set_console orphan_log orphan_set_invoked orphan_notify
  orphan_set_unhandled orphan_set_routes orphan_set_mailbox orphan_set_sent
  orphan_post orphan_fresh orphan_clearTimer orphan_rearm orphan_armed
  orphan_newPromise orphan_resolve orphan_reject orphan_delete_file
  orphan_delete_key_file orphan_delete_command orphan_delete_key_command
  orphan_insert_file orphan_insert_command : orph.

Lemma orphan_notifyEach (batch : list (option string * option string)) w :
  orphan c t w → orphan c t (after (notifyEach batch w)).
Proof.
  destruct (notifyEach_invoked batch w) as [l ->]. by apply orphan_fields.
Qed.

Lemma orphan_handleMessage m w :
  orphan c t w → orphan c t (after (handleMessage m w)).
Proof.
  intros H. unfold handleMessage, fileHandler, cmdHandler, lookup_key.
  repeat case_match; subst; cbn [after];
    auto using orphan_notifyEach with orph;
    repeat match goal with
    | E : fileContentHandlers _ !! _ = Some _ |- _ =>
        apply (orphan_handler _ _ _ H) in E
    | E : commandResultHandlers _ !! _ = Some _ |- _ =>
        apply (orphan_cmd_handler _ _ _ H) in E
    end; auto 10 with orph.
Qed.

Lemma orphan_handleAll ms w :
  orphan c t w → orphan c t (after (handleAll ms w)).
Proof.
  revert w. induction ms as [|m ms IH]; intros w H; [done|].
  simpl. pose proof (orphan_handleMessage m w H) as Hm.
  destruct (handleMessage m w); [by apply IH|done].
Qed.

Lemma refers_PollTick : ¬ refers PollTick c.
Proof. intros []. Qed.
Lemma refers_Reconnect : ¬ refers Reconnect c.
Proof. intros []. Qed.
Lemma refers_FileTimeout p c' : c' ≠ c → ¬ refers (FileTimeout p c') c.
Proof. done. Qed.
Lemma refers_CommandTimeout p c' : c' ≠ c → ¬ refers (CommandTimeout p c') c.
Proof. done. Qed.
Lemma refers_UpdateTimeout c' : c' ≠ c → ¬ refers (UpdateTimeout c') c.
Proof. done. Qed.
Lemma refers_UpdateCheck p c' tid : c' ≠ c → ¬ refers (UpdateCheck p c' tid) c.
Proof. done. Qed.

Hint Resolve refers_PollTick refers_Reconnect refers_FileTimeout
  refers_CommandTimeout refers_UpdateTimeout refers_UpdateCheck : orph.

Lemma orphan_poll_failed msg w :
  orphan c t w → orphan c t (poll_failed msg w).
Proof.
  intros H. unfold poll_failed, setTimeout, arm.
  case_match; cbn [snd]; auto 10 with orph.
Qed.

Lemma orphan_poll_tick w : orphan c t w → orphan c t (poll_tick w).
Proof.
  intros H. unfold poll_tick, drain.
  repeat case_match; subst; auto using orphan_poll_failed with orph.
  - match goal with E : handleAll ?ms ?w0 = _ |- _ =>
      assert (orphan c t (after (handleAll ms w0))) as Ha
        by (apply orphan_handleAll; auto with orph);
      rewrite E in Ha end.
    done.
  - match goal with E : handleAll ?ms ?w0 = _ |- _ =>
      assert (orphan c t (after (handleAll ms w0))) as Ha
        by (apply orphan_handleAll; auto with orph);
      rewrite E in Ha end.
    by apply orphan_poll_failed.
Qed.

Lemma orphan_startPolling w : orphan c t w → orphan c t (startPolling w).
Proof.
  intros H. unfold startPolling, setInterval, arm.
  case_match; auto 10 with orph.
Qed.

Lemma orphan_connect_unobserved w :
  orphan c t w → orphan c t (connect_unobserved w).
Proof.
  intros H. unfold connect_unobserved, connectToServer.
  repeat case_match; simplify_eq; auto 10 using orphan_startPolling with orph.
Qed.

Lemma orphan_update_check self path c' tid w :
  c' ≠ c → orphan c t w → orphan c t (update_check self path c' tid w).
Proof.
  intros Hc H. unfold update_check, drain.
  repeat case_match; simplify_eq; auto 10 with orph.
Qed.

Lemma orphan_body tm w :
  ¬ refers (act tm) c → orphan c t w → orphan c t (body tm w).
Proof.
  intros Hr H. unfold body, fileTimeout, commandTimeout, updateTimeout.
  destruct (act tm); cbn [refers] in Hr;
    auto 10 using orphan_poll_tick, orphan_connect_unobserved,
      orphan_update_check with orph.
Qed.

Lemma orphan_invoke method ps what failed register w :
  (∀ w', orphan c t w' →
         orphan c t (register (length (calls w')) 
                       (set_calls (calls w' ++ [Pending]) w'))) →
  orphan c t w →
  orphan c t (fst (invoke method ps what failed register w)).
Proof.
  intros Hreg H. unfold invoke, newPromise.
  repeat case_match; simplify_eq; cbn [fst]; auto 10 with orph.
Qed.

Lemma orphan_send e r what failed w :
  orphan c t w → orphan c t (fst (send e r what failed w)).
Proof.
  intros H. unfold send.
  repeat case_match; simplify_eq; cbn [fst]; auto 10 with orph.
Qed.

Lemma orphan_cleanup w : orphan c t w → orphan c t (cleanup w).
Proof.
  intros H. unfold cleanup. repeat case_match; auto 10 with orph.
Qed.

(** Whatever happens next, short of its own timer firing, leaves an
    orphaned call orphaned and pending. *)
Lemma orphan_exec ev w :
  ev ≠ EvTimer t → orphan c t w → orphan c t (exec ev w).
Proof.
  intros Hev H. destruct ev; cbn [exec].
  - destruct (List.find _ (timers w)) as [tm|] eqn:E; [|done].
    apply find_some in E as [Hin Hh%bool_decide_eq_true].
    apply list_elem_of_In in Hin.
    unfold fire. apply orphan_rearm, orphan_body; [|auto with orph].
    intros Hr. destruct H as (_ & _ & _ & H4). apply H4 in Hr; [|done].
    congruence.
  - auto with orph.
  - auto with orph.
  - unfold getFile. apply orphan_invoke; [|done]. intros w' H'.
    unfold setTimeout, arm. auto 10 with orph.
  - unfold updateFile. apply orphan_invoke; [|done]. intros w' H'.
    unfold setTimeout, setInterval, arm. cbn [snd]. auto 12 with orph.
  - unfold executeCommand. apply orphan_invoke; [|done]. intros w' H'.
    unfold setTimeout, arm. auto 10 with orph.
  - by apply orphan_send.
  - by apply orphan_send.
  - unfold onMessage. auto with orph.
  - unfold unsubscribe. auto with orph.
  - by apply orphan_cleanup.
Qed.

Lemma orphan_execs evs w :
  EvTimer t ∉ evs → orphan c t w → orphan c t (execs evs w).
Proof.
  revert w. induction evs as [|ev evs IH]; intros w Hev H; [done|].
  apply not_elem_of_cons in Hev as [Hne Hev].
  unfold execs. simpl. apply IH; [done|]. by apply orphan_exec.
Qed.


End Orphans.

(** *** Closures name promises that exist *)

Section Closed.
Import Js Claude.

Implicit Types (w : world) (m : envelope).

Create HintDb clo discriminated.

Lemma closed_fields w w' :
  calls w' = calls w → fileContentHandlers w' = fileContentHandlers w →
  commandResultHandlers w' = commandResultHandlers w → timers w' = timers w →
  next_handle w' = next_handle w →
  closed w → closed w'.
Proof. unfold closed. by intros -> -> -> -> ->. Qed.

Lemma closed_set_connected b w : closed w → closed (set_connected b w).
Proof. by apply closed_fields. Qed.
Lemma closed_set_messageHandlers l w :
  closed w → closed (set_messageHandlers l w).
Proof. by apply closed_fields. Qed.
Lemma closed_set_pollInterval p w : closed w → closed (set_pollInterval p w).
Proof. by apply closed_fields. Qed.
Lemma closed_set_now n w : closed w → closed (set_now n w).
Proof. by apply closed_fields. Qed.
Lemma closed_log s w : closed w → closed (log s w).
Proof. by apply closed_fields. Qed.
Lemma closed_notify a b w : closed w → closed (after (notify a b w)).
Proof.
  destruct (notify_invoked a b w) as [l ->]. by apply closed_fields.
Qed.
Lemma closed_set_unhandled l w : closed w → closed (set_unhandled l w).
Proof. by apply closed_fields. Qed.
Lemma closed_set_routes r w : closed w → closed (set_routes r w).
Proof. by apply closed_fields. Qed.
Lemma closed_set_mailbox q w : closed w → closed (set_mailbox q w).
Proof. by apply closed_fields. Qed.
Lemma closed_post e r w : closed w → closed (post e r w).
Proof. by apply closed_fields. Qed.

Lemma closed_clearTimer h w : closed w → closed (clearTimer h w).
Proof.
  intros (H1 & H2 & H3). repeat split; try done;
    revert H; claude_simpl; intros [_ Hin]%list_elem_of_filter; by apply H3.
Qed.

Lemma closed_rearm tm w :
  closed w → closed (set_timers (rearm tm (timers w)) w).
Proof.
  intros (H1 & H2 & H3). split; [done|]. split; [done|].
  intros tm'. claude_simpl. unfold rearm. destruct (period tm) as [p|].
  - intros (tm0 & -> & Hin)%list_elem_of_fmap.
    case_decide; cbn [act handle]; by apply H3.
  - intros [_ Hin]%list_elem_of_filter. by apply H3.
Qed.

Lemma closed_arm d p a w :
  closed w → (∀ c, refers a c → c < length (calls w)) →
  closed (set_next_handle (S (next_handle w))
            (set_timers (timers w ++ [Timer (next_handle w) d p a]) w)).
Proof.
  intros (H1 & H2 & H3) Ha. split; [done|]. split; [done|].
  intros tm. claude_simpl.
  intros [Hin| ->%list_elem_of_singleton]%elem_of_app.
  - destruct (H3 _ Hin). split; [lia|done].
  - cbn [handle act]. split; [lia|done].
Qed.

Lemma closed_newPromise w :
  closed w → closed (set_calls (calls w ++ [Pending]) w).
Proof.
  intros (H1 & H2 & H3). repeat split; claude_simpl; rewrite ?length_app; simpl.
  - intros k h Hk. apply H1 in Hk. lia.
  - intros k h Hk. apply H2 in Hk. lia.
  - by apply H3.
  - intros c Hc. apply H3 in Hc; [lia|done].
Qed.

Lemma settle_length {V} c (s : settled V) cs :
  length (settle c s cs) = length cs.
Proof.
  unfold settle. destruct (cs !! c) as [[]|]; try done. apply length_insert.
Qed.

Lemma closed_settle c s w :
  closed w → closed (set_calls (settle c s (calls w)) w).
Proof.
  intros H. unfold closed. claude_simpl. by rewrite settle_length.
Qed.

Lemma closed_resolve c v w : closed w → closed (resolve c v w).
Proof. apply closed_settle. Qed.

Lemma closed_reject c msg w : closed w → closed (reject c msg w).
Proof. apply closed_settle. Qed.

Lemma closed_delete_file k w :
  closed w →
  closed (set_fileContentHandlers (delete k (fileContentHandlers w)) w).
Proof.
  intros (H1 & H2 & H3). repeat split; try done; try by apply H3.
  intros k' h. claude_simpl. intros [_ H]%lookup_delete_Some. by eapply H1.
Qed.

Lemma closed_delete_key_file k w :
  closed w →
  closed (set_fileContentHandlers (delete_key k (fileContentHandlers w)) w).
Proof. destruct k; [apply closed_delete_file|]. by apply closed_fields. Qed.

Lemma closed_delete_command k w :
  closed w →
  closed (set_commandResultHandlers (delete k (commandResultHandlers w)) w).
Proof.
  intros (H1 & H2 & H3). repeat split; try done; try by apply H3.
  intros k' h. claude_simpl. intros [_ H]%lookup_delete_Some. by eapply H2.
Qed.

Lemma closed_delete_key_command k w :
  closed w →
  closed (set_commandResultHandlers
            (delete_key k (commandResultHandlers w)) w).
Proof. destruct k; [apply closed_delete_command|]. by apply closed_fields. Qed.

Lemma closed_insert_file k c tid w :
  closed w → c < length (calls w) →
  closed (set_fileContentHandlers
            (<[k := Handler c tid]> (fileContentHandlers w)) w).
Proof.
  intros (H1 & H2 & H3) Hc. repeat split; try done; try by apply H3.
  intros k' h. claude_simpl.
  intros [[_ <-]|[_ H]]%lookup_insert_Some; [done|]. by eapply H1.
Qed.

Lemma closed_insert_command k c tid w :
  closed w → c < length (calls w) →
  closed (set_commandResultHandlers
            (<[k := Handler c tid]> (commandResultHandlers w)) w).
Proof.
  intros (H1 & H2 & H3) Hc. repeat split; try done; try by apply H3.
  intros k' h. claude_simpl.
  intros [[_ <-]|[_ H]]%lookup_insert_Some; [done|]. by eapply H2.
Qed.

Lemma no_refers_PollTick n : ∀ c, refers PollTick c → c < n.
Proof. intros c []. Qed.
Lemma no_refers_Reconnect n : ∀ c, refers Reconnect c → c < n.
Proof. intros c []. Qed.

Hint Resolve closed_set_connected closed_set_messageHandlers
  closed_set_pollInterval closed_set_now closed_log closed_notify
  closed_set_unhandled closed_set_routes closed_set_mailbox closed_post
  closed_clearTimer closed_rearm closed_arm closed_newPromise closed_resolve
  closed_reject closed_delete_file closed_delete_key_file
  closed_delete_command closed_delete_key_command closed_insert_file
  closed_insert_command no_refers_PollTick no_refers_Reconnect : clo.

Lemma closed_notifyEach (batch : list (option string * option string)) w :
  closed w → closed (after (notifyEach batch w)).
Proof.
  destruct (notifyEach_invoked batch w) as [l ->]. by apply closed_fields.
Qed.

Lemma closed_handleMessage m w : closed w → closed (after (handleMessage m w)).
Proof.
  intros H. unfold handleMessage, fileHandler, cmdHandler.
  repeat case_match; subst; cbn [after];
    auto 10 using closed_notifyEach with clo.
Qed.

Lemma closed_handleAll ms w : closed w → closed (after (handleAll ms w)).
Proof.
  revert w. induction ms as [|m ms IH]; intros w H; [done|].
  simpl. pose proof (closed_handleMessage m w H) as Hm.
  destruct (handleMessage m w); [by apply IH|done].
Qed.

Lemma closed_poll_failed msg w : closed w → closed (poll_failed msg w).
Proof.
  intros H. unfold poll_failed, setTimeout, arm.
  case_match; cbn [snd]; auto 10 with clo.
Qed.

Lemma closed_poll_tick w : closed w → closed (poll_tick w).
Proof.
  intros H. unfold poll_tick, drain.
  repeat case_match; subst; auto using closed_poll_failed with clo.
  - match goal with E : handleAll ?ms ?w0 = _ |- _ =>
      assert (closed (after (handleAll ms w0))) as Ha
        by (apply closed_handleAll; auto with clo);
      rewrite E in Ha end.
    done.
  - match goal with E : handleAll ?ms ?w0 = _ |- _ =>
      assert (closed (after (handleAll ms w0))) as Ha
        by (apply closed_handleAll; auto with clo);
      rewrite E in Ha end.
    by apply closed_poll_failed.
Qed.

Lemma closed_startPolling w : closed w → closed (startPolling w).
Proof.
  intros H. unfold startPolling, setInterval, arm.
  case_match; auto 10 with clo.
Qed.

Lemma closed_connect_unobserved w : closed w → closed (connect_unobserved w).
Proof.
  intros H. unfold connect_unobserved, connectToServer.
  repeat case_match; simplify_eq; auto 10 using closed_startPolling with clo.
Qed.

Lemma closed_update_check self path c tid w :
  closed w → closed (update_check self path c tid w).
Proof.
  intros H. unfold update_check, drain.
  repeat case_match; simplify_eq; auto 10 with clo.
Qed.

Lemma closed_body tm w : closed w → closed (body tm w).
Proof.
  intros H. unfold body, fileTimeout, commandTimeout, updateTimeout.
  destruct (act tm);
    auto 10 using closed_poll_tick, closed_connect_unobserved,
      closed_update_check with clo.
Qed.

Lemma closed_invoke method ps what failed register w :
  (∀ w', closed w' →
         closed (register (length (calls w'))
                   (set_calls (calls w' ++ [Pending]) w'))) →
  closed w → closed (fst (invoke method ps what failed register w)).
Proof.
  intros Hreg H. unfold invoke, newPromise.
  repeat case_match; simplify_eq; cbn [fst]; auto 10 with clo.
Qed.

Lemma closed_send e r what failed w :
  closed w → closed (fst (send e r what failed w)).
Proof.
  intros H. unfold send.
  repeat case_match; simplify_eq; cbn [fst]; auto 10 with clo.
Qed.

Lemma closed_cleanup w : closed w → closed (cleanup w).
Proof. intros H. unfold cleanup. repeat case_match; auto 10 with clo. Qed.

Ltac fresh_call :=
  intros; cbn [refers] in *; subst; claude_simpl; rewrite ?length_app;
  simpl; lia.

Lemma closed_exec ev w : closed w → closed (exec ev w).
Proof.
  intros H. destruct ev; cbn [exec].
  - destruct (List.find _ (timers w)) as [tm|] eqn:E; [|done].
    unfold fire. apply closed_rearm, closed_body. auto with clo.
  - auto with clo.
  - auto with clo.
  - unfold getFile. apply closed_invoke; [|done]. intros w' H'.
    unfold setTimeout, arm.
    apply closed_insert_file; [|fresh_call].
    apply closed_arm; [auto with clo|fresh_call].
  - unfold updateFile. apply closed_invoke; [|done]. intros w' H'.
    unfold setTimeout, setInterval, arm. cbn [snd].
    apply closed_arm; [|fresh_call].
    apply closed_arm; [auto with clo|fresh_call].
  - unfold executeCommand. apply closed_invoke; [|done]. intros w' H'.
    unfold setTimeout, arm.
    apply closed_insert_command; [|fresh_call].
    apply closed_arm; [auto with clo|fresh_call].
  - by apply closed_send.
  - by apply closed_send.
  - unfold onMessage. auto with clo.
  - unfold unsubscribe. auto with clo.
  - by apply closed_cleanup.
Qed.

Lemma closed_fresh url r up q : closed (fresh url r up q).
Proof.
  split; [done|]. split; [done|]. intros tm H. by apply elem_of_nil in H.
Qed.

(** Every state a client can reach is closed. *)
Lemma closed_reachable url r up q evs :
  closed (execs evs (constructor url r up q)).
Proof.
  assert (closed (constructor url r up q)) as H.
  { apply closed_connect_unobserved, closed_fresh. }
  revert H. generalize (constructor url r up q).
  induction evs as [|ev evs IH]; intros w H; [done|].
  unfold execs. simpl. apply IH. by apply closed_exec.
Qed.


End Closed.

(** *** A call and the closures that can settle it *)

Section Held.
Import Js Claude.

Implicit Types (w : world) (m : envelope).

Variables (c t : nat) (fk ck : option string).

Create HintDb held discriminated.

Lemma held_fields w w' :
  calls w' = calls w → fileContentHandlers w' = fileContentHandlers w →
  commandResultHandlers w' = commandResultHandlers w → timers w' = timers w →
  held c t fk ck w → held c t fk ck w'.
Proof. unfold held. by intros -> -> -> ->. Qed.

Lemma held_set_connected b w :
  held c t fk ck w → held c t fk ck (set_connected b w).
Proof. by apply held_fields. Qed.
Lemma held_set_messageHandlers l w :
  held c t fk ck w → held c t fk ck (set_messageHandlers l w).
Proof. by apply held_fields. Qed.
Lemma held_set_pollInterval p w :
  held c t fk ck w → held c t fk ck (set_pollInterval p w).
Proof. by apply held_fields. Qed.
Lemma held_set_now n w : held c t fk ck w → held c t fk ck (set_now n w).
Proof. by apply held_fields. Qed.
Lemma held_set_next_handle h w :
  held c t fk ck w → held c t fk ck (set_next_handle h w).
Proof. by apply held_fields. Qed.
Lemma held_log s w : held c t fk ck w → held c t fk ck (log s w).
Proof. by apply held_fields. Qed.
Lemma held_notify a b w :
  held c t fk ck w → held c t fk ck (after (notify a b w)).
Proof.
  destruct (notify_invoked a b w) as [l ->]. by apply held_fields.
Qed.
Lemma held_set_unhandled l w :
  held c t fk ck w → held c t fk ck (set_unhandled l w).
Proof. by apply held_fields. Qed.
Lemma held_set_routes r w :
  held c t fk ck w → held c t fk ck (set_routes r w).
Proof. by apply held_fields. Qed.
Lemma held_set_mailbox q w :
  held c t fk ck w → held c t fk ck (set_mailbox q w).
Proof. by apply held_fields. Qed.
Lemma held_post e r w : held c t fk ck w → held c t fk ck (post e r w).
Proof. by apply held_fields. Qed.

Lemma held_fresh w : held c t fk ck w → length (calls w) ≠ c.
Proof. intros (H & _). lia. Qed.

Lemma held_clearTimer h w :
  held c t fk ck w → held c t fk ck (clearTimer h w).
Proof.
  intros (H1 & H2 & H3 & H4). split; [done|]. split; [done|].
  split; [done|]. claude_simpl.
  intros tm [_ Hin]%list_elem_of_filter. by apply H4.
Qed.

Lemma held_rearm tm w :
  held c t fk ck w → held c t fk ck (set_timers (rearm tm (timers w)) w).
Proof.
  intros (H1 & H2 & H3 & H4). split; [done|]. split; [done|].
  split; [done|]. claude_simpl.
  intros tm' (tm0 & Hin & -> & ->)%rearm_inv. by apply H4.
Qed.

Lemma held_armed h d p a w :
  held c t fk ck w → ¬ refers a c →
  held c t fk ck (set_timers (timers w ++ [Timer h d p a]) w).
Proof.
  intros (H1 & H2 & H3 & H4) Ha. split; [done|]. split; [done|].
  split; [done|]. claude_simpl. intros tm.
  intros [Hin| ->%list_elem_of_singleton]%elem_of_app; [by apply H4|done].
Qed.

Lemma held_newPromise w :
  held c t fk ck w → held c t fk ck (set_calls (calls w ++ [Pending]) w).
Proof.
  intros (H1 & H2 & H3 & H4). split; [|done]. claude_simpl.
  rewrite length_app. lia.
Qed.

Lemma held_settle c' s w :
  held c t fk ck w → held c t fk ck (set_calls (settle c' s (calls w)) w).
Proof.
  intros (H1 & H2 & H3 & H4). split; [|done]. claude_simpl.
  by rewrite settle_length.
Qed.

Lemma held_resolve c' v w : held c t fk ck w → held c t fk ck (resolve c' v w).
Proof. apply held_settle. Qed.

Lemma held_reject c' msg w :
  held c t fk ck w → held c t fk ck (reject c' msg w).
Proof. apply held_settle. Qed.

Lemma held_delete_file k w :
  held c t fk ck w →
  held c t fk ck
    (set_fileContentHandlers (delete k (fileContentHandlers w)) w).
Proof.
  intros (H1 & H2 & H3 & H4). split; [done|]. split; [|done].
  intros k' h. claude_simpl. intros [_ H]%lookup_delete_Some. by eapply H2.
Qed.

Lemma held_delete_key_file k w :
  held c t fk ck w →
  held c t fk ck
    (set_fileContentHandlers (delete_key k (fileContentHandlers w)) w).
Proof. destruct k; [apply held_delete_file|]. by apply held_fields. Qed.

Lemma held_delete_command k w :
  held c t fk ck w →
  held c t fk ck
    (set_commandResultHandlers (delete k (commandResultHandlers w)) w).
Proof.
  intros (H1 & H2 & H3 & H4). split; [done|]. split; [done|].
  split; [|done].
  intros k' h. claude_simpl. intros [_ H]%lookup_delete_Some. by eapply H3.
Qed.

Lemma held_delete_key_command k w :
  held c t fk ck w →
  held c t fk ck
    (set_commandResultHandlers (delete_key k (commandResultHandlers w)) w).
Proof. destruct k; [apply held_delete_command|]. by apply held_fields. Qed.

Lemma held_insert_file k c' tid w :
  held c t fk ck w → c' ≠ c →
  held c t fk ck
    (set_fileContentHandlers
       (<[k := Handler c' tid]> (fileContentHandlers w)) w).
Proof.
  intros (H1 & H2 & H3 & H4) Hc. split; [done|]. split; [|done].
  intros k' h. claude_simpl.
  intros [[_ <-]|[_ H]]%lookup_insert_Some; [done|]. by eapply H2.
Qed.

Lemma held_insert_command k c' tid w :
  held c t fk ck w → c' ≠ c →
  held c t fk ck
    (set_commandResultHandlers
       (<[k := Handler c' tid]> (commandResultHandlers w)) w).
Proof.
  intros (H1 & H2 & H3 & H4) Hc. split; [done|]. split; [done|].
  split; [|done].
  intros k' h. claude_simpl.
  intros [[_ <-]|[_ H]]%lookup_insert_Some; [done|]. by eapply H3.
Qed.

Hint Resolve held_set_connected held_set_messageHandlers
  held_set_pollInterval held_set_now held_set_next_handle held_log
  held_notify held_set_unhandled held_set_routes held_set_mailbox held_post
  held_fresh held_clearTimer held_rearm held_armed held_newPromise
  held_resolve held_reject held_delete_file held_delete_key_file
  held_delete_command held_delete_key_command held_insert_file
  held_insert_command refers_PollTick refers_Reconnect refers_FileTimeout
  refers_CommandTimeout refers_UpdateTimeout refers_UpdateCheck : held.

Lemma held_notifyEach (batch : list (option string * option string)) w :
  held c t fk ck w → held c t fk ck (after (notifyEach batch w)).
Proof.
  destruct (notifyEach_invoked batch w) as [l ->]. by apply held_fields.
Qed.

Lemma held_handleMessage m w :
  held c t fk ck w → held c t fk ck (after (handleMessage m w)).
Proof.
  intros H. unfold handleMessage, fileHandler, cmdHandler.
  repeat case_match; subst; cbn [after];
    auto 10 using held_notifyEach with held.
Qed.

Lemma held_handleAll ms w :
  held c t fk ck w → held c t fk ck (after (handleAll ms w)).
Proof.
  revert w. induction ms as [|m ms IH]; intros w H; [done|].
  simpl. pose proof (held_handleMessage m w H) as Hm.
  destruct (handleMessage m w); [by apply IH|done].
Qed.

Lemma held_poll_failed msg w :
  held c t fk ck w → held c t fk ck (poll_failed msg w).
Proof.
  intros H. unfold poll_failed, setTimeout, arm.
  case_match; cbn [snd]; auto 10 with held.
Qed.

Lemma held_poll_tick w : held c t fk ck w → held c t fk ck (poll_tick w).
Proof.
  intros H. unfold poll_tick, drain.
  repeat case_match; subst; auto using held_poll_failed with held.
  - match goal with E : handleAll ?ms ?w0 = _ |- _ =>
      assert (held c t fk ck (after (handleAll ms w0))) as Ha
        by (apply held_handleAll; auto with held);
      rewrite E in Ha end.
    done.
  - match goal with E : handleAll ?ms ?w0 = _ |- _ =>
      assert (held c t fk ck (after (handleAll ms w0))) as Ha
        by (apply held_handleAll; auto with held);
      rewrite E in Ha end.
    by apply held_poll_failed.
Qed.

Lemma held_startPolling w :
  held c t fk ck w → held c t fk ck (startPolling w).
Proof.
  intros H. unfold startPolling, setInterval, arm.
  case_match; auto 10 with held.
Qed.

Lemma held_connect_unobserved w :
  held c t fk ck w → held c t fk ck (connect_unobserved w).
Proof.
  intros H. unfold connect_unobserved, connectToServer.
  repeat case_match; simplify_eq; auto 10 using held_startPolling with held.
Qed.

Lemma held_update_check self path c' tid w :
  held c t fk ck w → held c t fk ck (update_check self path c' tid w).
Proof.
  intros H. unfold update_check, drain.
  repeat case_match; simplify_eq; auto 10 with held.
Qed.

Lemma held_body tm w : held c t fk ck w → held c t fk ck (body tm w).
Proof.
  intros H. unfold body, fileTimeout, commandTimeout, updateTimeout.
  destruct (act tm);
    auto 10 using held_poll_tick, held_connect_unobserved,
      held_update_check with held.
Qed.

Lemma held_invoke method ps what failed register w :
  (∀ w', held c t fk ck w' →
         held c t fk ck (register (length (calls w'))
                           (set_calls (calls w' ++ [Pending]) w'))) →
  held c t fk ck w →
  held c t fk ck (fst (invoke method ps what failed register w)).
Proof.
  intros Hreg H. unfold invoke, newPromise.
  repeat case_match; simplify_eq; cbn [fst]; auto 10 with held.
Qed.

Lemma held_send e r what failed w :
  held c t fk ck w → held c t fk ck (fst (send e r what failed w)).
Proof.
  intros H. unfold send.
  repeat case_match; simplify_eq; cbn [fst]; auto 10 with held.
Qed.

Lemma held_cleanup w : held c t fk ck w → held c t fk ck (cleanup w).
Proof. intros H. unfold cleanup. repeat case_match; auto 10 with held. Qed.

Lemma held_exec ev w : held c t fk ck w → held c t fk ck (exec ev w).
Proof.
  intros H. destruct ev; cbn [exec].
  - destruct (List.find _ (timers w)) as [tm|] eqn:E; [|done].
    unfold fire. apply held_rearm, held_body. auto with held.
  - auto with held.
  - auto with held.
  - unfold getFile. apply held_invoke; [|done]. intros w' H'.
    unfold setTimeout, arm. auto 10 with held.
  - unfold updateFile. apply held_invoke; [|done]. intros w' H'.
    unfold setTimeout, setInterval, arm. cbn [snd]. auto 12 with held.
  - unfold executeCommand. apply held_invoke; [|done]. intros w' H'.
    unfold setTimeout, arm. auto 10 with held.
  - by apply held_send.
  - by apply held_send.
  - unfold onMessage. auto with held.
  - unfold unsubscribe. auto with held.
  - by apply held_cleanup.
Qed.

Lemma held_execs evs w : held c t fk ck w → held c t fk ck (execs evs w).
Proof.
  revert w. induction evs as [|ev evs IH]; intros w H; [done|].
  unfold execs. simpl. apply IH. by apply held_exec.
Qed.

End Held.

Section Overwrite.
Import Js Claude.

Implicit Types (w : world) (m : envelope).

(** What a correlated call leaves behind when the relay accepts it. *)
Lemma getFile_effect key w st :
  connected w = true → routes w PostInvoke = Status true st →
  snd (getFile key w) = Awaiting (length (calls w))
  ∧ connected (fst (getFile key w)) = true
  ∧ routes (fst (getFile key w)) = routes w
  ∧ calls (fst (getFile key w)) = calls w ++ [Pending]
  ∧ next_handle (fst (getFile key w)) = S (next_handle w)
  ∧ timers (fst (getFile key w))
    = timers w ++ [Timer (next_handle w) (now w + fileTimeoutTime) None
                     (FileTimeout key (length (calls w)))]
  ∧ fileContentHandlers (fst (getFile key w))
    = <[key := Handler (length (calls w)) (next_handle w)]>
        (fileContentHandlers w)
  ∧ commandResultHandlers (fst (getFile key w)) = commandResultHandlers w.
Proof.
  intros Hc Hr. unfold getFile, invoke. rewrite Hc. claude_simpl. rewrite Hr.
  claude_simpl. done.
Qed.

Lemma executeCommand_effect key w st :
  connected w = true → routes w PostInvoke = Status true st →
  snd (executeCommand key w) = Awaiting (length (calls w))
  ∧ connected (fst (executeCommand key w)) = true
  ∧ routes (fst (executeCommand key w)) = routes w
  ∧ calls (fst (executeCommand key w)) = calls w ++ [Pending]
  ∧ next_handle (fst (executeCommand key w)) = S (next_handle w)
  ∧ timers (fst (executeCommand key w))
    = timers w ++ [Timer (next_handle w) (now w + commandTimeoutTime) None
                     (CommandTimeout key (length (calls w)))]
  ∧ commandResultHandlers (fst (executeCommand key w))
    = <[key := Handler (length (calls w)) (next_handle w)]>
        (commandResultHandlers w)
  ∧ fileContentHandlers (fst (executeCommand key w)) = fileContentHandlers w.
Proof.
  intros Hc Hr. unfold executeCommand, invoke. rewrite Hc. claude_simpl. rewrite Hr.
  claude_simpl. done.
Qed.

Lemma find_app_none {A} (f : A → bool) (l1 l2 : list A) :
  (∀ x, x ∈ l1 → f x = false) → List.find f (l1 ++ l2) = List.find f l2.
Proof.
  induction l1 as [|x l1 IH]; intros H; [done|]. simpl.
  rewrite (H x) by left. apply IH. intros y Hy. apply H. by right.
Qed.

Lemma own_timer_found w tm ts :
  closed w → handle tm = next_handle w →
  List.find (fun t => bool_decide (handle t = next_handle w))
    ((timers w ++ [tm]) ++ ts) = Some tm.
Proof.
  intros (_ & _ & H3) Hh. rewrite <- app_assoc, find_app_none.
  - simpl. by rewrite bool_decide_eq_true_2.
  - intros x [Hx _]%H3. apply bool_decide_eq_false_2. lia.
Qed.

(** Right after its registration a call can be settled by its own entry
    and its own timeout only. *)
Lemma held_after_getFile key w st :
  closed w → connected w = true → routes w PostInvoke = Status true st →
  held (length (calls w)) (next_handle w) (Some key) None
    (fst (getFile key w)).
Proof.
  intros (H1 & H2 & H3) Hc Hr.
  destruct (getFile_effect key w st Hc Hr)
    as (_ & _ & _ & Hk & _ & Ht & Hf & Hm).
  split; [|split; [|split]].
  - rewrite Hk, length_app. simpl. lia.
  - intros k h. rewrite Hf.
    intros [[<- _]|[_ Hl%H1]]%lookup_insert_Some; [done|lia].
  - intros k h. rewrite Hm. intros Hl%H2. lia.
  - intros tm. rewrite Ht.
    intros [Hin| ->%list_elem_of_singleton]%elem_of_app; [|done].
    intros Hr'. apply H3 in Hr'; [lia|done].
Qed.

Lemma held_after_executeCommand key w st :
  closed w → connected w = true → routes w PostInvoke = Status true st →
  held (length (calls w)) (next_handle w) None (Some key)
    (fst (executeCommand key w)).
Proof.
  intros (H1 & H2 & H3) Hc Hr.
  destruct (executeCommand_effect key w st Hc Hr)
    as (_ & _ & _ & Hk & _ & Ht & Hf & Hm).
  split; [|split; [|split]].
  - rewrite Hk, length_app. simpl. lia.
  - intros k h. rewrite Hm. intros Hl%H1. lia.
  - intros k h. rewrite Hf.
    intros [[<- _]|[_ Hl%H2]]%lookup_insert_Some; [done|lia].
  - intros tm. rewrite Ht.
    intros [Hin| ->%list_elem_of_singleton]%elem_of_app; [|done].
    intros Hr'. apply H3 in Hr'; [lia|done].
Qed.

(** A second registration under the key of a pending call leaves that call
    an orphan of its timeout. *)
Lemma orphan_after_getFile c t key w st :
  held c t (Some key) None w → calls w !! c = Some Pending →
  connected w = true → routes w PostInvoke = Status true st →
  orphan c t (fst (getFile key w)).
Proof.
  intros (H1 & H2 & H3 & H4) Hp Hc Hr.
  destruct (getFile_effect key w st Hc Hr)
    as (_ & _ & _ & Hk & _ & Ht & Hf & Hm).
  split; [|split; [|split]].
  - rewrite Hk. by rewrite lookup_app_l.
  - intros k h. rewrite Hf.
    intros [[<- <-]|[Hne Hl]]%lookup_insert_Some; cbn [h_call]; [lia|].
    intros Hh. apply (H2 _ _ Hl) in Hh. congruence.
  - intros k h. rewrite Hm. intros Hl Hh. by apply (H3 _ _ Hl) in Hh.
  - intros tm. rewrite Ht.
    intros [Hin| ->%list_elem_of_singleton]%elem_of_app; [by apply H4|].
    cbn [act refers]. lia.
Qed.

Lemma orphan_after_executeCommand c t key w st :
  held c t None (Some key) w → calls w !! c = Some Pending →
  connected w = true → routes w PostInvoke = Status true st →
  orphan c t (fst (executeCommand key w)).
Proof.
  intros (H1 & H2 & H3 & H4) Hp Hc Hr.
  destruct (executeCommand_effect key w st Hc Hr)
    as (_ & _ & _ & Hk & _ & Ht & Hf & Hm).
  split; [|split; [|split]].
  - rewrite Hk. by rewrite lookup_app_l.
  - intros k h. rewrite Hm. intros Hl Hh. by apply (H2 _ _ Hl) in Hh.
  - intros k h. rewrite Hf.
    intros [[<- <-]|[Hne Hl]]%lookup_insert_Some; cbn [h_call]; [lia|].
    intros Hh. apply (H3 _ _ Hl) in Hh. congruence.
  - intros tm. rewrite Ht.
    intros [Hin| ->%list_elem_of_singleton]%elem_of_app; [by apply H4|].
    cbn [act refers]. lia.
Qed.

Lemma own_file_timeout key w st :
  closed w → connected w = true → routes w PostInvoke = Status true st →
  calls (exec (EvTimer (next_handle w))
           (fst (getFile key (fst (getFile key w))))) !! length (calls w)
  = Some (Rejected "Timeout waiting for file content").
Proof.
  intros Hcl Hc Hr.
  destruct (getFile_effect key w st Hc Hr)
    as (_ & Hc1 & Hr1 & Hk1 & _ & Ht1 & _ & _).
  remember (fst (getFile key w)) as w1 eqn:Ew1.
  rewrite <- Hr1 in Hr.
  destruct (getFile_effect key w1 st Hc1 Hr)
    as (_ & _ & _ & Hk2 & _ & Ht2 & _ & _).
  remember (fst (getFile key w1)) as w2 eqn:Ew2.
  rewrite Ht1 in Ht2. rewrite Hk1 in Hk2.
  cbn [exec].
  rewrite Ht2, (own_timer_found w (Timer (next_handle w) _ _ _) _ Hcl eq_refl).
  unfold fire, body, fileTimeout. cbn [act handle due period]. claude_simpl.
  assert (calls w2 !! length (calls w) = Some Pending) as Hp.
  { rewrite Hk2, <- app_assoc. by apply list_lookup_middle. }
  unfold settle. rewrite Hp. apply list_lookup_insert_eq.
  by eapply lookup_lt_Some.
Qed.

Lemma own_command_timeout key w st :
  closed w → connected w = true → routes w PostInvoke = Status true st →
  calls (exec (EvTimer (next_handle w))
           (fst (executeCommand key (fst (executeCommand key w)))))
    !! length (calls w)
  = Some (Rejected "Timeout waiting for command result").
Proof.
  intros Hcl Hc Hr.
  destruct (executeCommand_effect key w st Hc Hr)
    as (_ & Hc1 & Hr1 & Hk1 & _ & Ht1 & _ & _).
  remember (fst (executeCommand key w)) as w1 eqn:Ew1.
  rewrite <- Hr1 in Hr.
  destruct (executeCommand_effect key w1 st Hc1 Hr)
    as (_ & _ & _ & Hk2 & _ & Ht2 & _ & _).
  remember (fst (executeCommand key w1)) as w2 eqn:Ew2.
  rewrite Ht1 in Ht2. rewrite Hk1 in Hk2.
  cbn [exec].
  rewrite Ht2, (own_timer_found w (Timer (next_handle w) _ _ _) _ Hcl eq_refl).
  unfold fire, body, commandTimeout. cbn [act handle due period].
  claude_simpl.
  assert (calls w2 !! length (calls w) = Some Pending) as Hp.
  { rewrite Hk2, <- app_assoc. by apply list_lookup_middle. }
  unfold settle. rewrite Hp. apply list_lookup_insert_eq.
  by eapply lookup_lt_Some.
Qed.

(** C5.  A correlated call stores its completion handler under its key,
    and the table holds one handler per key.  When a second [getFile] for
    the same path (or a second [executeCommand] for the same command) is
    registered while the promise of the first is still pending, whatever
    happened in between, the entry of the key becomes the handler of the
    second call and no entry of the table can settle the first call any
    more: its promise stays pending through every sequence of events in
    which its own timeout does not fire.  Its own timeout rejects it
    (shown for a second call that follows the first at once). *)
Theorem second_call_replaces_first (w : world) (key st st' : string)
    (evs : list event) :
  closed w → connected w = true → routes w PostInvoke = Status true st →
  let c1 := length (calls w) in
  let t1 := next_handle w in
  (let w0 := fst (getFile key w) in
   let w1 := execs evs w0 in
   let w2 := fst (getFile key w1) in
   snd (getFile key w) = Awaiting c1
   ∧ fileContentHandlers w0 !! key = Some (Handler c1 t1)
   ∧ (calls w1 !! c1 = Some Pending → connected w1 = true →
      routes w1 PostInvoke = Status true st' →
      snd (getFile key w1) = Awaiting (length (calls w1))
      ∧ c1 < length (calls w1)
      ∧ fileContentHandlers w2 !! key
        = Some (Handler (length (calls w1)) (next_handle w1))
      ∧ (∀ k h, fileContentHandlers w2 !! k = Some h → h_call h ≠ c1)
      ∧ (∀ evs', EvTimer t1 ∉ evs' →
                 calls (execs evs' w2) !! c1 = Some Pending))
   ∧ calls (exec (EvTimer t1) (fst (getFile key w0))) !! c1
     = Some (Rejected "Timeout waiting for file content"))
  ∧ (let w0 := fst (executeCommand key w) in
     let w1 := execs evs w0 in
     let w2 := fst (executeCommand key w1) in
     snd (executeCommand key w) = Awaiting c1
     ∧ commandResultHandlers w0 !! key = Some (Handler c1 t1)
     ∧ (calls w1 !! c1 = Some Pending → connected w1 = true →
        routes w1 PostInvoke = Status true st' →
        snd (executeCommand key w1) = Awaiting (length (calls w1))
        ∧ c1 < length (calls w1)
        ∧ commandResultHandlers w2 !! key
          = Some (Handler (length (calls w1)) (next_handle w1))
        ∧ (∀ k h, commandResultHandlers w2 !! k = Some h → h_call h ≠ c1)
        ∧ (∀ evs', EvTimer t1 ∉ evs' →
                   calls (execs evs' w2) !! c1 = Some Pending))
     ∧ calls (exec (EvTimer t1) (fst (executeCommand key w0))) !! c1
       = Some (Rejected "Timeout waiting for command result")).
Proof.
  intros Hcl Hc Hr. cbv zeta. split.
  - destruct (getFile_effect key w st Hc Hr) as (Hs & _ & _ & _ & _ & _ & Hf & _).
    split; [done|]. split; [by rewrite Hf, lookup_insert_eq|].
    split; [|by eapply own_file_timeout].
    intros Hp Hc1 Hr1.
    pose proof (held_execs _ _ _ _ evs _
                  (held_after_getFile key w st Hcl Hc Hr)) as Hh.
    pose proof (orphan_after_getFile _ _ key _ st' Hh Hp Hc1 Hr1) as Ho.
    destruct (getFile_effect key _ st' Hc1 Hr1)
      as (Hs2 & _ & _ & _ & _ & _ & Hf2 & _).
    split; [done|]. split; [by eapply lookup_lt_Some|].
    split; [by rewrite Hf2, lookup_insert_eq|].
    split; [apply Ho|].
    intros evs' Hev. by apply (orphan_execs _ _ evs' _ Hev Ho).
  - destruct (executeCommand_effect key w st Hc Hr)
      as (Hs & _ & _ & _ & _ & _ & Hf & _).
    split; [done|]. split; [by rewrite Hf, lookup_insert_eq|].
    split; [|by eapply own_command_timeout].
    intros Hp Hc1 Hr1.
    pose proof (held_execs _ _ _ _ evs _
                  (held_after_executeCommand key w st Hcl Hc Hr)) as Hh.
    pose proof (orphan_after_executeCommand _ _ key _ st' Hh Hp Hc1 Hr1)
      as Ho.
    destruct (executeCommand_effect key _ st' Hc1 Hr1)
      as (Hs2 & _ & _ & _ & _ & _ & Hf2 & _).
    split; [done|]. split; [by eapply lookup_lt_Some|].
    split; [by rewrite Hf2, lookup_insert_eq|].
    split; [apply Ho|].
    intros evs' Hev. by apply (orphan_execs _ _ evs' _ Hev Ho).
Qed.

Lemma second_call_replaces_first_witness :
  let w1 := execs [EvEnqueue changed_a; EvTimer 0]
              (fst (getFile "b.txt" connected_client)) in
  let w2 := fst (getFile "b.txt" w1) in
  fileContentHandlers w2 !! "b.txt" = Some (Handler 1 2)
  ∧ calls (execs [EvEnqueue content_b; EvTimer 0] w2) !! 0 = Some Pending
  ∧ calls (exec (EvTimer 1)
             (fst (getFile "b.txt" (fst (getFile "b.txt" connected_client)))))
      !! 0
    = Some (Rejected "Timeout waiting for file content").
Proof.
  intros w1 w2.
  destruct (second_call_replaces_first connected_client "b.txt" "OK" "OK"
              [EvEnqueue changed_a; EvTimer 0]
              (closed_reachable localhost all_ok "1.00" [] [])
              eq_refl eq_refl) as ((_ & _ & H3 & H4) & _).
  destruct (H3 eq_refl eq_refl eq_refl) as (_ & _ & H5 & _ & H6).
  split; [exact H5|]. split; [|exact H4].
  apply (H6 [EvEnqueue content_b; EvTimer 0]).
  intros H. apply elem_of_cons in H as [H|H]; [discriminate H|].
  apply elem_of_cons in H as [H|H]; [discriminate H|].
  by apply elem_of_nil in H.
Defined.

End Overwrite.

(** ** Both clients *)

Section BothClients.
Import Js.

(** C4 (amended).  While the [connected] flag is false, [getFile],
    [updateFile], [executeCommand], [sendMessage] and [sendFile] of the
    Claude-side client and [sendMessage] and [sendFile] of the Cline-side
    client are rejected at once with [Not connected to bridge server], and
    [notifyFileChanged] returns without an error; none of them changes the
    state, so nothing is posted to the relay and nothing is logged. *)
Theorem disconnected_calls_enqueue_nothing
    (w : Claude.world) (v : Cline.world) (a b : string) :
  Claude.connected w = false → Cline.connected v = false →
  Claude.getFile a w = (w, Threw not_connected)
  ∧ Claude.updateFile a b w = (w, Threw not_connected)
  ∧ Claude.executeCommand a w = (w, Threw not_connected)
  ∧ Claude.sendMessage a w = (w, Threw not_connected)
  ∧ Claude.sendFile a b w = (w, Threw not_connected)
  ∧ Cline.sendMessage a v = (v, Threw not_connected)
  ∧ Cline.sendFile a b v = (v, Threw not_connected)
  ∧ Cline.notifyFileChanged a b v = (v, Returned Cline.VUndefined).
Proof.
  intros Hw Hv.
  unfold Claude.getFile, Claude.updateFile, Claude.executeCommand,
    Claude.invoke, Claude.sendMessage, Claude.sendFile, Claude.send,
    Cline.sendMessage, Cline.sendFile, Cline.send, Cline.notifyFileChanged.
  rewrite Hw, Hv. by repeat split.
Qed.

Lemma disconnected_calls_enqueue_nothing_witness :
  let w := Claude.fresh Claude.localhost Claude.all_ok "1.00" [] in
  let v := Cline.fresh Cline.failing Cline.all_ok "1.00" [] in
  Claude.getFile "a.txt" w = (w, Threw not_connected)
  ∧ Cline.notifyFileChanged "a.txt" "hello" v = (v, Returned Cline.VUndefined).
Proof.
  intros w v.
  destruct (disconnected_calls_enqueue_nothing w v "a.txt" "hello"
              eq_refl eq_refl) as (H1 & _ & _ & _ & _ & _ & _ & H8).
  split; [exact H1|exact H8].
Defined.

(** The claim as stated fails for [notifyFileChanged]: on a disconnected
    client it completes normally, with no error. *)
Lemma notifyFileChanged_disconnected_is_silent :
  let v := Cline.fresh Cline.failing Cline.all_ok "1.00" [] in
  Cline.connected v = false
  ∧ snd (Cline.notifyFileChanged "a.txt" "hello" v) = Returned Cline.VUndefined
  ∧ snd (Cline.notifyFileChanged "a.txt" "hello" v) ≠ Threw not_connected.
Proof. by repeat split. Qed.

(** C3.  What constructing a client leaves behind when the handshake
    fails, for both clients.  When the liveness route answers with an
    error status, the only line logged is the one that announces the
    attempt: no error is reported.  When the relay cannot be reached, the
    actionable text is logged and the error is thrown again inside
    [connectToServer], whose promise the constructor has dropped: the
    rejection has no handler.  The client stays disconnected in both
    cases. *)
Theorem handshake_failure_is_silent_or_rethrown :
  let quiet := Cline.constructor Cline.failing Cline.status_500 "1.00" [] in
  let down := Cline.constructor Cline.failing Cline.unreachable "1.00" [] in
  let quiet' :=
    Claude.constructor Claude.localhost Claude.status_500 "1.00" [] in
  let down' :=
    Claude.constructor Claude.localhost Claude.unreachable "1.00" [] in
  (Cline.connected quiet = false
   ∧ Cline.logged quiet
     = ["Connecting to bridge server at http://localhost:2612..."]
   ∧ Cline.unhandled quiet = [])
  ∧ (Cline.connected down = false
     ∧ Cline.logged down
       = ["Connecting to bridge server at http://localhost:2612...";
          errorMsg Cline.BRIDGE_SERVER_URL]
     ∧ Cline.unhandled down
       = ["Bridge server not available: request to http://localhost:2612 failed, reason: connect ECONNREFUSED"])
  ∧ (Claude.connected quiet' = false
     ∧ Claude.console quiet'
       = ["Connecting to bridge server at http://localhost:2612..."]
     ∧ Claude.unhandled quiet' = [])
  ∧ (Claude.connected down' = false
     ∧ Claude.console down'
       = ["Connecting to bridge server at http://localhost:2612...";
          errorMsg Claude.localhost]
     ∧ Claude.unhandled down'
       = ["Bridge server not available: request to http://localhost:2612 failed, reason: connect ECONNREFUSED"]).
Proof. repeat split; vm_compute; reflexivity. Qed.

(** What the two dispatchers do with an envelope of type [text]. *)
Lemma claude_handleMessage_text m w :
  e_type m = "text" → Claude.handleMessage m w = Claude.Normal w.
Proof. intros E. unfold Claude.handleMessage. by rewrite E. Qed.

Lemma claude_handleAll_text ms w :
  Forall (fun m => e_type m = "text") ms →
  Claude.handleAll ms w = Claude.Normal w.
Proof.
  induction 1 as [|m ms Hm _ IH]; [done|].
  cbn [Claude.handleAll]. by rewrite (claude_handleMessage_text m w Hm).
Qed.

Lemma cline_handleAll_text ms v :
  Forall (fun m => e_type m = "text") ms →
  let v' := foldl (fun v m => Cline.handleMessage m v) v ms in
  Cline.logged v'
  = Cline.logged v ++ ((fun _ => "Processing message of type: text") <$> ms)
  ∧ Cline.sent v' = Cline.sent v
  ∧ Cline.mailbox v' = Cline.mailbox v
  ∧ Cline.connected v' = Cline.connected v
  ∧ Cline.timers v' = Cline.timers v.
Proof.
  intros H. revert v. induction H as [|m ms Hm _ IH]; intros v.
  { simpl. by rewrite app_nil_r. }
  cbn [foldl fmap list_fmap].
  destruct (IH (Cline.handleMessage m v)) as (E1 & E2 & E3 & E4 & E5).
  cbn zeta in *. rewrite E1, E2, E3, E4, E5.
  unfold Cline.handleMessage. rewrite Hm.
  cbn [String.eqb Ascii.eqb Bool.eqb]. cline_simpl.
  by rewrite <- app_assoc.
Qed.

(** Observers that return are all called, in the order of registration;
    an observer that throws is the last one called. *)
Lemma forEach_quiet hs a b w :
  (∀ h, h ∈ hs → Claude.ob_throws h a b = None) →
  Claude.forEach hs a b w
  = Claude.Normal
      (Claude.set_invoked
         (Claude.invoked w ++ ((fun h => (Claude.ob_id h, a, b)) <$> hs)) w).
Proof.
  revert w. induction hs as [|h hs IH]; intros w Hq.
  { simpl. rewrite app_nil_r. by destruct w. }
  cbn [Claude.forEach]. rewrite (Hq h) by left.
  rewrite IH by (intros h' Hh'; apply Hq; by right).
  claude_simpl. by rewrite <- app_assoc.
Qed.

Lemma forEach_throws hs1 h hs2 msg a b w :
  (∀ h', h' ∈ hs1 → Claude.ob_throws h' a b = None) →
  Claude.ob_throws h a b = Some msg →
  Claude.forEach (hs1 ++ h :: hs2) a b w
  = Claude.Abrupt msg
      (Claude.set_invoked
         (Claude.invoked w
          ++ ((fun h => (Claude.ob_id h, a, b)) <$> hs1 ++ [h])) w).
Proof.
  revert w. induction hs1 as [|h1 hs1 IH]; intros w Hq Ht.
  { cbn [app Claude.forEach fmap list_fmap]. by rewrite Ht. }
  cbn [app Claude.forEach]. rewrite (Hq h1) by left.
  rewrite IH; [|intros h' Hh'; apply Hq; by right|done].
  claude_simpl. cbn [fmap list_fmap app]. by rewrite <- app_assoc.
Qed.

(** C8.  An envelope of type [text] reaches no observer.  Both clients
    post a chat message with the type [text].  When the poll loop of the
    Claude-side client drains a batch of such envelopes, the event loop
    running the armed poll interval, the batch is gone from the mailbox,
    no observer has been called and nothing has been posted; the only
    trace is the line that counts the batch.  The Cline-side client, which
    keeps no observers, logs for each of them that it processes a message
    of type [text] and never its content.  The dispatchers do fan out and
    display the same envelope under the type [message]: observers that
    return are all called, in the order of registration, with the content
    and the sender, and an observer that throws is the last one called;
    for [fileChanged] the observers are called with the notice
    [File changed: <path>] and the sender [system].  At the end the three
    envelopes are delivered to a client with one observer: [hi] of type
    [text] is drained by the poll tick and the observer is not called. *)
Theorem text_notifications_reach_no_observer :
  (∀ content w st,
     Claude.connected w = true →
     Claude.routes w Claude.PostMessage = Status true st →
     Claude.sent (fst (Claude.sendMessage content w))
     = Claude.sent w ++ [(Claude.PostMessage, Claude.Message content "text")])
  ∧ (∀ content v st,
       Cline.connected v = true →
       Cline.routes v Cline.PostMessage = Status true st →
       ∃ m, Cline.sent (fst (Cline.sendMessage content v))
            = Cline.sent v ++ [(Cline.PostMessage, Cline.Message m)]
            ∧ e_type m = "text" ∧ e_content m = Some content)
  ∧ (∀ w h tm,
       List.find (fun t => bool_decide (handle t = h)) (Claude.timers w)
       = Some tm →
       act tm = Claude.PollTick →
       (∀ msg, Claude.routes w Claude.GetPing ≠ Throws msg) →
       (∀ msg, Claude.routes w Claude.GetMessages ≠ Throws msg) →
       Claude.mailbox w ≠ [] →
       Forall (fun m => e_type m = "text") (Claude.mailbox w) →
       let w' := Claude.exec (Claude.EvTimer h) w in
       Claude.mailbox w' = []
       ∧ Claude.invoked w' = Claude.invoked w
       ∧ Claude.sent w' = Claude.sent w
       ∧ Claude.connected w' = Claude.connected w
       ∧ Claude.console w'
         = Claude.console w
           ++ ["Received " +:+ pretty (length (Claude.mailbox w))
               +:+ " messages from Cline"])
  ∧ (∀ v h tm,
       List.find (fun t => bool_decide (handle t = h)) (Cline.timers v)
       = Some tm →
       act tm = Cline.PollTick →
       (∀ msg, Cline.routes v Cline.GetPing ≠ Throws msg) →
       (∀ msg, Cline.routes v Cline.GetMessages ≠ Throws msg) →
       Cline.mailbox v ≠ [] →
       Forall (fun m => e_type m = "text") (Cline.mailbox v) →
       let v' := Cline.exec (Cline.EvTimer h) v in
       Cline.mailbox v' = []
       ∧ Cline.sent v' = Cline.sent v
       ∧ Cline.logged v'
         = (Cline.logged v
            ++ ["Received " +:+ pretty (length (Cline.mailbox v))
                +:+ " messages from Claude"])
           ++ ((fun _ => "Processing message of type: text")
                 <$> Cline.mailbox v))
  ∧ (∀ m w,
       e_type m = "message" →
       (∀ h, h ∈ Claude.messageHandlers w →
             Claude.ob_throws h (e_content m) (e_from m) = None) →
       Claude.handleMessage m w
       = Claude.Normal
           (Claude.set_invoked
              (Claude.invoked w
               ++ ((fun h => (Claude.ob_id h, e_content m, e_from m))
                     <$> Claude.messageHandlers w)) w))
  ∧ (∀ m w hs1 h hs2 msg,
       e_type m = "message" →
       Claude.messageHandlers w = hs1 ++ h :: hs2 →
       (∀ h', h' ∈ hs1 →
              Claude.ob_throws h' (e_content m) (e_from m) = None) →
       Claude.ob_throws h (e_content m) (e_from m) = Some msg →
       Claude.handleMessage m w
       = Claude.Abrupt msg
           (Claude.set_invoked
              (Claude.invoked w
               ++ ((fun h => (Claude.ob_id h, e_content m, e_from m))
                     <$> hs1 ++ [h])) w))
  ∧ (∀ m w,
       e_type m = "fileChanged" →
       (∀ h, h ∈ Claude.messageHandlers w →
             Claude.ob_throws h (Some ("File changed: " +:+ show (e_path m)))
               (Some "system") = None) →
       ∃ w', Claude.handleMessage m w = Claude.Normal w'
             ∧ Claude.invoked w'
               = Claude.invoked w
                 ++ ((fun h => (Claude.ob_id h,
                                Some ("File changed: " +:+ show (e_path m)),
                                Some "system"))
                       <$> Claude.messageHandlers w)
             ∧ Claude.sent w' = Claude.sent w)
  ∧ (∀ m v,
       e_type m = "message" →
       Cline.logged (Cline.handleMessage m v)
       = Cline.logged v ++ ["Processing message of type: message";
                            "Claude: " +:+ show (e_content m)]
       ∧ Cline.sent (Cline.handleMessage m v) = Cline.sent v)
  ∧ (w ← Claude.delivered Claude.text_hi;
     Some (Claude.invoked w, Claude.mailbox w, Claude.sent w))
    = Some ([], [], [])
  ∧ (w ← Claude.delivered Claude.message_hi; Some (Claude.invoked w))
    = Some [(7, Some "hi", Some "cline")]
  ∧ (w ← Claude.delivered Claude.changed_a; Some (Claude.invoked w))
    = Some [(7, Some "File changed: a.txt", Some "system")].
Proof.
  split.
  { intros content w st Hc Hr. unfold Claude.sendMessage, Claude.send.
    rewrite Hc. cbn [negb]. unfold Claude.post. claude_simpl.
    by rewrite Hr. }
  split.
  { intros content v st Hc Hr. eexists. unfold Cline.sendMessage, Cline.send.
    rewrite Hc. cbn [negb]. cline_simpl. rewrite Hr. by repeat split. }
  split.
  { intros w h tm Hf Ha Hp Hg Hne Htext w'. unfold w'. cbn [Claude.exec].
    rewrite Hf. unfold Claude.fire, Claude.body. rewrite Ha.
    unfold Claude.poll_tick. claude_simpl.
    destruct (Claude.routes w Claude.GetPing) as [msg|ok st] eqn:Ep;
      [by destruct (Hp msg)|].
    unfold Claude.hasUpdates. claude_simpl.
    destruct (Claude.mailbox w) as [|m0 ms] eqn:Em; [done|].
    cbn [length Nat.eqb negb].
    destruct (Claude.routes w Claude.GetMessages) as [msg|ok' st'] eqn:Eg;
      [by destruct (Hg msg)|].
    rewrite claude_handleAll_text by done. by claude_simpl. }
  split.
  { intros v h tm Hf Ha Hp Hg Hne Htext v'. unfold v'. cbn [Cline.exec].
    rewrite Hf. unfold Cline.fire, Cline.body. rewrite Ha.
    unfold Cline.poll_tick. cline_simpl.
    destruct (Cline.routes v Cline.GetPing) as [msg|ok st] eqn:Ep;
      [by destruct (Hp msg)|].
    unfold Cline.hasUpdates. cline_simpl.
    destruct (Cline.mailbox v) as [|m0 ms] eqn:Em; [done|].
    cbn [length Nat.eqb negb].
    destruct (Cline.routes v Cline.GetMessages) as [msg|ok' st'] eqn:Eg;
      [by destruct (Hg msg)|].
    match goal with
    | |- context [foldl ?f ?v0 ?l] =>
        destruct (cline_handleAll_text l v0 Htext) as (E1 & E2 & E3 & _)
    end.
    cline_simpl. cbn zeta in *. by rewrite E1, E2, E3. }
  split.
  { intros m w E Hq. unfold Claude.handleMessage. rewrite E.
    cbn [String.eqb Ascii.eqb Bool.eqb]. by apply forEach_quiet. }
  split.
  { intros m w hs1 h hs2 msg E Hhs Hq Ht. unfold Claude.handleMessage.
    rewrite E. cbn [String.eqb Ascii.eqb Bool.eqb]. unfold Claude.notify.
    rewrite Hhs. by apply forEach_throws. }
  split.
  { intros m w E Hq. unfold Claude.handleMessage. rewrite E.
    cbn [String.eqb Ascii.eqb Bool.eqb]. unfold Claude.notify.
    claude_simpl. rewrite forEach_quiet by done. eexists.
    split; [done|]. by claude_simpl. }
  split.
  { intros m v E. unfold Cline.handleMessage. rewrite E.
    cbn [String.eqb Ascii.eqb Bool.eqb]. cline_simpl.
    by rewrite <- app_assoc. }
  repeat split; vm_compute; reflexivity.
Qed.

Lemma text_notifications_reach_no_observer_witness :
  let w := Claude.exec (Claude.EvEnqueue Claude.text_hi)
             (Claude.onMessage (Claude.quiet 7) Claude.connected_client) in
  Claude.messageHandlers w = [Claude.quiet 7]
  ∧ Claude.mailbox w = [Claude.text_hi]
  ∧ Claude.mailbox (Claude.exec (Claude.EvTimer 0) w) = []
  ∧ Claude.invoked (Claude.exec (Claude.EvTimer 0) w) = [].
Proof.
  intros w. split; [reflexivity|]. split; [reflexivity|].
  destruct text_notifications_reach_no_observer as (_ & _ & H & _).
  destruct (H w 0%nat (Timer 0%nat 2000%N (Some 2000%N) Claude.PollTick))
    as (H1 & H2 & _); try done.
  repeat constructor.
Defined.

End BothClients.

(** ** More on the framing codec *)

Section FramingMore.
Import Framing.
Local Open Scope N_scope.

Implicit Types (s b c buf ds g r p : jsstring) (cl : option nat).

(** The header the encoder writes in front of [n] units. *)
Lemma header_match n rest :
  regex_match (header_name ++ decimal n ++ crlf2 ++ rest) = Some (decimal n).
Proof.
  apply regex_match_front; [apply decimal_nonempty|apply uint_units_digits].
Qed.

Lemma header_cut n rest :
  drop (header_length (decimal n)) (header_name ++ decimal n ++ crlf2 ++ rest)
  = rest.
Proof.
  rewrite !app_assoc. apply drop_app_length'.
  unfold header_length. by rewrite !length_app.
Qed.

(** A match is found at the front when the capital letter of the header
    name occurs nowhere behind the first unit. *)
Lemma regex_match_at_front s ds :
  regex_match s = Some ds → 67 ∉ tail s → match_here s = Some ds.
Proof.
  destruct s as [|u s]; simpl.
  - by destruct (match_here []).
  - destruct (match_here (u :: s)); [done|].
    intros H%regex_match_capital Hs. by destruct Hs.
Qed.

(** No header is seen before its last unit has arrived. *)
Lemma header_prefix_no_match n k :
  (k < header_length (decimal n))%nat →
  regex_match (take k (header_name ++ decimal n ++ crlf2)) = None.
Proof.
  intros Hk. set (H := header_name ++ decimal n ++ crlf2) in *.
  destruct (regex_match (take k H)) as [ds|] eqn:E; [|done]. exfalso.
  assert (match_here (take k H) = Some ds) as Hm.
  { apply regex_match_at_front; [done|]. intros Hin.
    apply (header_tail_no_capital (decimal n) (uint_units_digits _)).
    fold H. destruct k as [|k]; [by rewrite take_0 in Hin|].
    destruct H as [|u H']; [done|]. simpl in *.
    by apply (subseteq_take k H'). }
  pose proof (match_here_length _ _ Hm) as Hlen.
  pose proof (match_here_app _ (drop k H) _ Hm) as Hm'.
  rewrite take_drop in Hm'.
  assert (match_here H = Some (decimal n)) as Hm''.
  { pose proof (match_here_intro (decimal n) [] (decimal_nonempty n)
                  (uint_units_digits _)) as Hi.
    by rewrite app_nil_r in Hi. }
  rewrite Hm' in Hm''. injection Hm'' as ->.
  rewrite length_take in Hlen. lia.
Qed.

(** What the decoder holds after the first [k] units of the frame of [p]. *)
Lemma run_partial p k :
  ascii p → (k < length (frame p))%nat →
  run (take k (frame p)) None
  = Some (if (k <? header_length (decimal (length p)))%nat
          then Decoder (take k (frame p)) None
          else Decoder (take (k - header_length (decimal (length p))) p)
                 (Some (length p)),
          []).
Proof.
  intros Hp Hk. rewrite (frame_ascii_eq p Hp) in *.
  set (n := length p) in *. set (hl := header_length (decimal n)).
  assert (length (header_name ++ decimal n ++ crlf2) = hl) as Hhl.
  { unfold hl, header_length. rewrite !length_app. lia. }
  rewrite !app_assoc, <- (app_assoc header_name) in *.
  rewrite length_app, Hhl in Hk.
  rewrite run_unfold. destruct (Nat.ltb_spec k hl) as [Hlt|Hge].
  - rewrite take_app_le by lia.
    destruct (length _ =? 0)%nat eqn:E0; [done|].
    unfold read_header. by rewrite header_prefix_no_match.
  - rewrite take_app_ge by lia. rewrite Hhl.
    destruct (length _ =? 0)%nat eqn:E0.
    { apply Nat.eqb_eq in E0. rewrite length_app, Hhl in E0.
      pose proof (header_length_pos (decimal n)). fold hl in H. lia. }
    unfold read_header. rewrite <- !app_assoc, header_match, header_cut.
    rewrite parseInt_decimal.
    destruct (Nat.ltb_spec (length (take (k - hl) p)) n) as [|Hn]; [done|].
    rewrite length_take in Hn. fold n in Hn. lia.
Qed.

Lemma ascii_take k s : ascii s → ascii (take k s).
Proof. apply Forall_take. Qed.

Lemma ascii_chunks cs : ascii (concat cs) → Forall (fun c => toString c = c) cs.
Proof.
  unfold ascii. rewrite Forall_concat. intros H.
  eapply Forall_impl; [exact H|]. intros c Hc. by apply toString_ascii.
Qed.

(** X1.  A frame is delivered when its last byte has arrived, and not
    before.  Let the bytes written for the ASCII payloads [ps], followed
    by the first [k] bytes of the frame of one more ASCII payload [p],
    reach the listener cut into chunks in any way.  The listener yields
    exactly [ps], in order; what it keeps is the beginning of the header
    while the header is incomplete, and from then on the part of [p] that
    has arrived together with the announced length. *)
Theorem frames_delivered_when_complete (ps : list jsstring) (p : jsstring)
    (k : nat) (chunks : list bytes) :
  Forall ascii ps → ascii p → (k < length (frame p))%nat →
  concat chunks = concat (sendMessage <$> ps) ++ take k (sendMessage p) →
  feed chunks initial
  = Some (if (k <? header_length (decimal (length p)))%nat
          then Decoder (take k (frame p)) None
          else Decoder (take (k - header_length (decimal (length p))) p)
                 (Some (length p)),
          ps).
Proof.
  intros Hps Hp Hk Hcs. destruct (stream_ascii ps Hps) as [E Hascii].
  assert (concat chunks = concat (frame <$> ps) ++ take k (frame p)) as Hcs'.
  { rewrite Hcs, E. unfold sendMessage.
    by rewrite (utf8_encode_ascii _ (frame_ascii p Hp)). }
  clear Hcs.
  assert (feed chunks initial = run (concat chunks) None) as ->.
  { apply (feed_run chunks initial); [|done].
    apply ascii_chunks. rewrite Hcs'. apply Forall_app. split; [done|].
    by apply ascii_take, frame_ascii. }
  rewrite Hcs', run_app, (run_frames ps Hps).
  unfold resume, initial, buffer, contentLength. rewrite app_nil_l.
  rewrite (run_partial p k Hp Hk). by rewrite app_nil_r.
Qed.

Lemma frames_delivered_when_complete_witness :
  feed [lit "Content-Length: 2"; [13; 10; 13; 10; 123]; [125; 67; 111]] initial
  = Some (Decoder [67; 111] None, [lit "{}"]).
Proof.
  apply (frames_delivered_when_complete [lit "{}"] (lit "[1]") 2).
  - repeat constructor.
  - repeat constructor.
  - vm_compute. lia.
  - reflexivity.
Defined.

(** X2.  On ASCII input the listener does not depend on how the stream is
    cut into chunks, well-formed or not: two sequences of chunks with the
    same bytes leave the same state and yield the same messages. *)
Theorem ascii_chunking_is_irrelevant (chunks chunks' : list bytes) :
  ascii (concat chunks) → concat chunks = concat chunks' →
  feed chunks initial = feed chunks' initial.
Proof.
  intros Ha Hc.
  rewrite !feed_run; try done; [by rewrite Hc|..]; apply ascii_chunks;
    [by rewrite <- Hc|done].
Qed.

Lemma ascii_chunking_is_irrelevant_witness :
  feed [lit "xyContent-Len"; lit "gth: 1"; [13; 10; 13]; [10; 65; 66]] initial
  = feed [lit "xyContent-Length: 1" ++ [13; 10; 13; 10; 65; 66]] initial.
Proof.
  apply ascii_chunking_is_irrelevant.
  - repeat constructor.
  - reflexivity.
Defined.

(** The number of UTF-8 bytes of a text is at least the number of its code
    units. *)
Lemma utf8_of_cp_length u : (1 ≤ length (utf8_of_cp u))%nat.
Proof. unfold utf8_of_cp. repeat case_match; simpl; lia. Qed.

Lemma utf8_of_cp_length_high u :
  0x80 ≤ u → (2 ≤ length (utf8_of_cp u))%nat.
Proof.
  intros Hu. unfold utf8_of_cp. destruct (N.ltb_spec u 0x80); [lia|].
  repeat case_match; simpl; lia.
Qed.

Lemma utf8_of_cp_length_astral u :
  0x10000 ≤ u → length (utf8_of_cp u) = 4%nat.
Proof.
  intros Hu. unfold utf8_of_cp.
  destruct (N.ltb_spec u 0x80); [lia|]. destruct (N.ltb_spec u 0x800); [lia|].
  destruct (N.ltb_spec u 0x10000); [lia|]. done.
Qed.

Lemma utf8_encode_low v s :
  is_low v = true →
  length (utf8_encode (v :: s)) = (3 + length (utf8_encode s))%nat.
Proof.
  intros Hl. cbn [utf8_encode]. destruct (is_high v) eqn:Hv.
  { unfold is_high, is_low, in_range in *.
    apply andb_prop in Hv as [_ H1%N.leb_le].
    apply andb_prop in Hl as [H2%N.leb_le _]. lia. }
  rewrite Hl. by rewrite length_app.
Qed.

Lemma byteLength_cons u s : (S (byteLength s) ≤ byteLength (u :: s))%nat.
Proof.
  unfold byteLength. cbn [utf8_encode]. destruct (is_high u) eqn:Hh.
  - destruct s as [|v s]; [simpl; lia|].
    destruct (is_low v) eqn:Hl.
    + rewrite length_app, utf8_of_cp_length_astral by lia.
      rewrite (utf8_encode_low v s Hl). lia.
    + rewrite length_app. change (length (utf8_of_cp replacement)) with 3%nat.
      lia.
  - destruct (is_low u) eqn:Hl.
    + rewrite length_app. change (length (utf8_of_cp replacement)) with 3%nat.
      lia.
    + rewrite length_app. pose proof (utf8_of_cp_length u). lia.
Qed.

Lemma byteLength_ge s : (length s ≤ byteLength s)%nat.
Proof.
  induction s as [|u s IH]; [done|].
  pose proof (byteLength_cons u s). simpl. lia.
Qed.

Lemma byteLength_cons_high u s :
  0x80 ≤ u → (S (S (length s)) ≤ byteLength (u :: s))%nat.
Proof.
  intros Hu. unfold byteLength. cbn [utf8_encode].
  destruct (is_high u) eqn:Hh.
  - destruct s as [|v s]; [simpl; lia|].
    destruct (is_low v) eqn:Hl.
    + rewrite length_app, utf8_of_cp_length_astral by lia.
      pose proof (byteLength_ge s). unfold byteLength in *. simpl. lia.
    + rewrite length_app. change (length (utf8_of_cp replacement)) with 3%nat.
      pose proof (byteLength_ge (v :: s)). unfold byteLength in *. lia.
  - pose proof (byteLength_ge s). unfold byteLength in *.
    destruct (is_low u) eqn:Hl.
    + rewrite length_app. change (length (utf8_of_cp replacement)) with 3%nat.
      lia.
    + rewrite length_app. pose proof (utf8_of_cp_length_high u Hu). lia.
Qed.

Lemma byteLength_ascii s : byteLength s = length s ↔ ascii s.
Proof.
  split.
  - induction s as [|u s IH]; [by constructor|]. intros H.
    pose proof (byteLength_cons u s). pose proof (byteLength_ge s).
    simpl in H. constructor.
    + destruct (N.lt_ge_cases u 0x80) as [|Hu]; [done|].
      apply (byteLength_cons_high u s) in Hu. lia.
    + apply IH. lia.
  - intros H. unfold byteLength. by rewrite utf8_encode_ascii.
Qed.

(** X3.  The length the encoder announces counts bytes, the decoder counts
    code units.  The announced length never falls short of the units of
    the payload, and equals them exactly for ASCII payloads.  So the loop
    never cuts a payload short: given the frame of any text [c] followed
    by [r], it waits while [r] has fewer units than the excess, and
    otherwise delivers [c] followed by the first units of [r], as many as
    the excess. *)
Theorem announced_length_over_reads (c r : jsstring) :
  let k := (byteLength c - length c)%nat in
  (length c ≤ byteLength c)%nat
  ∧ (k = 0%nat ↔ ascii c)
  ∧ ((length r < k)%nat →
     run (frame c ++ r) None
     = Some (Decoder (c ++ r) (Some (byteLength c)), []))
  ∧ ((k ≤ length r)%nat →
     run (frame c ++ r) None
     = '(st, out) ← run (drop k r) None; Some (st, (c ++ take k r) :: out)).
Proof.
  intros k. pose proof (byteLength_ge c) as Hge.
  split; [done|]. split.
  { rewrite <- byteLength_ascii. unfold k. lia. }
  assert (run (frame c ++ r) None
          = if (length (c ++ r) <? byteLength c)%nat
            then Some (Decoder (c ++ r) (Some (byteLength c)), [])
            else match run (drop (byteLength c) (c ++ r)) None with
                 | Some (st, out) => Some (st, take (byteLength c) (c ++ r) :: out)
                 | None => None
                 end) as ->.
  { rewrite run_unfold. unfold frame. rewrite <- !app_assoc.
    destruct (length _ =? 0)%nat eqn:E0.
    { apply Nat.eqb_eq in E0. rewrite length_app in E0.
      change (length header_name) with 16%nat in E0. lia. }
    unfold read_header. by rewrite header_match, header_cut, parseInt_decimal. }
  rewrite length_app. split; intros Hr.
  - destruct (Nat.ltb_spec (length c + length r) (byteLength c)); [done|].
    unfold k in Hr. lia.
  - destruct (Nat.ltb_spec (length c + length r) (byteLength c)) as [H|H].
    { unfold k in Hr. lia. }
    rewrite drop_app_ge, take_app_ge by lia. fold k.
    by destruct (run (drop k r) None) as [[st out]|].
Qed.

Lemma announced_length_over_reads_witness :
  run (frame e_acute ++ lit "Content-Length") None
  = Some (Decoder (lit "ontent-Length") None, [e_acute ++ [67]]).
Proof.
  destruct (announced_length_over_reads e_acute (lit "Content-Length"))
    as (_ & _ & _ & H).
  rewrite H; [reflexivity|vm_compute; lia].
Defined.

(** A stray text without the capital letter of the header name hides no
    header. *)
Lemma regex_match_skip g s : 67 ∉ g → regex_match (g ++ s) = regex_match s.
Proof.
  induction g as [|u g IH]; [done|]. intros Hg. simpl app.
  rewrite not_elem_of_cons in Hg. destruct Hg as [Hu Hg].
  cbn [regex_match].
  destruct (match_here (u :: g ++ s)) as [ds|] eqn:E; [|by apply IH].
  apply match_here_head in E. simpl in E. by injection E as ->.
Qed.

(** X4.  Text in front of a header shifts the message.  The header is
    found wherever it stands, but the buffer is cut by the length of the
    match from its front.  With [j] stray units before the frame of an
    ASCII payload [c] (none of them the capital C, [j] at most the length
    of the header and of the payload), the message delivered is the last
    [j] units of the header followed by [c] without its last [j] units;
    these stay in the buffer, in front of what follows. *)
Theorem stray_prefix_shifts_message (g c r : jsstring) :
  let hl := header_length (decimal (length c)) in
  let j := length g in
  67 ∉ g → ascii c → (j ≤ hl)%nat → (j ≤ length c)%nat →
  run (g ++ frame c ++ r) None
  = '(st, out) ← run (drop (length c - j) c ++ r) None;
    Some (st, (drop (hl - j) (header_name ++ decimal (length c) ++ crlf2)
               ++ take (length c - j) c) :: out).
Proof.
  intros hl j Hg Hc Hj1 Hj2. rewrite (frame_ascii_eq c Hc).
  set (n := length c) in *. set (H := header_name ++ decimal n ++ crlf2).
  assert (length H = hl) as Hhl.
  { unfold H, hl, header_length. rewrite !length_app. lia. }
  rewrite run_unfold.
  destruct (length _ =? 0)%nat eqn:E0.
  { apply Nat.eqb_eq in E0. rewrite !length_app in E0.
    change (length header_name) with 16%nat in E0. lia. }
  unfold read_header. rewrite regex_match_skip by done.
  rewrite <- !app_assoc, header_match, parseInt_decimal. fold hl.
  assert (drop hl (g ++ header_name ++ decimal n ++ crlf2 ++ c ++ r)
          = drop (hl - j) H ++ c ++ r) as ->.
  { rewrite drop_app_ge by done. fold j.
    rewrite (app_assoc (decimal n)), (app_assoc header_name). fold H.
    by rewrite drop_app_le by lia. }
  assert (length (drop (hl - j) H) = j) as Hd.
  { rewrite length_drop. lia. }
  destruct (Nat.ltb_spec (length (drop (hl - j) H ++ c ++ r)) n) as [Hlt|_].
  { rewrite !length_app in Hlt. fold n in Hlt. lia. }
  rewrite drop_app_ge, take_app_ge by lia. rewrite Hd.
  rewrite drop_app_le, take_app_le by (fold n; lia).
  done.
Qed.

Lemma stray_prefix_shifts_message_witness :
  run (lit "ok" ++ frame (lit "[1,2]") ++ []) None
  = Some (Decoder (lit "2]") None, [[13; 10] ++ lit "[1,"]).
Proof.
  rewrite (stray_prefix_shifts_message (lit "ok") (lit "[1,2]") []).
  - reflexivity.
  - vm_compute. intros H. by repeat (apply elem_of_cons in H as [H|H]; [done|]);
      apply elem_of_nil in H.
  - repeat constructor.
  - vm_compute. lia.
  - vm_compute. lia.
Defined.

End FramingMore.

(** ** The relay *)

Section RelayFacts.
Import Js Relay.

Implicit Types (s : state) (reqs : list (Z * request)).




End RelayFacts.

(** ** The two clients on the relay *)

Section WireFacts.
Import Js.

(** X6.  A reply that passes through the relay settles no call.  The relay
    queues a body posted to [/cline/message] with its [content] and [type]
    only, so the Claude-side client reads a message without [path],
    [command], [success] and [error].  It drops such a [fileContent] or
    [commandResult] without looking for a handler, it logs such an
    [updateCodeResult] as a failed update of [undefined], and the check of
    no [updateFile] takes it for its result. *)
Theorem reply_through_relay_settles_nothing (body : envelope) (now : Z)
    (s : Relay.state) (w : Claude.world) :
  let m := Relay.read (Relay.stored now body) in
  Relay.claude (fst (Relay.handle now (Relay.PostClineMessage body) s))
  = Relay.claude s ++ [Relay.stored now body]
  ∧ e_content m = e_content body
  ∧ e_path m = None ∧ e_command m = None
  ∧ e_success m = None ∧ e_error m = None
  ∧ (e_type body = "fileContent" ∨ e_type body = "commandResult" →
     Claude.handleMessage m w = Claude.Normal w)
  ∧ (e_type body = "updateCodeResult" →
     Claude.handleMessage m w
     = Claude.Normal (Claude.log "File update failed: undefined" w))
  ∧ (∀ path, Claude.is_update_result path m = false).
Proof.
  intros m. split; [done|]. do 5 (split; [done|]).
  split; [|split].
  - intros [E|E]; unfold m, Relay.read, Relay.stored, Claude.handleMessage;
      cbn [e_type e_path e_command Relay.type Relay.content]; rewrite E; done.
  - intros E. unfold m, Relay.read, Relay.stored, Claude.handleMessage.
    cbn [e_type e_path e_command e_success e_error Relay.type Relay.content].
    by rewrite E.
  - intros path. unfold Claude.is_update_result.
    rewrite andb_false_iff. right. by apply bool_decide_eq_false.
Qed.

Lemma reply_through_relay_settles_nothing_witness :
  Claude.handleMessage
    (Relay.read (Relay.stored 5 (Cline.fileContent (Some "b.txt") (Some "data") None)))
    Claude.busy
  = Claude.Normal Claude.busy
  ∧ Claude.calls
      (Claude.after (Claude.handleMessage Claude.content_b Claude.busy)) !! 0%nat
    = Some (Resolved (Claude.VContent (Some "data"))).
Proof.
  split; [|reflexivity].
  destruct (reply_through_relay_settles_nothing
              (Cline.fileContent (Some "b.txt") (Some "data") None) 5
              (Relay.start 0 0 "1") Claude.busy) as (_ & _ & _ & _ & _ & _ & H & _).
  apply H. by left.
Defined.

(** X7.  A chat message crosses the relay with its text and its label.
    What [sendMessage] of a connected client posts is, for the relay, a
    POST to the client's own message route; the relay appends it to the
    queue of the other side, and the message the other side reads back
    has the content that was sent and the type [text]. *)
Theorem sent_message_is_queued_for_the_other_side (content : string)
    (now : Z) (s : Relay.state) (wc : Claude.world) (wl : Cline.world) :
  (∀ st, Claude.connected wc = true →
     Claude.routes wc Claude.PostMessage = Status true st →
     ∃ body,
       (Wire.of_claude <$> Claude.sent (fst (Claude.sendMessage content wc)))
       = (Wire.of_claude <$> Claude.sent wc) ++ [Relay.PostClaudeMessage body]
       ∧ Relay.cline (fst (Relay.handle now (Relay.PostClaudeMessage body) s))
         = Relay.cline s ++ [Relay.stored now body]
       ∧ Relay.claude (fst (Relay.handle now (Relay.PostClaudeMessage body) s))
         = Relay.claude s
       ∧ e_type (Relay.read (Relay.stored now body)) = "text"
       ∧ e_content (Relay.read (Relay.stored now body)) = Some content)
  ∧ (∀ st, Cline.connected wl = true →
       Cline.routes wl Cline.PostMessage = Status true st →
       ∃ body,
         (Wire.of_cline <$> Cline.sent (fst (Cline.sendMessage content wl)))
         = (Wire.of_cline <$> Cline.sent wl) ++ [Relay.PostClineMessage body]
         ∧ Relay.claude (fst (Relay.handle now (Relay.PostClineMessage body) s))
           = Relay.claude s ++ [Relay.stored now body]
         ∧ Relay.cline (fst (Relay.handle now (Relay.PostClineMessage body) s))
           = Relay.cline s
         ∧ e_type (Relay.read (Relay.stored now body)) = "text"
         ∧ e_content (Relay.read (Relay.stored now body)) = Some content).
Proof.
  split.
  - intros st Hc Hr.
    exists (Envelope "text" None (Some content) None None None None None None
              None None None).
    split; [|done].
    unfold Claude.sendMessage, Claude.send. rewrite Hc. cbn [negb].
    unfold Claude.post. claude_simpl. rewrite Hr. cbn [fst].
    claude_simpl. by rewrite fmap_app.
  - intros st Hc Hr.
    exists (Envelope "text" None (Some content) None None None None None None
              None None None).
    split; [|done].
    unfold Cline.sendMessage, Cline.send. rewrite Hc. cbn [negb].
    cline_simpl. rewrite Hr. cbn [fst]. cline_simpl. by rewrite fmap_app.
Qed.

Lemma sent_message_is_queued_for_the_other_side_witness :
  ∃ body,
    (Wire.of_claude
       <$> Claude.sent (fst (Claude.sendMessage "hi" Claude.connected_client)))
    = (Wire.of_claude <$> Claude.sent Claude.connected_client)
      ++ [Relay.PostClaudeMessage body]
    ∧ e_content (Relay.read (Relay.stored 7 body)) = Some "hi".
Proof.
  destruct (proj1 (sent_message_is_queued_for_the_other_side "hi" 7
                     (Relay.start 0 0 "1") Claude.connected_client
                     Cline.connected_client) "OK" eq_refl eq_refl)
    as (body & H1 & _ & _ & _ & H2).
  by exists body.
Defined.

End WireFacts.

(** ** The request handler of the MCP server *)

Ltac server_simpl :=
  cbn [Server.dec Server.stdout Server.stderr Server.now Server.timers
       Server.next_handle Server.set_dec Server.set_now Server.set_timers
       Server.log Server.write Server.sendMessage Server.setTimeout
       fst snd] in *.

Section ServerFacts.
Import Js Server.

Context {number : Type}.
Variable int : Z → number.
Variable show_number : number → Framing.jsstring.
Variable parse : Framing.jsstring → Framing.jsstring + json number.
Variable stringify : json number → Framing.jsstring.

Implicit Types (st : state number) (request : json number).


Lemma read_not_null k request :
  request ≠ JNull → read k (Some request) = inr (member k request).
Proof. by destruct request. Qed.

Lemma stdout_log text st : stdout (log text st) = stdout st.
Proof. done. Qed.









(** X10.  [initialize] is answered at once and followed up once.  The
    handler writes the answer with the server information and arms one
    timeout of 100 ms; when the timeout runs it writes the notification
    [notifications/tools], which has no [id] and lists the very tools that
    [list_tools] answers with, and the timeout is gone. *)
Theorem initialize_announces_the_listed_tools (request : json number)
    (st : state number) :
  equals "initialize" (member "method" request) = true →
  let st' := caught (handle_request int show_number stringify request st) in
  let t := Timer (next_handle st) (now st + 100)%N None tools_notification in
  stdout st'
  = stdout st
    ++ [Framing.sendMessage
          (stringify
             (response (member "id" request) "result"
                (record [("serverInfo",
                          record [("name", str "minimal-mcp");
                                  ("version", str "1.0.0")]);
                         ("capabilities", record [])])))]
  ∧ timers st' = timers st ++ [t]
  ∧ stdout (fire stringify t st')
    = stdout st' ++ [Framing.sendMessage (stringify tools_notification)]
  ∧ (t ∉ timers (fire stringify t st'))
  ∧ (member "params" (@tools_notification number) ≫= member "tools")
    = Some tools_listed
  ∧ member "id" (@tools_notification number) = None.
Proof.
  intros E. assert (request ≠ JNull) as Hr by (by destruct request).
  intros st' t. unfold st', handle_request.
  rewrite (read_not_null _ _ Hr), E. cbn [caught].
  split; [done|]. split; [done|]. split; [done|]. split; [|done].
  unfold fire. server_simpl. unfold clear. rewrite list_elem_of_filter.
  by intros [? _].
Qed.

Lemma handle_request_set_dec d request st :
  handle_request int show_number stringify request (set_dec d st)
  = match handle_request int show_number stringify request st with
    | Normal st' => Normal (set_dec d st')
    | Abrupt e st' => Abrupt e (set_dec d st')
    end.
Proof. unfold handle_request. by repeat case_match. Qed.

Lemma on_message_set_dec d m st :
  on_message int show_number parse stringify m (set_dec d st)
  = set_dec d (on_message int show_number parse stringify m st).
Proof.
  unfold on_message. destruct (parse m) as [e|request]; [done|].
  change (log ?t (set_dec d st)) with (set_dec d (log t st)).
  rewrite handle_request_set_dec. by destruct (handle_request _ _ _ _ _).
Qed.

Lemma handle_all_set_dec d ms st :
  foldl (fun st m => on_message int show_number parse stringify m st)
    (set_dec d st) ms
  = set_dec d
      (foldl (fun st m => on_message int show_number parse stringify m st)
         st ms).
Proof.
  revert st. induction ms as [|m ms IH]; intros st; [done|].
  cbn [foldl]. by rewrite on_message_set_dec, IH.
Qed.

(** Feeding chunks to the listener is decoding them and handling what
    comes out, in order. *)
Lemma feed_decode chunks st :
  feed int show_number parse stringify chunks st
  = match Framing.feed chunks (dec st) with
    | Some (d, ms) =>
        Some (set_dec d
                (foldl (fun st m =>
                          on_message int show_number parse stringify m st)
                   st ms))
    | None => None
    end.
Proof.
  revert st. induction chunks as [|c cs IH]; intros st.
  { cbn [feed Framing.feed foldl]. by destruct st. }
  cbn [feed Framing.feed]. unfold on_data.
  destruct (Framing.on_data c (dec st)) as [[d ms]|]; [|done].
  rewrite IH, handle_all_set_dec. cbn [dec set_dec].
  destruct (Framing.feed cs d) as [[d2 ms2]|]; [|done].
  by rewrite handle_all_set_dec, foldl_app.
Qed.

(** X11.  The server handles the frames it is sent one by one, in order.
    When the bytes of the frames of ASCII texts reach the listener, in
    chunks cut anywhere, the state it ends in is the one that handling
    the texts one after the other leads to, with the decoder back in its
    initial state: every request is answered from its own text alone. *)
Theorem server_handles_frames_in_order (texts : list Framing.jsstring)
    (chunks : list Framing.bytes) (st : state number) :
  dec st = Framing.initial →
  Forall Framing.ascii texts →
  concat chunks = concat (Framing.sendMessage <$> texts) →
  feed int show_number parse stringify chunks st
  = Some (foldl (fun st m => on_message int show_number parse stringify m st)
            st texts).
Proof.
  intros Hd Htexts Hchunks. rewrite feed_decode, Hd.
  rewrite (framing_roundtrip_ascii texts chunks Htexts Hchunks).
  rewrite <- handle_all_set_dec, <- Hd. by destruct st.
Qed.

End ServerFacts.


Lemma initialize_announces_the_listed_tools_witness :
  Server.timers
    (Server.caught
       (Server.handle_request (number:=Z) id (fun _ => []) (fun _ => [])
          (Server.record [("method", Server.str "initialize")])
          Server.initial))
  = [Js.Timer 0%nat 100%N None Server.tools_notification].
Proof.
  by destruct (initialize_announces_the_listed_tools (number:=Z)
                 id (fun _ => []) (fun _ => [])
                 (Server.record [("method", Server.str "initialize")])
                 Server.initial eq_refl)
    as (_ & H & _).
Defined.

Lemma server_handles_frames_in_order_witness :
  Server.feed (number:=Z) id (fun _ => []) (fun _ => inr Server.JNull)
    (fun _ => []) [Framing.lit "Content-Length: 2"; [13; 10; 13; 10; 123; 125]%N]
    Server.initial
  = Some (Server.on_message id (fun _ => []) (fun _ => inr Server.JNull)
            (fun _ => []) (Framing.lit "{}") Server.initial).
Proof.
  apply (server_handles_frames_in_order (number:=Z) id (fun _ => [])
           (fun _ => inr Server.JNull) (fun _ => []) [Framing.lit "{}"]).
  - reflexivity.
  - repeat constructor.
  - reflexivity.
Defined.

(** ** The two clients agree on the replies *)

Section Agreement.
Import Js.

Lemma clear_fresh {A} (ts : list (timer A)) nh d p (a : A) :
  (∀ t, t ∈ ts → handle t < nh) → clear nh (ts ++ [Timer nh d p a]) = ts.
Proof.
  intros Hts. unfold clear. rewrite filter_app.
  rewrite (filter_cons_False _ (Timer nh d p a)) by (cbn [handle]; tauto).
  rewrite filter_nil, app_nil_r.
  induction ts as [|t ts IH]; [done|].
  rewrite filter_cons_True.
  - f_equal. apply IH. intros t' Ht'. apply Hts. by right.
  - assert (handle t < nh) by (apply Hts; left). lia.
Qed.

Lemma clear_absent {A} (ts : list (timer A)) nh :
  (∀ t, t ∈ ts → handle t < nh) → clear nh ts = ts.
Proof.
  intros Hts. unfold clear. induction ts as [|t ts IH]; [done|].
  rewrite filter_cons_True.
  - f_equal. apply IH. intros t' Ht'. apply Hts. by right.
  - assert (handle t < nh) by (apply Hts; left). lia.
Qed.

Lemma settle_new {V} (s : settled V) (cs : list (settled V)) :
  settle (length cs) s (cs ++ [Pending]) = cs ++ [s].
Proof.
  unfold settle. rewrite list_lookup_middle by done.
  replace (length cs) with (length cs + 0) at 1 by lia.
  by rewrite insert_app_r.
Qed.

(** What the Cline side posts for a request whose collaborator ends in
    [r], when the relay takes the POST. *)
Lemma cline_file_reply path v :
  (∀ msg, Cline.routes v Cline.PostMessage ≠ Throws msg) →
  Cline.sent (Cline.handleMessage (Cline.fileRequest path) v)
  = Cline.sent v
    ++ [(Cline.PostMessage,
         Cline.Message
           match Cline.readFile (Cline.ctx v) (Some path) with
           | Cline.Done content =>
               Cline.fileContent (Some path) (Some content) None
           | Cline.Failed msg => Cline.fileContent (Some path) None (Some msg)
           end)].
Proof.
  intros Hr. unfold Cline.handleMessage, Cline.fileRequest.
  cbn [e_type String.eqb Ascii.eqb Bool.eqb].
  unfold Cline.handleFileRequest, Cline.try_catch. cbn [e_path]. cline_simpl.
  destruct (Cline.routes v Cline.PostMessage) as [e|ok st] eqn:E;
    [by destruct (Hr e)|].
  destruct (Cline.readFile (Cline.ctx v) (Some path)) as [content|msg];
    unfold Cline.post; cline_simpl; rewrite E; by cline_simpl.
Qed.

(** X12.  The reply to a file request settles the call it answers.  Let
    the Claude side call [getFile(path)] on a connected client whose relay
    accepts the request, and let the Cline side handle the request for the
    same path.  Whatever [readFile] does, the Cline side posts one
    message, and that message, handed to the Claude side as it was posted,
    settles the call: it resolves with the content read, or is rejected
    with the message of the error ([readFile] failing with an empty
    message resolves the call without a content, since the dispatcher
    tests the error for truth).  The entry of the path and the timeout
    of the call are gone, and nothing else has changed in the two
    tables and the timers. *)
Theorem file_reply_settles_getFile (path : string) (w : Claude.world)
    (v : Cline.world) (st : string) :
  Claude.connected w = true →
  Claude.routes w Claude.PostInvoke = Status true st →
  (∀ tm, tm ∈ Claude.timers w → handle tm < Claude.next_handle w) →
  (∀ msg, Cline.routes v Cline.PostMessage ≠ Throws msg) →
  ∃ reply w',
    Cline.sent (Cline.handleMessage (Cline.fileRequest path) v)
    = Cline.sent v ++ [(Cline.PostMessage, Cline.Message reply)]
    ∧ snd (Claude.getFile path w) = Awaiting (length (Claude.calls w))
    ∧ Claude.handleMessage reply (fst (Claude.getFile path w))
      = Claude.Normal w'
    ∧ Claude.calls w'
      = Claude.calls w
        ++ [match Cline.readFile (Cline.ctx v) (Some path) with
            | Cline.Done content => Resolved (Claude.VContent (Some content))
            | Cline.Failed msg =>
                if truthy (Some msg) then Rejected msg
                else Resolved (Claude.VContent None)
            end]
    ∧ Claude.fileContentHandlers w'
      = delete path (Claude.fileContentHandlers w)
    ∧ Claude.commandResultHandlers w' = Claude.commandResultHandlers w
    ∧ Claude.timers w' = Claude.timers w.
Proof.
  intros Hc Hr Hfresh Hpost.
  destruct (getFile_effect path w st Hc Hr)
    as (Hret & _ & _ & Hcalls & _ & Htimers & Hfile & Hcmd).
  pose proof (cline_file_reply path v Hpost) as Hreply.
  set (w1 := fst (Claude.getFile path w)) in *.
  assert (∀ content error,
    Claude.handleMessage (Cline.fileContent (Some path) content error) w1
    = Claude.Normal
        (Claude.set_fileContentHandlers
           (delete path (Claude.fileContentHandlers w))
           (Claude.fileHandler
              (Claude.Handler (length (Claude.calls w)) (Claude.next_handle w))
              content error w1))) as Hhandle.
  { intros content error. unfold Claude.handleMessage, Cline.fileContent.
    cbn [e_type e_path e_content e_error String.eqb Ascii.eqb Bool.eqb
         Claude.lookup_key Claude.delete_key].
    rewrite Hfile, lookup_insert_eq. do 2 f_equal.
    unfold Claude.fileHandler.
    destruct (truthy error); claude_simpl;
      by rewrite Hfile, delete_insert_eq. }
  destruct (Cline.readFile (Cline.ctx v) (Some path)) as [content|msg].
  - eexists _, _. split; [exact Hreply|]. split; [done|].
    split; [apply Hhandle|].
    unfold Claude.fileHandler. cbn [truthy]. claude_simpl.
    cbn [Claude.h_call Claude.h_timeout].
    rewrite Hcalls, Htimers, Hcmd, settle_new, clear_fresh by done. done.
  - eexists _, _. split; [exact Hreply|]. split; [done|].
    split; [apply Hhandle|].
    unfold Claude.fileHandler.
    destruct (truthy (Some msg)); claude_simpl;
      cbn [Claude.h_call Claude.h_timeout];
      rewrite Hcalls, Htimers, Hcmd, settle_new, clear_fresh by done; done.
Qed.

Lemma file_reply_settles_getFile_witness :
  ∃ reply w',
    Cline.sent (Cline.handleMessage (Cline.fileRequest "b.txt")
                  Cline.connected_client)
    = [(Cline.PostMessage, Cline.Message reply)]
    ∧ Claude.handleMessage reply
        (fst (Claude.getFile "b.txt" Claude.connected_client))
      = Claude.Normal w'
    ∧ Claude.calls w' = [Rejected "ENOENT: no such file or directory"]
    ∧ Claude.timers w' = Claude.timers Claude.connected_client.
Proof.
  destruct (file_reply_settles_getFile "b.txt" Claude.connected_client
              Cline.connected_client "OK" eq_refl eq_refl)
    as (reply & w' & H1 & _ & H2 & H3 & _ & _ & H4).
  - intros tm Htm. apply list_elem_of_singleton in Htm. subst tm.
    vm_compute. lia.
  - discriminate.
  - by exists reply, w'.
Defined.

Lemma cline_command_reply command v :
  (∀ msg, Cline.routes v Cline.PostMessage ≠ Throws msg) →
  Cline.sent (Cline.handleMessage (Cline.runCommand command) v)
  = Cline.sent v
    ++ [(Cline.PostMessage,
         Cline.Message
           match Cline.executeCommand (Cline.ctx v) (Some command) with
           | Cline.Done output =>
               Cline.commandResult (Some command) (Some output) true None
           | Cline.Failed msg =>
               Cline.commandResult (Some command) None false (Some msg)
           end)].
Proof.
  intros Hr. unfold Cline.handleMessage, Cline.runCommand.
  cbn [e_type String.eqb Ascii.eqb Bool.eqb].
  unfold Cline.handleExecuteCommand, Cline.try_catch. cbn [e_command].
  cline_simpl.
  destruct (Cline.routes v Cline.PostMessage) as [e|ok st] eqn:E;
    [by destruct (Hr e)|].
  destruct (Cline.executeCommand (Cline.ctx v) (Some command))
    as [output|msg];
    unfold Cline.post; cline_simpl; rewrite E; by cline_simpl.
Qed.

(** X13.  The reply to a command request settles the call it answers.
    With [executeCommand(command)] pending on the Claude side, the one
    message the Cline side posts for the request of the same command
    resolves the call with the output, or rejects it with the message of
    the error; a failure with an empty message resolves the call, with no
    output, since the dispatcher tests the error for truth and does not
    look at the [success] flag.  The entry of the command and the timeout
    of the call are gone. *)
Theorem command_reply_settles_executeCommand (command : string)
    (w : Claude.world) (v : Cline.world) (st : string) :
  Claude.connected w = true →
  Claude.routes w Claude.PostInvoke = Status true st →
  (∀ tm, tm ∈ Claude.timers w → handle tm < Claude.next_handle w) →
  (∀ msg, Cline.routes v Cline.PostMessage ≠ Throws msg) →
  ∃ reply w',
    Cline.sent (Cline.handleMessage (Cline.runCommand command) v)
    = Cline.sent v ++ [(Cline.PostMessage, Cline.Message reply)]
    ∧ snd (Claude.executeCommand command w)
      = Awaiting (length (Claude.calls w))
    ∧ Claude.handleMessage reply (fst (Claude.executeCommand command w))
      = Claude.Normal w'
    ∧ Claude.calls w'
      = Claude.calls w
        ++ [match Cline.executeCommand (Cline.ctx v) (Some command) with
            | Cline.Done output => Resolved (Claude.VCommand (Some output))
            | Cline.Failed msg =>
                if truthy (Some msg) then Rejected msg
                else Resolved (Claude.VCommand None)
            end]
    ∧ Claude.commandResultHandlers w'
      = delete command (Claude.commandResultHandlers w)
    ∧ Claude.fileContentHandlers w' = Claude.fileContentHandlers w
    ∧ Claude.timers w' = Claude.timers w.
Proof.
  intros Hc Hr Hfresh Hpost.
  destruct (executeCommand_effect command w st Hc Hr)
    as (Hret & _ & _ & Hcalls & _ & Htimers & Hcmd & Hfile).
  pose proof (cline_command_reply command v Hpost) as Hreply.
  set (w1 := fst (Claude.executeCommand command w)) in *.
  assert (∀ output success error,
    Claude.handleMessage
      (Cline.commandResult (Some command) output success error) w1
    = Claude.Normal
        (Claude.set_commandResultHandlers
           (delete command (Claude.commandResultHandlers w))
           (Claude.cmdHandler
              (Claude.Handler (length (Claude.calls w)) (Claude.next_handle w))
              output error w1))) as Hhandle.
  { intros output success error.
    unfold Claude.handleMessage, Cline.commandResult.
    cbn [e_type e_command e_output e_error String.eqb Ascii.eqb Bool.eqb
         Claude.lookup_key Claude.delete_key].
    rewrite Hcmd, lookup_insert_eq. do 2 f_equal.
    unfold Claude.cmdHandler.
    destruct (truthy error); claude_simpl;
      by rewrite Hcmd, delete_insert_eq. }
  destruct (Cline.executeCommand (Cline.ctx v) (Some command))
    as [output|msg].
  - eexists _, _. split; [exact Hreply|]. split; [done|].
    split; [apply Hhandle|].
    unfold Claude.cmdHandler. cbn [truthy]. claude_simpl.
    cbn [Claude.h_call Claude.h_timeout].
    rewrite Hcalls, Htimers, Hfile, settle_new, clear_fresh by done. done.
  - eexists _, _. split; [exact Hreply|]. split; [done|].
    split; [apply Hhandle|].
    unfold Claude.cmdHandler.
    destruct (truthy (Some msg)); claude_simpl;
      cbn [Claude.h_call Claude.h_timeout];
      rewrite Hcalls, Htimers, Hfile, settle_new, clear_fresh by done; done.
Qed.

Lemma command_reply_settles_executeCommand_witness :
  ∃ reply w',
    Cline.sent (Cline.handleMessage (Cline.runCommand "ls")
                  Cline.connected_client)
    = [(Cline.PostMessage, Cline.Message reply)]
    ∧ Claude.handleMessage reply
        (fst (Claude.executeCommand "ls" Claude.connected_client))
      = Claude.Normal w'
    ∧ Claude.calls w' = [Rejected "Command failed"]
    ∧ Claude.timers w' = Claude.timers Claude.connected_client.
Proof.
  destruct (command_reply_settles_executeCommand "ls" Claude.connected_client
              Cline.connected_client "OK" eq_refl eq_refl)
    as (reply & w' & H1 & _ & H2 & H3 & _ & _ & H4).
  - intros tm Htm. apply list_elem_of_singleton in Htm. subst tm.
    vm_compute. lia.
  - discriminate.
  - by exists reply, w'.
Defined.

Lemma cline_update_reply path content v :
  (∀ msg, Cline.routes v Cline.PostMessage ≠ Throws msg) →
  Cline.sent (Cline.handleMessage (Cline.updateCode path content) v)
  = Cline.sent v
    ++ [(Cline.PostMessage,
         Cline.Message
           match Cline.writeFile (Cline.ctx v) (Some path) (Some content) with
           | Cline.Done _ => Cline.updateCodeResult (Some path) true None
           | Cline.Failed msg =>
               Cline.updateCodeResult (Some path) false (Some msg)
           end)].
Proof.
  intros Hr. unfold Cline.handleMessage, Cline.updateCode.
  cbn [e_type String.eqb Ascii.eqb Bool.eqb].
  unfold Cline.handleUpdateCode, Cline.try_catch. cbn [e_path e_content].
  cline_simpl.
  destruct (Cline.routes v Cline.PostMessage) as [e|ok st] eqn:E;
    [by destruct (Hr e)|].
  destruct (Cline.writeFile (Cline.ctx v) (Some path) (Some content))
    as [[]|msg];
    unfold Cline.post; cline_simpl; rewrite E; by cline_simpl.
Qed.

Lemma find_app_None {A} (f : A → bool) (l1 l2 : list A) :
  List.find f l1 = None → List.find f (l1 ++ l2) = List.find f l2.
Proof.
  induction l1 as [|x l1 IH]; [done|]. simpl. by destruct (f x).
Qed.

Lemma rearm_absent {A} (t : timer A) (ts : list (timer A)) :
  (∀ t', t' ∈ ts → handle t' ≠ handle t) → is_Some (period t) →
  rearm t ts = ts.
Proof.
  intros Hts [p Hp]. unfold rearm. rewrite Hp.
  induction ts as [|t' ts IH]; [done|]. cbn [fmap list_fmap].
  rewrite decide_False by (apply Hts; left).
  f_equal. apply IH. intros t'' Ht''. apply Hts. by right.
Qed.

(** X14.  The reply to an update request settles the call when the check
    of the call is the one that reads it.  With [updateFile(path, content)]
    pending on the Claude side and no earlier result for [path] in the
    mailbox, the one message the Cline side posts for the request reaches
    the mailbox; the next run of the interval the call has armed resolves
    the call with [File <path> updated successfully] when [writeFile]
    succeeded and otherwise rejects it with the message of the error, or
    with [Failed to update file] when that message is empty.  The
    interval and the timeout of the call are gone, and the mailbox is
    empty. *)
Theorem update_reply_settles_updateFile (path content : string)
    (w : Claude.world) (v : Cline.world) (st : string) :
  Claude.connected w = true →
  Claude.routes w Claude.PostInvoke = Status true st →
  (∀ tm, tm ∈ Claude.timers w → handle tm < Claude.next_handle w) →
  (∀ msg, Claude.routes w Claude.GetPing ≠ Throws msg) →
  (∀ msg, Claude.routes w Claude.GetMessages ≠ Throws msg) →
  List.find (Claude.is_update_result path) (Claude.mailbox w) = None →
  (∀ msg, Cline.routes v Cline.PostMessage ≠ Throws msg) →
  ∃ reply,
    Cline.sent (Cline.handleMessage (Cline.updateCode path content) v)
    = Cline.sent v ++ [(Cline.PostMessage, Cline.Message reply)]
    ∧ let w1 := fst (Claude.updateFile path content w) in
      let w2 := Claude.exec (Claude.EvEnqueue reply) w1 in
      let w3 := Claude.exec (Claude.EvTimer (S (Claude.next_handle w))) w2 in
      snd (Claude.updateFile path content w)
      = Awaiting (length (Claude.calls w))
      ∧ Claude.calls w3
        = Claude.calls w
          ++ [match Cline.writeFile (Cline.ctx v) (Some path) (Some content)
              with
              | Cline.Done _ =>
                  Resolved (Claude.VUpdate ("File " +:+ path
                                            +:+ " updated successfully"))
              | Cline.Failed msg =>
                  Rejected (if truthy (Some msg) then msg
                            else "Failed to update file")
              end]
      ∧ Claude.timers w3 = Claude.timers w
      ∧ Claude.mailbox w3 = []
      ∧ Claude.invoked w3 = Claude.invoked w.
Proof.
  intros Hc Hr Hfresh Hp Hg Hnone Hpost.
  destruct (updateFile_effect path content w st Hc Hr)
    as (Hret & Hcalls & _ & Htimers).
  pose proof (cline_update_reply path content v Hpost) as Hreply.
  set (nh := Claude.next_handle w) in *.
  set (c := length (Claude.calls w)) in *.
  assert (∀ v0, Claude.mailbox (fst (Claude.updateFile path content v0))
                = Claude.mailbox v0
              ∧ Claude.invoked (fst (Claude.updateFile path content v0))
                = Claude.invoked v0
              ∧ Claude.routes (fst (Claude.updateFile path content v0))
                = Claude.routes v0) as Hsame.
  { intros v0. unfold Claude.updateFile, Claude.invoke.
    destruct (Claude.connected v0); [|done]. claude_simpl.
    by destruct (Claude.routes v0 Claude.PostInvoke) as [|[]]. }
  destruct (Hsame w) as (Hmail & Hinv & Hroutes).
  assert (∀ success error,
    let reply := Cline.updateCodeResult (Some path) success error in
    let w2 := Claude.exec (Claude.EvEnqueue reply)
                (fst (Claude.updateFile path content w)) in
    let w3 := Claude.exec (Claude.EvTimer (S nh)) w2 in
    Claude.calls w3
    = Claude.calls w
      ++ [if success
          then Resolved (Claude.VUpdate ("File " +:+ path
                                         +:+ " updated successfully"))
          else Rejected (if truthy error then show error
                         else "Failed to update file")]
    ∧ Claude.timers w3 = Claude.timers w
    ∧ Claude.mailbox w3 = []
    ∧ Claude.invoked w3 = Claude.invoked w) as Hrun.
  { intros success error reply w2 w3.
    set (tm := Timer (S nh) (Claude.now w + 1000)%N (Some 1000%N)
                 (Claude.UpdateCheck path c nh)).
    assert (List.find (fun t => bool_decide (handle t = S nh))
              (Claude.timers w2) = Some tm) as Hfind.
    { unfold w2. cbn [Claude.exec]. claude_simpl. rewrite Htimers.
      apply find_armed; [|done]. intros t Ht.
      apply elem_of_app in Ht as [Ht|Ht%list_elem_of_singleton].
      - apply Hfresh in Ht. fold nh in Ht. lia.
      - subst t. cbn [handle]. lia. }
    assert (Claude.timers w2
            = (Claude.timers w
               ++ [Timer nh (Claude.now w + 30000)%N None
                     (Claude.UpdateTimeout c)]) ++ [tm]) as Htimers2.
    { unfold w2. cbn [Claude.exec]. claude_simpl. by rewrite Htimers. }
    assert (Claude.calls w2 = Claude.calls w ++ [Pending]) as Hcalls2.
    { unfold w2. cbn [Claude.exec]. by claude_simpl. }
    assert (Claude.invoked w2 = Claude.invoked w) as Hinv2.
    { unfold w2. cbn [Claude.exec]. by claude_simpl. }
    assert (Claude.routes w2 = Claude.routes w) as Hroutes2.
    { unfold w2. cbn [Claude.exec]. by claude_simpl. }
    assert (Claude.mailbox w2 = Claude.mailbox w ++ [reply]) as Hmail2.
    { unfold w2. cbn [Claude.exec]. claude_simpl. by rewrite Hmail. }
    assert (clear nh (clear (S nh) (Claude.timers w2)) = Claude.timers w)
      as Hclear.
    { rewrite Htimers2. unfold tm. rewrite clear_fresh.
      - by apply clear_fresh.
      - intros t Ht.
        apply elem_of_app in Ht as [Ht|Ht%list_elem_of_singleton].
        + apply Hfresh in Ht. fold nh in Ht. lia.
        + subst t. cbn [handle]. lia. }
    assert (rearm tm (Claude.timers w) = Claude.timers w) as Hrearm.
    { apply rearm_absent; [|by eexists]. intros t' Ht'.
      apply Hfresh in Ht'. fold nh in Ht'. cbn [handle tm]. lia. }
    assert (Claude.is_update_result path reply = true) as Hmatch.
    { unfold Claude.is_update_result, reply, Cline.updateCodeResult.
      cbn [e_type e_path]. by rewrite bool_decide_eq_true_2. }
    unfold w3. rewrite (exec_update_check (S nh) tm path c nh w2 Hfind eq_refl).
    clearbody w2. unfold Claude.update_check. claude_simpl.
    rewrite Hroutes2.
    destruct (Claude.routes w Claude.GetPing) as [e|ok1 st1] eqn:E1;
      [by destruct (Hp e)|].
    unfold Claude.hasUpdates. claude_simpl. rewrite Hmail2.
    rewrite length_app, Nat.add_comm. cbn [length Nat.add Nat.eqb negb].
    destruct (Claude.routes w Claude.GetMessages) as [e|ok2 st2] eqn:E2;
      [by destruct (Hg e)|].
    rewrite (find_app_None _ _ _ Hnone). cbn [List.find]. rewrite Hmatch.
    unfold reply, Cline.updateCodeResult. cbn [e_success e_error truthy_bool].
    destruct success;
      [change (negb (truthy_bool (Some true))) with false
      |change (negb (truthy_bool (Some false))) with true];
      claude_simpl;
      rewrite Hclear, Hcalls2, Hinv2, Hrearm; unfold c;
      by rewrite settle_new. }
  destruct (Cline.writeFile (Cline.ctx v) (Some path) (Some content))
    as [[]|msg].
  - eexists. split; [exact Hreply|]. cbn zeta. split; [done|].
    apply (Hrun true None).
  - eexists. split; [exact Hreply|]. cbn zeta. split; [done|].
    apply (Hrun false (Some msg)).
Qed.

Lemma update_reply_settles_updateFile_witness :
  ∃ reply,
    Cline.sent (Cline.handleMessage (Cline.updateCode "a.txt" "hello")
                  Cline.connected_client)
    = [(Cline.PostMessage, Cline.Message reply)]
    ∧ Claude.calls
        (Claude.exec (Claude.EvTimer 2)
           (Claude.exec (Claude.EvEnqueue reply)
              (fst (Claude.updateFile "a.txt" "hello"
                      Claude.connected_client))))
      = [Rejected "EACCES: permission denied"].
Proof.
  destruct (update_reply_settles_updateFile "a.txt" "hello"
              Claude.connected_client Cline.connected_client "OK"
              eq_refl eq_refl)
    as (reply & H1 & _ & H2 & _); try done.
  - intros tm Htm. apply list_elem_of_singleton in Htm. subst tm.
    vm_compute. lia.
  - by exists reply.
Defined.

End Agreement.

(** ** The poll loops and what ends them *)

Section PollLoops.
Import Js.

Lemma rearm_keeps {A} (t : timer A) (ts : list (timer A)) (t' : timer A) :
  t' ∈ ts → handle t' ≠ handle t → t' ∈ rearm t ts.
Proof.
  intros Hin Hne. unfold rearm. destruct (period t) as [p|].
  - apply list_elem_of_fmap. exists t'. by rewrite decide_False.
  - unfold clear. by apply list_elem_of_filter.
Qed.

(** The poll tick of the Claude side when handling the first message of
    the batch throws. *)
Lemma claude_tick_throws w h tm m rest msg w1 :
  List.find (fun t => bool_decide (handle t = h)) (Claude.timers w) = Some tm →
  act tm = Claude.PollTick →
  (∀ t, t ∈ Claude.timers w → handle t < Claude.next_handle w) →
  Claude.connected w = true →
  (∀ e, Claude.routes w Claude.GetPing ≠ Throws e) →
  (∀ e, Claude.routes w Claude.GetMessages ≠ Throws e) →
  Claude.mailbox w = m :: rest →
  (∀ w0, Claude.messageHandlers w0 = Claude.messageHandlers w →
     Claude.handleMessage m w0
     = Claude.Abrupt msg (Claude.set_invoked (Claude.invoked w0 ++ w1) w0)) →
  let w' := Claude.exec (Claude.EvTimer h) w in
  Claude.connected w' = false
  ∧ Claude.mailbox w' = []
  ∧ Claude.sent w' = Claude.sent w
  ∧ Claude.invoked w' = Claude.invoked w ++ w1
  ∧ Claude.console w'
    = Claude.console w
      ++ ["Received " +:+ pretty (S (length rest)) +:+ " messages from Cline";
          "Error polling for messages: " +:+ msg;
          "Lost connection to server. Will retry..."]
  ∧ Timer (Claude.next_handle w) (N.max (Claude.now w) (due tm) + 5000) None
      Claude.Reconnect ∈ Claude.timers w'.
Proof.
  intros Hf Ha Hfresh Hc Hp Hg Hm Hthrow w'. unfold w'. cbn [Claude.exec].
  rewrite Hf. unfold Claude.fire, Claude.body. rewrite Ha.
  unfold Claude.poll_tick. claude_simpl.
  destruct (Claude.routes w Claude.GetPing) as [e|ok st] eqn:Ep;
    [by destruct (Hp e)|].
  unfold Claude.hasUpdates. claude_simpl. rewrite Hm.
  cbn [length Nat.eqb negb].
  destruct (Claude.routes w Claude.GetMessages) as [e|ok' st'] eqn:Eg;
    [by destruct (Hg e)|].
  cbn [Claude.handleAll].
  match goal with
  | |- context [Claude.handleMessage m ?w0] =>
      rewrite (Hthrow w0 eq_refl)
  end.
  unfold Claude.poll_failed. claude_simpl. rewrite Hc.
  unfold Claude.reconnectDelay. claude_simpl.
  do 4 (split; [done|]). split; [by rewrite <- !app_assoc|].
  apply rearm_keeps; [apply elem_of_app; right; by left|].
  cbn [handle]. destruct (found_handle _ _ _ Hf) as [Hin _].
  apply Hfresh in Hin. lia.
Qed.

(** X15.  An error thrown while a message is handled is taken for a lost
    connection.  The dispatcher of the Claude side has no [try] of its
    own.  When the first message of a drained batch is a [messages]
    envelope without its array, or a [message] for which an observer
    throws, the poll tick ends in its [catch]: the rest of the batch,
    already taken from the relay, is handled by nobody (the record of
    invocations holds the calls made for the first message and no other),
    the error is logged as a polling error, and the client, which was
    connected to a relay that answers, marks itself disconnected and arms
    the reconnect probe 5 s later. *)
Theorem handler_error_is_taken_for_a_lost_connection (w : Claude.world)
    (h : nat) (tm : timer Claude.action) (m : envelope)
    (rest : list envelope) :
  List.find (fun t => bool_decide (handle t = h)) (Claude.timers w) = Some tm →
  act tm = Claude.PollTick →
  (∀ t, t ∈ Claude.timers w → handle t < Claude.next_handle w) →
  Claude.connected w = true →
  (∀ e, Claude.routes w Claude.GetPing ≠ Throws e) →
  (∀ e, Claude.routes w Claude.GetMessages ≠ Throws e) →
  Claude.mailbox w = m :: rest →
  let w' := Claude.exec (Claude.EvTimer h) w in
  (e_type m = "messages" → e_messages m = None →
   Claude.connected w' = false
   ∧ Claude.mailbox w' = []
   ∧ Claude.sent w' = Claude.sent w
   ∧ Claude.invoked w' = Claude.invoked w
   ∧ Claude.console w'
     = Claude.console w
       ++ ["Received " +:+ pretty (S (length rest)) +:+ " messages from Cline";
           "Error polling for messages: "
           +:+ "Cannot read properties of undefined (reading 'forEach')";
           "Lost connection to server. Will retry..."]
   ∧ Timer (Claude.next_handle w) (N.max (Claude.now w) (due tm) + 5000) None
       Claude.Reconnect ∈ Claude.timers w')
  ∧ (∀ hs1 o hs2 msg,
       e_type m = "message" →
       Claude.messageHandlers w = hs1 ++ o :: hs2 →
       (∀ o', o' ∈ hs1 →
              Claude.ob_throws o' (e_content m) (e_from m) = None) →
       Claude.ob_throws o (e_content m) (e_from m) = Some msg →
       Claude.connected w' = false
       ∧ Claude.mailbox w' = []
       ∧ Claude.sent w' = Claude.sent w
       ∧ Claude.invoked w'
         = Claude.invoked w
           ++ ((fun o => (Claude.ob_id o, e_content m, e_from m))
                 <$> hs1 ++ [o])
       ∧ Claude.console w'
         = Claude.console w
           ++ ["Received " +:+ pretty (S (length rest))
               +:+ " messages from Cline";
               "Error polling for messages: " +:+ msg;
               "Lost connection to server. Will retry..."]
       ∧ Timer (Claude.next_handle w)
           (N.max (Claude.now w) (due tm) + 5000) None Claude.Reconnect
         ∈ Claude.timers w').
Proof.
  intros Hf Ha Hfresh Hc Hp Hg Hm w'. split.
  - intros Et En.
    destruct (claude_tick_throws w h tm m rest
                "Cannot read properties of undefined (reading 'forEach')" []
                Hf Ha Hfresh Hc Hp Hg Hm) as (H1 & H2 & H3 & H4 & H5 & H6).
    { intros w0 _. unfold Claude.handleMessage. rewrite Et, En.
      cbn [String.eqb Ascii.eqb Bool.eqb]. rewrite app_nil_r.
      by destruct w0. }
    rewrite app_nil_r in H4. done.
  - intros hs1 o hs2 msg Et Hhs Hq Ht.
    apply (claude_tick_throws w h tm m rest msg _ Hf Ha Hfresh Hc Hp Hg Hm).
    intros w0 Hw0. unfold Claude.handleMessage. rewrite Et.
    cbn [String.eqb Ascii.eqb Bool.eqb]. unfold Claude.notify.
    rewrite Hw0, Hhs. by apply forEach_throws.
Qed.

Lemma handler_error_is_taken_for_a_lost_connection_witness :
  let w := Claude.execs
             [Claude.EvOnMessage (Claude.Observer 7 (fun _ _ => Some "boom"));
              Claude.EvOnMessage (Claude.quiet 8);
              Claude.EvEnqueue Claude.message_hi;
              Claude.EvEnqueue Claude.changed_a]
             Claude.connected_client in
  let w' := Claude.exec (Claude.EvTimer 0) w in
  Claude.connected w' = false
  ∧ Claude.mailbox w' = []
  ∧ Claude.invoked w' = [(7%nat, Some "hi", Some "cline")].
Proof.
  intros w w'.
  destruct (handler_error_is_taken_for_a_lost_connection w 0%nat
              (Timer 0%nat 2000%N (Some 2000%N) Claude.PollTick)
              Claude.message_hi [Claude.changed_a] eq_refl eq_refl)
    as [_ H].
  - intros t Ht. apply list_elem_of_singleton in Ht. subst t.
    vm_compute. lia.
  - reflexivity.
  - discriminate.
  - discriminate.
  - reflexivity.
  - destruct (H [] (Claude.Observer 7 (fun _ _ => Some "boom"))
                [Claude.quiet 8] "boom" eq_refl eq_refl)
      as (H1 & H2 & _ & H4 & _).
    + by intros o' ?%elem_of_nil.
    + reflexivity.
    + split; [exact H1|]. split; [exact H2|exact H4].
Defined.

End PollLoops.

(** ** The request handlers of the Cline side and the relay *)

Section ClineReplies.
Import Js Cline.

Implicit Types (w : world) (m : envelope).

Lemma mcp_result_log m s w : mcp_result m (log s w) = mcp_result m w.
Proof. reflexivity. Qed.



(** X17.  A reply whose POST fails is posted a second time, as a failure.
    The POST of a reply stands inside the [try] whose [catch] posts the
    failure reply.  When the relay cannot be reached and the collaborator
    has succeeded, each of the four handlers therefore posts twice: the
    reply that reports success, then a reply that reports the failure of
    the relay as if it were the collaborator's.  The second POST fails as
    well, and its error is what [handleMessage] logs. *)
Theorem reply_is_posted_again_when_its_post_fails m w (e e' : string) :
  routes w PostMessage = Throws e →
  routes w PostResponse = Throws e' →
  (∀ content, e_type m = "fileRequest" →
     readFile (ctx w) (e_path m) = Done content →
     sent (handleMessage m w)
     = sent w
       ++ [(PostMessage, Message (fileContent (e_path m) (Some content) None));
           (PostMessage, Message (fileContent (e_path m) None (Some e)))]
     ∧ logged (handleMessage m w)
       = logged w ++ ["Processing message of type: fileRequest";
                      "Error handling message: " +:+ e])
  ∧ (∀ u, e_type m = "updateCode" →
       writeFile (ctx w) (e_path m) (e_content m) = Done u →
       sent (handleMessage m w)
       = sent w
         ++ [(PostMessage, Message (updateCodeResult (e_path m) true None));
             (PostMessage,
              Message (updateCodeResult (e_path m) false (Some e)))]
       ∧ logged (handleMessage m w)
         = logged w ++ ["Processing message of type: updateCode";
                        "Error handling message: " +:+ e])
  ∧ (∀ output, e_type m = "executeCommand" →
       executeCommand (ctx w) (e_command m) = Done output →
       sent (handleMessage m w)
       = sent w
         ++ [(PostMessage,
              Message (commandResult (e_command m) (Some output) true None));
             (PostMessage,
              Message (commandResult (e_command m) None false (Some e)))]
       ∧ logged (handleMessage m w)
         = logged w ++ ["Processing message of type: executeCommand";
                        "Error handling message: " +:+ e])
  ∧ (∀ result, e_type m = "mcp_invoke" →
       mcp_result m w = Done result →
       sent (handleMessage m w)
       = sent w
         ++ [(PostResponse, Response (e_id m) result);
             (PostResponse, Response (e_id m) (RpcError (-32000) e'))]
       ∧ logged (handleMessage m w)
         = logged w ++ ["Processing message of type: mcp_invoke";
                        "Error handling message: " +:+ e']).
Proof.
  intros Hm Hr. split; [|split; [|split]].
  - intros content Et Hc. unfold handleMessage. rewrite Et.
    cbn [String.eqb Ascii.eqb Bool.eqb].
    unfold handleFileRequest, try_catch. cline_simpl. rewrite Hc.
    unfold post. cline_simpl. rewrite Hm. cline_simpl. rewrite Hm.
    cline_simpl. by rewrite <- !app_assoc.
  - intros u Et Hc. unfold handleMessage. rewrite Et.
    cbn [String.eqb Ascii.eqb Bool.eqb].
    unfold handleUpdateCode, try_catch. cline_simpl. rewrite Hc.
    unfold post. cline_simpl. rewrite Hm. cline_simpl. rewrite Hm.
    cline_simpl. by rewrite <- !app_assoc.
  - intros output Et Hc. unfold handleMessage. rewrite Et.
    cbn [String.eqb Ascii.eqb Bool.eqb].
    unfold handleExecuteCommand, try_catch. cline_simpl. rewrite Hc.
    unfold post. cline_simpl. rewrite Hm. cline_simpl. rewrite Hm.
    cline_simpl. by rewrite <- !app_assoc.
  - intros result Et Hc. unfold handleMessage. rewrite Et.
    cbn [String.eqb Ascii.eqb Bool.eqb].
    unfold handleMcpInvoke, try_catch. rewrite mcp_result_log, Hc.
    unfold post. cline_simpl. rewrite Hr. cline_simpl. rewrite Hr.
    cline_simpl. by rewrite <- !app_assoc.
Qed.

Lemma reply_is_posted_again_when_its_post_fails_witness :
  sent (handleMessage (runCommand "ls")
          (set_routes unreachable
             (constructor (Context (fun _ => Done "data") (fun _ _ => Done ())
                             (fun _ => Done "a.txt"))
                all_ok "1.00" [])))
  = [(PostMessage,
      Message (commandResult (Some "ls") (Some "a.txt") true None));
     (PostMessage,
      Message
        (commandResult (Some "ls") None false
           (Some "request to http://localhost:2612 failed, reason: connect ECONNREFUSED")))].
Proof.
  destruct (reply_is_posted_again_when_its_post_fails (runCommand "ls")
              (set_routes unreachable
                 (constructor (Context (fun _ => Done "data")
                                 (fun _ _ => Done ()) (fun _ => Done "a.txt"))
                    all_ok "1.00" []))
              _ _ eq_refl eq_refl) as (_ & _ & H & _).
  exact (proj1 (H "a.txt" eq_refl eq_refl)).
Defined.

Lemma handleMessage_mailbox m w : mailbox (handleMessage m w) = mailbox w.
Proof.
  unfold handleMessage, handleFileRequest, handleUpdateCode,
    handleExecuteCommand, handleMcpInvoke, try_catch, post.
  repeat (case_match; simplify_eq/=; try done).
Qed.

Lemma handleMessage_logged m w :
  ∃ l, logged (handleMessage m w)
       = logged w ++ ("Processing message of type: " +:+ e_type m) :: l.
Proof.
  unfold handleMessage, handleFileRequest, handleUpdateCode,
    handleExecuteCommand, handleMcpInvoke, try_catch, post.
  repeat (case_match; simplify_eq/=);
    rewrite <- ?app_assoc; eexists; reflexivity.
Qed.

Lemma handleAll_mailbox ms w :
  mailbox (foldl (fun w m => handleMessage m w) w ms) = mailbox w.
Proof.
  revert w. induction ms as [|m ms IH]; intros w; [done|]. simpl.
  by rewrite IH, handleMessage_mailbox.
Qed.

Lemma handleAll_logged ms w :
  ∃ l, logged (foldl (fun w m => handleMessage m w) w ms) = logged w ++ l
       ∧ ∀ m, m ∈ ms → ("Processing message of type: " +:+ e_type m) ∈ l.
Proof.
  revert w. induction ms as [|m ms IH]; intros w.
  { exists []. split; [by rewrite app_nil_r|]. by intros m ?%elem_of_nil. }
  simpl. destruct (IH (handleMessage m w)) as (l & -> & Hl).
  destruct (handleMessage_logged m w) as [l0 ->].
  exists (("Processing message of type: " +:+ e_type m) :: l0 ++ l).
  split; [by rewrite <- app_assoc|].
  intros m' [->|Hin]%elem_of_cons; [by left|].
  right. apply elem_of_app. right. by apply Hl.
Qed.

(** X18.  No message ends the poll loop of the Cline side.  A poll tick
    whose two requests are answered handles every message of the batch,
    whatever its type and whatever becomes of the collaborators and of
    the POSTs of the replies: every message is announced in the log, the
    mailbox is left empty, the client stays as connected as it was, and
    the timers are the ones there were, with the interval armed again; in
    particular no reconnect probe is armed. *)
Theorem cline_tick_survives_every_message w (h : nat) (tm : timer action) :
  List.find (fun t => bool_decide (handle t = h)) (timers w) = Some tm →
  act tm = PollTick →
  (∀ e, routes w GetPing ≠ Throws e) →
  (∀ e, routes w GetMessages ≠ Throws e) →
  let w' := exec (EvTimer h) w in
  connected w' = connected w
  ∧ mailbox w' = []
  ∧ timers w' = rearm tm (timers w)
  ∧ ∀ m, m ∈ mailbox w →
         ("Processing message of type: " +:+ e_type m) ∈ logged w'.
Proof.
  intros Hf Ha Hp Hg w'. unfold w'. cbn [exec]. rewrite Hf.
  unfold fire, body. rewrite Ha. unfold poll_tick. cline_simpl.
  destruct (routes w GetPing) as [e|ok st] eqn:Ep; [by destruct (Hp e)|].
  unfold hasUpdates. cline_simpl.
  destruct (mailbox w) as [|m0 rest] eqn:Em.
  { cbn [length Nat.eqb negb]. cline_simpl. rewrite ?Em.
    do 3 (split; [done|]). by intros m ?%elem_of_nil. }
  cbn [length Nat.eqb negb].
  destruct (routes w GetMessages) as [e|ok' st'] eqn:Eg;
    [by destruct (Hg e)|].
  cbn [drain]. cline_simpl. rewrite ?Em. cbn [length Nat.eqb negb].
  match goal with
  | |- context [foldl _ ?w0 ?ms] =>
      destruct (handleAll_quiet ms w0) as [Hc Ht];
      pose proof (handleAll_mailbox ms w0) as Hb;
      destruct (handleAll_logged ms w0) as (l & Hl & Hin)
  end.
  cline_simpl. rewrite Hc, Hb, Ht, Hl. cline_simpl.
  do 3 (split; [done|]).
  intros m Hm. apply elem_of_app. right. by apply Hin.
Qed.

Lemma cline_tick_survives_every_message_witness :
  let w := execs [EvEnqueue (bare "mcp_invoke"); EvEnqueue (fileRequest "b.txt")]
             (set_routes (fun e => match e with
                                   | PostMessage | PostResponse => Throws "down"
                                   | _ => Status true "OK"
                                   end) connected_client) in
  connected (exec (EvTimer 0) w) = true
  ∧ mailbox (exec (EvTimer 0) w) = []
  ∧ act <$> timers (exec (EvTimer 0) w) = [PollTick].
Proof.
  intros w.
  destruct (cline_tick_survives_every_message w 0
              (Timer 0%nat 2000%N (Some 2000%N) PollTick) eq_refl eq_refl)
    as (H1 & H2 & H3 & _); [discriminate..|].
  split; [exact H1|]. split; [exact H2|]. by rewrite H3.
Defined.

End ClineReplies.

(** ** Observers and the end of a client *)

Section ObserversMore.
Import Js Claude.

Lemma forEach_ids hs a b w :
  ∃ l, after (forEach hs a b w) = set_invoked (invoked w ++ l) w
       ∧ ∀ i, i ∈ l → ∃ o, o ∈ hs ∧ i = (ob_id o, a, b).
Proof.
  revert w. induction hs as [|h hs IH]; intros w.
  { exists []. split; [|by intros i ?%elem_of_nil].
    rewrite app_nil_r. by destruct w. }
  cbn [forEach]. destruct (ob_throws h a b) as [msg|].
  - exists [(ob_id h, a, b)]. split; [done|].
    intros i ->%list_elem_of_singleton. exists h. split; [by left|done].
  - destruct (IH (set_invoked (invoked w ++ [(ob_id h, a, b)]) w))
      as (l & -> & Hl).
    exists ((ob_id h, a, b) :: l). split.
    + claude_simpl. by rewrite <- app_assoc.
    + intros i [->|Hin]%elem_of_cons.
      * exists h. split; [by left|done].
      * destruct (Hl i Hin) as (o & Ho & ->). exists o. split; [by right|done].
Qed.

(** X19.  The function returned by [onMessage] removes every registration
    of its observer.  After an observer was registered twice and the
    function returned for it was called once, the list of observers is the
    one before the two registrations without any entry that is this
    observer, the others in their order; a notification that follows
    calls it not once. *)
Theorem unsubscribe_removes_every_registration (o : observer) (w : world)
    (a b : option string) :
  let w' := unsubscribe (ob_id o) (onMessage o (onMessage o w)) in
  messageHandlers w'
  = filter (fun h' => ob_id h' ≠ ob_id o) (messageHandlers w)
  ∧ ∃ l, invoked (after (notify a b w')) = invoked w ++ l
         ∧ ∀ i, i ∈ l → i.1.1 ≠ ob_id o.
Proof.
  intros w'.
  assert (messageHandlers w'
          = filter (fun h' => ob_id h' ≠ ob_id o) (messageHandlers w)) as E.
  { unfold w', unsubscribe, onMessage. claude_simpl.
    rewrite !filter_app. rewrite !filter_cons_False by (intros H; by apply H).
    by rewrite filter_nil, !app_nil_r. }
  split; [done|]. unfold notify.
  destruct (forEach_ids (messageHandlers w') a b w') as (l & -> & Hl).
  exists l. split; [done|].
  intros i Hi. destruct (Hl i Hi) as (o' & Ho' & ->). cbn [fst].
  rewrite E in Ho'. by apply list_elem_of_filter in Ho' as [Hne _].
Qed.

End ObserversMore.

Section Cleanup.
Import Js.

Lemma find_clear_ne {A} (ts : list (timer A)) (h h0 : nat) :
  h ≠ h0 →
  List.find (fun t => bool_decide (handle t = h)) (clear h0 ts)
  = List.find (fun t => bool_decide (handle t = h)) ts.
Proof.
  intros Hne. unfold clear. induction ts as [|t ts IH]; [done|].
  destruct (decide (handle t = h0)) as [E|E].
  - rewrite filter_cons_False by tauto. cbn [List.find].
    rewrite bool_decide_eq_false_2 by congruence. done.
  - rewrite filter_cons_True by done. cbn [List.find].
    by rewrite IH.
Qed.

(** X20.  [cleanup] stops the poll loop but not a pending reconnect probe.
    On either side, [cleanup] marks the client disconnected and clears the
    poll interval, and a reconnect probe that was pending stays armed.
    When it fires and the liveness route answers, the client is connected
    again and polls again, on a new interval. *)
Theorem reconnect_probe_outlives_cleanup :
  (∀ (w : Claude.world) (h : nat) (tm : timer Claude.action) (st : string),
     List.find (fun t => bool_decide (handle t = h)) (Claude.timers w)
     = Some tm →
     act tm = Claude.Reconnect →
     Claude.pollInterval w ≠ Some h →
     (∀ t, t ∈ Claude.timers w → handle t < Claude.next_handle w) →
     Claude.routes w Claude.GetStatus = Status true st →
     let w1 := Claude.cleanup w in
     let w2 := Claude.exec (Claude.EvTimer h) w1 in
     Claude.connected w1 = false
     ∧ Claude.pollInterval w1 = None
     ∧ (∀ h0 t, Claude.pollInterval w = Some h0 → t ∈ Claude.timers w1 →
                handle t ≠ h0)
     ∧ List.find (fun t => bool_decide (handle t = h)) (Claude.timers w1)
       = Some tm
     ∧ Claude.connected w2 = true
     ∧ Claude.pollInterval w2 = Some (Claude.next_handle w)
     ∧ Timer (Claude.next_handle w) (N.max (Claude.now w) (due tm) + 2000)
         (Some 2000%N) Claude.PollTick ∈ Claude.timers w2)
  ∧ (∀ (w : Cline.world) (h : nat) (tm : timer Cline.action) (st : string),
       List.find (fun t => bool_decide (handle t = h)) (Cline.timers w)
       = Some tm →
       act tm = Cline.Reconnect →
       Cline.pollInterval w ≠ Some h →
       (∀ t, t ∈ Cline.timers w → handle t < Cline.next_handle w) →
       Cline.routes w Cline.GetStatus = Status true st →
       let w1 := Cline.cleanup w in
       let w2 := Cline.exec (Cline.EvTimer h) w1 in
       Cline.connected w1 = false
       ∧ Cline.pollInterval w1 = None
       ∧ (∀ h0 t, Cline.pollInterval w = Some h0 → t ∈ Cline.timers w1 →
                  handle t ≠ h0)
       ∧ List.find (fun t => bool_decide (handle t = h)) (Cline.timers w1)
         = Some tm
       ∧ Cline.connected w2 = true
       ∧ Cline.pollInterval w2 = Some (Cline.next_handle w)
       ∧ Timer (Cline.next_handle w) (N.max (Cline.now w) (due tm) + 2000)
           (Some 2000%N) Cline.PollTick ∈ Cline.timers w2).
Proof.
  split.
  - intros w h tm st Hf Ha Hp Hfresh Hs w1 w2.
    assert (Claude.connected w1 = false) as H1.
    { unfold w1, Claude.cleanup. claude_simpl.
      destruct (Claude.pollInterval w) eqn:Ei; claude_simpl; done. }
    assert (Claude.pollInterval w1 = None) as H2.
    { unfold w1, Claude.cleanup. claude_simpl.
      destruct (Claude.pollInterval w) eqn:Ei; claude_simpl; done. }
    assert (Claude.timers w1
            = match Claude.pollInterval w with
              | Some h0 => clear h0 (Claude.timers w)
              | None => Claude.timers w
              end) as Ht.
    { unfold w1, Claude.cleanup. claude_simpl.
      destruct (Claude.pollInterval w) eqn:Ei; claude_simpl; done. }
    assert (Claude.next_handle w1 = Claude.next_handle w) as Hn.
    { unfold w1, Claude.cleanup. claude_simpl.
      destruct (Claude.pollInterval w) eqn:Ei; claude_simpl; done. }
    assert (Claude.now w1 = Claude.now w) as Hnow.
    { unfold w1, Claude.cleanup. claude_simpl.
      destruct (Claude.pollInterval w) eqn:Ei; claude_simpl; done. }
    assert (Claude.routes w1 = Claude.routes w) as Hr.
    { unfold w1, Claude.cleanup. claude_simpl.
      destruct (Claude.pollInterval w) eqn:Ei; claude_simpl; done. }
    assert (List.find (fun t => bool_decide (handle t = h)) (Claude.timers w1)
            = Some tm) as Hf1.
    { rewrite Ht. destruct (Claude.pollInterval w) as [h0|]; [|done].
      rewrite find_clear_ne; [done|congruence]. }
    split; [done|]. split; [done|]. split.
    { intros h0 t Hh0. rewrite Ht, Hh0. unfold clear.
      by intros [? _]%list_elem_of_filter. }
    split; [done|].
    unfold w2. cbn [Claude.exec]. rewrite Hf1.
    unfold Claude.fire, Claude.body. rewrite Ha.
    unfold Claude.connect_unobserved, Claude.connectToServer. claude_simpl.
    rewrite Hr, Hs. unfold Claude.startPolling. claude_simpl.
    rewrite H2. claude_simpl. rewrite Hn, Hnow.
    split; [done|]. split; [done|].
    apply rearm_keeps; [apply elem_of_app; right; by left|].
    cbn [handle]. destruct (found_handle _ _ _ Hf) as [Hin <-].
    apply Hfresh in Hin. lia.
  - intros w h tm st Hf Ha Hp Hfresh Hs w1 w2.
    assert (Cline.connected w1 = false) as H1.
    { unfold w1, Cline.cleanup. cline_simpl.
      destruct (Cline.pollInterval w) eqn:Ei; cline_simpl; done. }
    assert (Cline.pollInterval w1 = None) as H2.
    { unfold w1, Cline.cleanup. cline_simpl.
      destruct (Cline.pollInterval w) eqn:Ei; cline_simpl; done. }
    assert (Cline.timers w1
            = match Cline.pollInterval w with
              | Some h0 => clear h0 (Cline.timers w)
              | None => Cline.timers w
              end) as Ht.
    { unfold w1, Cline.cleanup. cline_simpl.
      destruct (Cline.pollInterval w) eqn:Ei; cline_simpl; done. }
    assert (Cline.next_handle w1 = Cline.next_handle w) as Hn.
    { unfold w1, Cline.cleanup. cline_simpl.
      destruct (Cline.pollInterval w) eqn:Ei; cline_simpl; done. }
    assert (Cline.now w1 = Cline.now w) as Hnow.
    { unfold w1, Cline.cleanup. cline_simpl.
      destruct (Cline.pollInterval w) eqn:Ei; cline_simpl; done. }
    assert (Cline.routes w1 = Cline.routes w) as Hr.
    { unfold w1, Cline.cleanup. cline_simpl.
      destruct (Cline.pollInterval w) eqn:Ei; cline_simpl; done. }
    assert (List.find (fun t => bool_decide (handle t = h)) (Cline.timers w1)
            = Some tm) as Hf1.
    { rewrite Ht. destruct (Cline.pollInterval w) as [h0|]; [|done].
      rewrite find_clear_ne; [done|congruence]. }
    split; [done|]. split; [done|]. split.
    { intros h0 t Hh0. rewrite Ht, Hh0. unfold clear.
      by intros [? _]%list_elem_of_filter. }
    split; [done|].
    unfold w2. cbn [Cline.exec]. rewrite Hf1.
    unfold Cline.fire, Cline.body. rewrite Ha.
    unfold Cline.connect_unobserved, Cline.connectToServer. cline_simpl.
    rewrite Hr, Hs. unfold Cline.startPolling. cline_simpl.
    rewrite H2. cline_simpl. rewrite Hn, Hnow.
    split; [done|]. split; [done|].
    apply rearm_keeps; [apply elem_of_app; right; by left|].
    cbn [handle]. destruct (found_handle _ _ _ Hf) as [Hin <-].
    apply Hfresh in Hin. lia.
Qed.

Lemma reconnect_probe_outlives_cleanup_witness :
  let w := Claude.set_routes Claude.all_ok
             (Claude.poll_tick
                (Claude.set_routes Claude.unreachable Claude.connected_client)) in
  Claude.connected w = false
  ∧ Claude.connected (Claude.exec (Claude.EvTimer 1) (Claude.cleanup w)) = true
  ∧ Claude.pollInterval (Claude.exec (Claude.EvTimer 1) (Claude.cleanup w))
    = Some 2%nat.
Proof.
  intros w. split; [reflexivity|].
  destruct (proj1 reconnect_probe_outlives_cleanup w 1%nat
              (Timer 1%nat 5000%N None Claude.Reconnect) "OK" eq_refl eq_refl)
    as (_ & _ & _ & _ & H1 & H2 & _).
  - discriminate.
  - intros t Ht. vm_compute in Ht.
    apply elem_of_cons in Ht as [->|Ht];
      [vm_compute; lia|].
    apply list_elem_of_singleton in Ht. subst t. vm_compute. lia.
  - reflexivity.
  - split; [exact H1|exact H2].
Defined.

End Cleanup.
